(** * gen_font.py: glyph metric normalisation and bit-depth packing

    A shallow embedding of [core/tools/codegen/gen_font.py]: the pixel packer
    [process_bitmap_buffer], the column trimmer [drop_left_columns], the
    dataclass [Glyph] with [from_face], [process_byte] and [to_bytes], and the
    parts of [FaceProcessor] that accumulate the vertical extent of a font,
    build the glyph tables and the arrays of glyph references, and collect
    the character widths.

    Python integers are unbounded, so they are [Z]; [&], [|], [^] and [>>] are
    [Z.land], [Z.lor], [Z.lxor] and [Z.shiftr]; [//] and [%] are [Z.div] and
    [Z.modulo] (both round towards minus infinity, as Python does).  Lists of
    integers are [list Z].  A call that can raise returns a [result]; code
    that also prints returns a log of the printed lines with it. *)

From Stdlib Require Import ZArith List Lia Bool.
From Stdlib Require Import Sorted.
Import ListNotations.
Open Scope Z_scope.

(** ** Exceptions *)

(** The [assert] statements of [Glyph.from_face], in source order. *)
Inductive assertion : Type :=
| A_len_c            (* assert len(c) == 1 *)
| A_metrics_width    (* assert metrics.width // 64 == bitmap.width *)
| A_metrics_height   (* assert metrics.height // 64 == bitmap.rows *)
| A_width_frac       (* assert metrics.width % 64 == 0 *)
| A_height_frac      (* assert metrics.height % 64 == 0 *)
| A_advance_frac     (* assert metrics.horiAdvance % 64 == 0 *)
| A_bearingX_frac    (* assert metrics.horiBearingX % 64 == 0 *)
| A_bearingY_frac    (* assert metrics.horiBearingY % 64 == 0 *)
| A_pitch            (* assert bitmap.width == bitmap.pitch *)
| A_buffer_len       (* assert len(bitmap.buffer) == bitmap.pitch * bitmap.rows *)
| A_advance_range    (* assert advance >= 0 and advance <= 255 *)
| A_bearingX_range   (* assert bearingX >= 0 and bearingX <= 255 *)
| A_bearingY_range   (* assert bearingY >= 0 and bearingY <= 255 *)
| A_shave_bearingX   (* assert bearingX == 0 *)
| A_shave_width      (* assert width > remove_left *)
| A_shave_advance.   (* assert advance > remove_left *)

(** A Python [str] is the list of its code points. *)
Definition str : Type := list Z.

(** The places that raise [ValueError]. *)
Inductive value_error : Type :=
| UnsupportedBpp               (* the bare [raise ValueError] of the packer *)
| UnpackMismatch               (* [for a, b, ... in ...] on a short chunk *)
| NegativeBearingX (c : str)   (* "Negative bearingX for character ..." *)
| BytesRange                   (* [bytes(...)] of an int outside range(0, 256) *)
| NoVariantSelected            (* FaceProcessor.__init__ *)
| FontIdxUnset                 (* write_rust_file, normal variant *)
| FontIdxUpperUnset.           (* write_rust_file, upper variant *)

Inductive exn : Type :=
| AssertionError (a : assertion)
| ValueError (v : value_error)
| IndexError
| ZeroDivisionError.

Inductive result (A : Type) : Type :=
| Ok (a : A)
| Raise (e : exn).
Arguments Ok {A} a.
Arguments Raise {A} e.

Definition rbind {A B} (m : result A) (k : A -> result B) : result B :=
  match m with
  | Ok a => k a
  | Raise e => Raise e
  end.

Declare Scope result_scope.
Delimit Scope result_scope with result.
Notation "x <- m ;; k" := (rbind m (fun x => k))
  (at level 61, m at next level, right associativity) : result_scope.

(** A list comprehension whose element expression can raise. *)
Fixpoint comprehension {A B} (f : A -> result B) (xs : list A) : result (list B) :=
  match xs with
  | [] => Ok []
  | x :: xs' =>
      (y <- f x ;; ys <- comprehension f xs' ;; Ok (y :: ys))%result
  end.

(** A [for] loop that threads the variables it assigns through its body. *)
Fixpoint for_each {X S} (xs : list X) (body : X -> S -> result S) (s : S)
  : result S :=
  match xs with
  | [] => Ok s
  | x :: xs' => (s' <- body x s ;; for_each xs' body s')%result
  end.

(** ** Python list primitives *)

Definition len {A} (l : list A) : Z := Z.of_nat (length l).

(** How a slice bound is normalised against a list of length [n]: a negative
    bound counts from the end, and both are clamped to [0..n]. *)
Definition slice_bound (n i : Z) : Z :=
  if i <? 0 then Z.max 0 (i + n) else Z.min i n.

(** [l[i:j]] *)
Definition slice {A} (l : list A) (i j : Z) : list A :=
  let lo := slice_bound (len l) i in
  let hi := slice_bound (len l) j in
  firstn (Z.to_nat (hi - lo)) (skipn (Z.to_nat lo) l).

(** [l[::2]]; [l[1::2]] is [every_other (tl l)]. *)
Fixpoint every_other {A} (l : list A) : list A :=
  match l with
  | [] => []
  | [x] => [x]
  | x :: _ :: l' => x :: every_other l'
  end.

(** [l[i]]: a negative index counts from the end. *)
Definition item (l : list Z) (i : Z) : result Z :=
  let j := if i <? 0 then i + len l else i in
  if (0 <=? j) && (j <? len l)
  then Ok (nth (Z.to_nat j) l 0)
  else Raise IndexError.

(** [range(start, stop, step)] for a positive [step]. *)
Definition range (start stop step : Z) : list Z :=
  map (fun k => start + step * Z.of_nat k)
      (seq 0 (Z.to_nat ((stop - start + step - 1) / step))).

(** ** process_bitmap_buffer *)

(** [if len(res) % k != 0: for _ in range(k - len(res) % k): res.append(0)] *)
Definition pad_to (k : Z) (res : list Z) : list Z :=
  if negb (len res mod k =? 0)
  then res ++ repeat 0 (Z.to_nat (k - len res mod k))
  else res.

(** [[res[i : i + k] for i in range(0, len(res), k)]] *)
Definition chunks (k : Z) (res : list Z) : list (list Z) :=
  map (fun i => slice res i (i + k)) (range 0 (len res) k).

Definition pack_bpp1 (chunk : list Z) : result Z :=
  match chunk with
  | [a; b; c; d; e; f; g; h] =>
      Ok (Z.lor (Z.lor (Z.lor (Z.lor (Z.lor (Z.lor (Z.lor
            (Z.land a 0x80)
            (Z.shiftr (Z.land b 0x80) 1))
            (Z.shiftr (Z.land c 0x80) 2))
            (Z.shiftr (Z.land d 0x80) 3))
            (Z.shiftr (Z.land e 0x80) 4))
            (Z.shiftr (Z.land f 0x80) 5))
            (Z.shiftr (Z.land g 0x80) 6))
            (Z.shiftr (Z.land h 0x80) 7))
  | _ => Raise (ValueError UnpackMismatch)
  end.

Definition pack_bpp2 (chunk : list Z) : result Z :=
  match chunk with
  | [a; b; c; d] =>
      Ok (Z.lor (Z.lor (Z.lor
            (Z.land a 0xC0)
            (Z.shiftr (Z.land b 0xC0) 2))
            (Z.shiftr (Z.land c 0xC0) 4))
            (Z.shiftr (Z.land d 0xC0) 6))
  | _ => Raise (ValueError UnpackMismatch)
  end.

(** The body of [for y in range(0, height)] in the [bpp == 4] branch. *)
Definition pack_bpp4_row (buf : list Z) (width : Z) (y : Z) (res : list Z)
  : result (list Z) :=
  let row := slice buf (y * width) ((y + 1) * width) in
  let res :=
    res ++ map (fun '(a, b) => Z.lor (Z.land b 0xF0) (Z.shiftr a 4))
               (combine (every_other row) (every_other (tl row))) in
  if negb (Z.land width 1 =? 0)
  then (x <- item row (-1) ;; Ok (res ++ [Z.shiftr x 4]))%result
  else Ok res.

Definition process_bitmap_buffer (buf : list Z) (bpp width height : Z)
  : result (list Z) :=
  let res := buf in
  if bpp =? 1 then
    comprehension pack_bpp1 (chunks 8 (pad_to 8 res))
  else if bpp =? 2 then
    comprehension pack_bpp2 (chunks 4 (pad_to 4 res))
  else if bpp =? 4 then
    for_each (range 0 height 1) (pack_bpp4_row buf width) []
  else if bpp =? 8 then
    Ok res
  else
    Raise (ValueError UnsupportedBpp).

(** ** drop_left_columns *)

Definition drop_left_columns (buf : list Z) (width drop : Z) : result (list Z) :=
  for_each (range 0 (len buf) 1)
    (fun i res =>
       if width =? 0 then Raise ZeroDivisionError
       else if i mod width >=? drop
            then (x <- item buf i ;; Ok (res ++ [x]))%result
            else Ok res)
    [].


(** ** Printed lines and the monad of code that prints *)

Inductive line : Type :=
| Normalizing_bearingY (bearingY : Z) (c : str)
    (* normalizing bearingY {bearingY} for '{c}' *)
| Removed_columns (c : str) (remove_left : Z)
    (* Glyph "{c}": removed {remove_left} pixel columns from the left *)
| Loaded_glyph (c : str) (width rows num_grays nbytes advance bearingX bearingY : Z)
    (* Loaded glyph "{char}" ... {width} x {rows} @ {num_grays} grays ... *)
| Processing (size : Z).
    (* Processing ... {name} {style} {size} *)

(** What was printed so far, and the value returned or the exception raised. *)
Definition io (A : Type) : Type := (list line * result A)%type.

Definition ret {A} (a : A) : io A := ([], Ok a).
Definition raise {A} (e : exn) : io A := ([], Raise e).
Definition print (l : line) : io unit := ([l], Ok tt).
Definition lift {A} (r : result A) : io A := ([], r).
Definition assert (b : bool) (a : assertion) : io unit :=
  if b then ret tt else raise (AssertionError a).

Definition bind {A B} (m : io A) (k : A -> io B) : io B :=
  match m with
  | (out, Ok a) => let '(out', r) := k a in (out ++ out', r)
  | (out, Raise e) => (out, Raise e)
  end.

Declare Scope io_scope.
Delimit Scope io_scope with io.
Notation "x <- m ;; k" := (bind m (fun x => k))
  (at level 61, m at next level, right associativity) : io_scope.
Notation "m ;; k" := (bind m (fun _ => k))
  (at level 61, right associativity) : io_scope.
Notation "' pat <- m ;; k" := (bind m (fun x => let 'pat := x in k))
  (at level 61, pat pattern, m at next level, right associativity) : io_scope.

Fixpoint io_for_each {X S} (xs : list X) (body : X -> S -> io S) (s : S) : io S :=
  match xs with
  | [] => ret s
  | x :: xs' => (s' <- body x s ;; io_for_each xs' body s')%io
  end.

(** ** The allow-list MODIFY_BEARING_X *)

Fixpoint str_eqb (a b : str) : bool :=
  match a, b with
  | [], [] => true
  | x :: a', y :: b' => (x =? y) && str_eqb a' b'
  | _, _ => false
  end.

(** [c in l] for a list of strings. *)
Definition str_in (c : str) (l : list str) : bool := existsb (str_eqb c) l.

(** Every entry is one precomposed code point, which NFKC leaves as it is. *)
Definition MODIFY_BEARING_X : list str :=
  [ [0xC4]   (* A with diaeresis *)
  ; [0xC0]   (* A with grave *)
  ; [0xC2]   (* A with circumflex *)
  ; [0xC3]   (* A with tilde *)
  ; [0xC6]   (* AE *)
  ; [0xCE]   (* I with circumflex *)
  ; [0xCF]   (* I with diaeresis *)
  ; [0xCC]   (* I with grave *)
  ; [0xEE]   (* i with circumflex *)
  ; [0xEF]   (* i with diaeresis *)
  ; [0xEC]   (* i with grave *)
  ; [0xFF]   (* y with diaeresis *)
  ; [0xDD]   (* Y with acute *)
  ; [0x178]  (* Y with diaeresis *)
  ; [0xC1]   (* A with acute *)
  ; [0xFD]   (* y with acute *)
  ; [65]     (* A *)
  ; [88]     (* X *)
  ; [89]     (* Y *)
  ; [106]    (* j *)
  ; [120]    (* x *)
  ; [121]    (* y *)
  ; [125]    (* right brace *)
  ; [41]     (* right parenthesis *)
  ; [44]     (* comma *)
  ; [47]     (* slash *)
  ; [95]     (* underscore *)
  ].

(** ** What the rasterizer hands over: face.glyph.bitmap and face.glyph.metrics *)

Module Bitmap.
Record t : Type := mk
  { width : Z; rows : Z; pitch : Z; buffer : list Z; num_grays : Z }.
End Bitmap.

Module Metrics.
Record t : Type := mk
  { width : Z; height : Z;
    horiAdvance : Z; horiBearingX : Z; horiBearingY : Z }.
End Metrics.

Record GlyphSlot : Type := mkGlyphSlot
  { bitmap : Bitmap.t; metrics : Metrics.t }.

(** ** Glyph *)

Record Glyph : Type := mkGlyph
  { char : str;
    width : Z;
    rows : Z;
    advance : Z;
    bearingX : Z;
    bearingY : Z;
    buf : list Z;
    num_grays : Z;
    inverse_colors : bool }.

(** The block under [if shaveX > 0]: returns advance, bearingX, remove_left. *)
Definition discard_left_space (advance bearingX shaveX : Z) : Z * Z * Z :=
  let remove_left := shaveX in
  if shaveX >? 0 then
    let diff := Z.min advance (Z.min bearingX shaveX) in
    (advance - diff, bearingX - diff, remove_left - diff)
  else
    (advance, bearingX, remove_left).

(** The block under [if bearingX < 0]: returns advance, bearingX. *)
Definition fold_negative_bearingX (c : str) (advance bearingX : Z) : io (Z * Z) :=
  if bearingX <? 0 then
    if str_in c MODIFY_BEARING_X
    then ret (advance + - bearingX, 0)
    else raise (ValueError (NegativeBearingX c))
  else ret (advance, bearingX).

(** The block under [if bearingY < 0]. *)
Definition normalize_bearingY (c : str) (bearingY : Z) : io Z :=
  if bearingY <? 0
  then (print (Normalizing_bearingY bearingY c) ;; ret 0)%io
  else ret bearingY.

(** The block under [if remove_left > 0 and width > 0]:
    returns buf, width, advance. *)
Definition discard_left_pixels
    (c : str) (buf : list Z) (width advance bearingX remove_left : Z)
  : io (list Z * Z * Z) :=
  if (remove_left >? 0) && (width >? 0) then
    (assert (bearingX =? 0) A_shave_bearingX ;;
     buf <- lift (drop_left_columns buf width remove_left) ;;
     assert (width >? remove_left) A_shave_width ;;
     let width := width - remove_left in
     assert (advance >? remove_left) A_shave_advance ;;
     let advance := advance - remove_left in
     print (Removed_columns c remove_left) ;;
     ret (buf, width, advance))%io
  else ret (buf, width, advance).

(** The asserts that open [from_face]: what the rasterizer left in
    [face.glyph] must be consistent and in whole pixels. *)
Definition check_rasterizer (glyph : GlyphSlot) (c : str) : io unit :=
  (assert (len c =? 1) A_len_c ;;
   let bitmap := bitmap glyph in
   let metrics := metrics glyph in
   assert (Metrics.width metrics / 64 =? Bitmap.width bitmap) A_metrics_width ;;
   assert (Metrics.height metrics / 64 =? Bitmap.rows bitmap) A_metrics_height ;;
   assert (Metrics.width metrics mod 64 =? 0) A_width_frac ;;
   assert (Metrics.height metrics mod 64 =? 0) A_height_frac ;;
   assert (Metrics.horiAdvance metrics mod 64 =? 0) A_advance_frac ;;
   assert (Metrics.horiBearingX metrics mod 64 =? 0) A_bearingX_frac ;;
   assert (Metrics.horiBearingY metrics mod 64 =? 0) A_bearingY_frac ;;
   assert (Bitmap.width bitmap =? Bitmap.pitch bitmap) A_pitch ;;
   assert (len (Bitmap.buffer bitmap) =? Bitmap.pitch bitmap * Bitmap.rows bitmap)
          A_buffer_len)%io.

(** The rest of [from_face], from [width = bitmap.width] to the [return]. *)
Definition normalize (glyph : GlyphSlot) (c : str) (shaveX : Z)
    (inverse_colors : bool) : io Glyph :=
  (let bitmap := bitmap glyph in
   let metrics := metrics glyph in
   let width := Bitmap.width bitmap in
   let rows := Bitmap.rows bitmap in
   let advance := Metrics.horiAdvance metrics / 64 in
   let bearingX := Metrics.horiBearingX metrics / 64 in
   let '(advance, bearingX, remove_left) :=
     discard_left_space advance bearingX shaveX in
   '(advance, bearingX) <- fold_negative_bearingX c advance bearingX ;;
   let bearingY := Metrics.horiBearingY metrics / 64 in
   assert ((advance >=? 0) && (advance <=? 255)) A_advance_range ;;
   assert ((bearingX >=? 0) && (bearingX <=? 255)) A_bearingX_range ;;
   bearingY <- normalize_bearingY c bearingY ;;
   assert ((bearingY >=? 0) && (bearingY <=? 255)) A_bearingY_range ;;
   let buf := Bitmap.buffer bitmap in
   '(buf, width, advance) <-
     discard_left_pixels c buf width advance bearingX remove_left ;;
   ret (mkGlyph c width rows advance bearingX bearingY buf
                (Bitmap.num_grays bitmap) inverse_colors))%io.

(** [Glyph.from_face]; [glyph] is [face.glyph]. *)
Definition from_face (glyph : GlyphSlot) (c : str) (shaveX : Z)
    (inverse_colors : bool) : io Glyph :=
  (check_rasterizer glyph c ;; normalize glyph c shaveX inverse_colors)%io.

(** [self.print_metrics()] *)
Definition print_metrics (self : Glyph) : io unit :=
  print (Loaded_glyph (char self) (width self) (rows self) (num_grays self)
           (len (buf self)) (advance self) (bearingX self) (bearingY self)).

Definition process_byte (self : Glyph) (b : Z) : Z :=
  if inverse_colors self then Z.lxor b 0xFF else b.

(** [bytes(l)] for a list of ints. *)
Definition bytes (l : list Z) : result (list Z) :=
  if forallb (fun x => (0 <=? x) && (x <? 256)) l
  then Ok l
  else Raise (ValueError BytesRange).

Definition to_bytes (self : Glyph) (bpp : Z) : result (list Z) :=
  let infos :=
    [width self; rows self; advance self; bearingX self; bearingY self] in
  match buf self with
  | _ :: _ =>
      (packed <- process_bitmap_buffer (buf self) bpp (width self) (rows self) ;;
       let data := map (process_byte self) packed in
       bytes (infos ++ data))%result
  | [] => bytes infos
  end.

(** ** FaceProcessor *)

Definition MIN_GLYPH : Z := 32.   (* ord(" ") *)
Definition MAX_GLYPH : Z := 126.  (* ord("~") *)

(** [chr(i).islower()] on the code points the loops run over, 32 to 126:
    true exactly on the letters a to z. *)
Definition islower (i : Z) : bool := (97 <=? i) && (i <=? 122).

(** The fields the vertical extent depends on.  [face c] is what [face.glyph]
    holds after [self._load_char(c)]: the rasterizer is an external library. *)
Record FaceProcessor : Type := mkFaceProcessor
  { size : Z;
    font_idx : option Z;
    font_idx_upper : option Z;
    bpp : Z;
    shaveX : Z;
    gen_normal : bool;
    gen_upper : bool;
    face : str -> GlyphSlot;
    font_ymin : Z;
    font_ymax : Z }.

Definition set_extent (self : FaceProcessor) (ymin ymax : Z) : FaceProcessor :=
  mkFaceProcessor (size self) (font_idx self) (font_idx_upper self) (bpp self)
    (shaveX self) (gen_normal self) (gen_upper self) (face self) ymin ymax.

(** [FaceProcessor.__init__] *)
Definition init (size bpp shaveX : Z) (gen_normal gen_upper : bool)
    (font_idx font_idx_upper : option Z) (face : str -> GlyphSlot)
  : io FaceProcessor :=
  if negb gen_normal && negb gen_upper
  then raise (ValueError NoVariantSelected)
  else
    (print (Processing size) ;;
     ret (mkFaceProcessor size font_idx font_idx_upper bpp shaveX
            gen_normal gen_upper face 0 0))%io.

(** The four lines that update [font_ymin] and [font_ymax] from one glyph. *)
Definition update_extent (self : FaceProcessor) (glyph : Glyph) : FaceProcessor :=
  let yMin := bearingY glyph - rows glyph in
  let yMax := yMin + rows glyph in
  set_extent self (Z.min (font_ymin self) yMin) (Z.max (font_ymax self) yMax).

(** The entries of the [font_info] dictionaries and of [font_info_t]. *)
Record FontInfo : Type := mkFontInfo
  { is_upper : bool;
    translation_blob_idx : option Z;
    height : Z;
    max_height : Z;
    baseline : Z }.

(** The [data] handed to the template: per glyph its code and bytes. *)
Record RustData : Type := mkRustData
  { glyphs : list (Z * list Z);
    nonprintable : list Z;
    font_info : option FontInfo;
    font_info_upper : option FontInfo }.

Definition question_mark : str := [63].

(** [write_rust_file], up to the dictionary [data]; the arrays of names, the
    rendering of the template and the file are text only. *)
Definition write_rust_file (self : FaceProcessor) : io (FaceProcessor * RustData) :=
  (glyphs <-
     io_for_each (range MIN_GLYPH (MAX_GLYPH + 1) 1)
       (fun i glyphs =>
          let c := [i] in
          if islower i && negb (gen_normal self) then ret glyphs
          else
            (glyph <- from_face (face self c) c (shaveX self) false ;;
             arr_bytes <- lift (to_bytes glyph (bpp self)) ;;
             ret (glyphs ++ [(i, arr_bytes)])))
       [] ;;
   glyph_np <- from_face (face self question_mark) question_mark
                 (shaveX self) true ;;
   arr_bytes_np <- lift (to_bytes glyph_np (bpp self)) ;;
   let self := set_extent self 0 0 in
   self <-
     io_for_each (range MIN_GLYPH (MAX_GLYPH + 1) 1)
       (fun i self =>
          let c := [i] in
          if islower i && negb (gen_normal self) then ret self
          else
            (glyph <- from_face (face self c) c (shaveX self) false ;;
             ret (update_extent self glyph)))
       self ;;
   font_info <-
     (if gen_normal self then
        match font_idx self with
        | None => raise (ValueError FontIdxUnset)
        | Some idx =>
            ret (Some (mkFontInfo false (Some idx) (size self)
                         (font_ymax self - font_ymin self) (- font_ymin self)))
        end
      else ret None) ;;
   font_info_upper <-
     (if gen_upper self then
        match font_idx_upper self with
        | None => raise (ValueError FontIdxUpperUnset)
        | Some idx =>
            ret (Some (mkFontInfo true (Some idx) (size self)
                         (font_ymax self - font_ymin self) (- font_ymin self)))
        end
      else ret None) ;;
   ret (self, mkRustData glyphs arr_bytes_np font_info font_info_upper))%io.

(** [_write_char_definition]: returns the bytes of the definition line. *)
Definition _write_char_definition (self : FaceProcessor) (c : str)
  : io (FaceProcessor * list Z) :=
  (glyph <- from_face (face self c) c (shaveX self) false ;;
   print_metrics glyph ;;
   numbers <- lift (to_bytes glyph (bpp self)) ;;
   ret (update_extent self glyph, numbers))%io.

(** [_write_font_info_structure] *)
Definition _write_font_info_structure (self : FaceProcessor) (is_upper : bool)
  : FontInfo :=
  mkFontInfo is_upper None (size self)
    (font_ymax self - font_ymin self) (- font_ymin self).

(** [_write_c_file_content]: the glyph definitions, the nonprintable glyph and
    the font info structures written to the C file. *)
Definition _write_c_file_content (self : FaceProcessor)
  : io (FaceProcessor * (list (Z * list Z) * list Z * list FontInfo)) :=
  ('(self, defs) <-
     io_for_each (range MIN_GLYPH (MAX_GLYPH + 1) 1)
       (fun i '(self, defs) =>
          if islower i && negb (gen_normal self) then ret (self, defs)
          else
            ('(self, numbers) <- _write_char_definition self [i] ;;
             ret (self, defs ++ [(i, numbers)])))
       (self, []) ;;
   glyph_np <- from_face (face self question_mark) question_mark
                 (shaveX self) true ;;
   nonprintable <- lift (to_bytes glyph_np (bpp self)) ;;
   let infos :=
     (if gen_normal self then [_write_font_info_structure self false] else [])
     ++ (if gen_upper self then [_write_font_info_structure self true] else []) in
   ret (self, (defs, nonprintable, infos)))%io.

(** ** The consumer's view of the packed format

    The definitions of this part are not in the script: they restate, from
    the description of the format, how a packed glyph is read back, so that
    the packer can be compared with them. *)

(** An 8-bit grayscale value. *)
Definition is_byte (x : Z) : Prop := 0 <= x < 256.

(** The top [bpp] bits of a pixel, as a number below [2 ^ bpp]. *)
Definition sample (bpp x : Z) : Z := Z.shiftr x (8 - bpp).

(** The samples held by one packed byte, in scan order: MSB first for one and
    two bits per pixel; low nibble first for four. *)
Definition reference_unpack_byte (bpp B : Z) : list Z :=
  if bpp =? 1 then
    map (fun k => Z.land (Z.shiftr B (7 - k)) 1) [0; 1; 2; 3; 4; 5; 6; 7]
  else if bpp =? 2 then
    map (fun k => Z.land (Z.shiftr B (6 - 2 * k)) 3) [0; 1; 2; 3]
  else if bpp =? 4 then
    [Z.land B 0xF; Z.shiftr B 4]
  else
    [B].

Definition reference_unpack (bpp : Z) (packed : list Z) : list Z :=
  flat_map (reference_unpack_byte bpp) packed.

(** Row [y] of a row-major buffer of the given width. *)
Definition pixel_row (buf : list Z) (width y : Z) : list Z :=
  slice buf (y * width) ((y + 1) * width).

(** What reading back must give: the samples of the pixels in scan order,
    followed by zero padding up to a whole byte; at four bits per pixel the
    padding closes every row, at one and two it closes the buffer. *)
Definition padded_samples (bpp width height : Z) (buf : list Z) : list Z :=
  if bpp =? 4 then
    flat_map (fun y => map (sample 4) (pixel_row buf width y)
                       ++ repeat 0 (Z.to_nat (width mod 2)))
             (range 0 height 1)
  else
    map (sample bpp) buf ++ repeat 0 (Z.to_nat ((- len buf) mod (8 / bpp))).

(** The ten consistency asserts that open [from_face], as one test. *)
Definition rasterizer_consistent (glyph : GlyphSlot) (c : str) : bool :=
  let bitmap := bitmap glyph in
  let metrics := metrics glyph in
  (len c =? 1)
  && (Metrics.width metrics / 64 =? Bitmap.width bitmap)
  && (Metrics.height metrics / 64 =? Bitmap.rows bitmap)
  && (Metrics.width metrics mod 64 =? 0)
  && (Metrics.height metrics mod 64 =? 0)
  && (Metrics.horiAdvance metrics mod 64 =? 0)
  && (Metrics.horiBearingX metrics mod 64 =? 0)
  && (Metrics.horiBearingY metrics mod 64 =? 0)
  && (Bitmap.width bitmap =? Bitmap.pitch bitmap)
  && (len (Bitmap.buffer bitmap) =? Bitmap.pitch bitmap * Bitmap.rows bitmap).

(** The same rasterizer output with another [horiBearingY]. *)
Definition with_horiBearingY (glyph : GlyphSlot) (v : Z) : GlyphSlot :=
  let m := metrics glyph in
  mkGlyphSlot (bitmap glyph)
    (Metrics.mk (Metrics.width m) (Metrics.height m)
       (Metrics.horiAdvance m) (Metrics.horiBearingX m) v).

(** The code points whose glyphs a variant holds: the printable ASCII range,
    without the lowercase letters when the full set is not generated. *)
Definition variant_codes (gen_normal : bool) : list Z :=
  filter (fun i => negb (islower i && negb gen_normal))
         (range MIN_GLYPH (MAX_GLYPH + 1) 1).

(** The bytes a chunk or a row packs into, for the packers that cannot fail
    on it. *)
Definition byte_of (f : list Z -> result Z) (chunk : list Z) : Z :=
  match f chunk with
  | Ok b => b
  | Raise _ => 0
  end.

Definition groups (k : nat) (l : list Z) : list (list Z) :=
  map (fun q => firstn k (skipn (k * q) l)) (seq 0 (length l / k)).

Definition row_bytes (row : list Z) : list Z :=
  map (fun '(a, b) => Z.lor (Z.land b 0xF0) (Z.shiftr a 4))
      (combine (every_other row) (every_other (tl row)))
  ++ (if Nat.odd (length row) then [Z.shiftr (last row 0) 4] else []).

(** [buf[y * width + x]], the pixel in column [x] of row [y]. *)
Definition pixel (buf : list Z) (width y x : Z) : Z :=
  nth (Z.to_nat (y * width + x)) buf 0.

(** [ceil(a / b)] for a positive [b]. *)
Definition ceil_div (a b : Z) : Z := (a + b - 1) / b.

(** [XOR(x, 0xFF)] *)
Definition invert (x : Z) : Z := Z.lxor x 0xFF.

(** The five numbers that open a serialized glyph. *)
Definition header (g : Glyph) : list Z :=
  [width g; rows g; advance g; bearingX g; bearingY g].

(** A glyph slot as a rasterizer fills it for a blank bitmap of [w] by [r]
    pixels with the given metrics, all in whole pixels. *)
Definition blank_slot (w r adv bx by_ : Z) : GlyphSlot :=
  mkGlyphSlot
    (Bitmap.mk w r w (repeat 0 (Z.to_nat (w * r))) 256)
    (Metrics.mk (64 * w) (64 * r) (64 * adv) (64 * bx) (64 * by_)).

(** Whether the loops over the printable range skip the code point [i]. *)
Definition skipped (self : FaceProcessor) (i : Z) : bool :=
  islower i && negb (gen_normal self).

(** ** A small font, for the examples

    Every glyph is a blank bitmap 3 pixels wide with advance 6; the letters
    stand 5 rows on the baseline, the letter g is 7 rows tall and reaches 2
    rows below it, and the space has no bitmap. *)
Definition demo_face (c : str) : GlyphSlot :=
  match c with
  | [i] =>
      if i =? 103 then blank_slot 3 7 6 0 5
      else if i =? 32 then blank_slot 0 0 4 0 0
      else blank_slot 3 5 6 0 5
  | _ => blank_slot 0 0 0 0 0
  end.

Definition demo_processor : FaceProcessor :=
  mkFaceProcessor 8 (Some 1) None 4 0 true false demo_face 0 0.

Definition demo_glyph (c : str) (inverse_colors : bool) : Glyph :=
  match snd (from_face (demo_face c) c 0 inverse_colors) with
  | Ok g => g
  | Raise _ => mkGlyph c 0 0 0 0 0 [] 0 inverse_colors
  end.

Definition demo_glyphs : list Glyph :=
  map (fun i => demo_glyph [i] false) (variant_codes true).

Definition demo_bytes : list (list Z) :=
  map (fun g => match to_bytes g 4 with Ok bs => bs | Raise _ => [] end)
      demo_glyphs.

Definition demo_nonprintable : Glyph := demo_glyph question_mark true.

Definition demo_nonprintable_bytes : list Z :=
  match to_bytes demo_nonprintable 4 with Ok bs => bs | Raise _ => [] end.

(** ** The arrays of glyph references *)

(** [chr(i).upper()] for a lowercase letter a to z, as a code point. *)
Definition upper (i : Z) : Z := i - 32.

(** Step 3 of [write_rust_file], and the two arrays that
    [_write_c_file_content] writes: for every entry, the code point in the
    name of the glyph it refers to. *)
Definition glyph_array (self : FaceProcessor) : list Z :=
  if gen_normal self then range MIN_GLYPH (MAX_GLYPH + 1) 1 else [].

Definition glyph_array_upper (self : FaceProcessor) : list Z :=
  if gen_upper self then
    fold_left (fun arr i => if islower i then arr ++ [upper i] else arr ++ [i])
              (range MIN_GLYPH (MAX_GLYPH + 1) 1) []
  else [].

(** ** write_char_widths_files *)

(** [a < b] on strings: lexicographic on the code points. *)
Fixpoint str_ltb (a b : str) : bool :=
  match a, b with
  | _, [] => false
  | [], _ :: _ => true
  | x :: a', y :: b' => (x <? y) || ((x =? y) && str_ltb a' b')
  end.

(** A [set] of strings is kept as the increasing list of its elements, so
    that [sorted(chars)] is the list itself; this is [chars.add(c)]. *)
Fixpoint set_add (c : str) (chars : list str) : list str :=
  match chars with
  | [] => [c]
  | d :: chars' =>
      if str_eqb c d then chars
      else if str_ltb c d then c :: chars
      else d :: set_add c chars'
  end.

(** [d[k] = v] on a dictionary, kept in insertion order: the value of an
    existing key is replaced where it is, a new key goes last. *)
Fixpoint dict_set (k : str) (v : Z) (d : list (str * Z)) : list (str * Z) :=
  match d with
  | [] => [(k, v)]
  | (k', v') :: d' =>
      if str_eqb k k' then (k', v) :: d' else (k', v') :: dict_set k v d'
  end.

(** [write_char_widths_files], up to the dictionary [widths] that is dumped
    to the file; [all_languages] is the imported table of the foreign
    characters of each language. *)
Definition write_char_widths_files (self : FaceProcessor)
    (all_languages : list (str * list str)) : io (list (str * Z)) :=
  let chars := [] in
  let chars :=
    fold_left
      (fun chars i =>
         let c := [i] in
         let c := if islower i && negb (gen_normal self) then [upper i] else c in
         set_add c chars)
      (range MIN_GLYPH (MAX_GLYPH + 1) 1) chars in
  let chars :=
    fold_left
      (fun chars '(_lang, lang_chars) =>
         fold_left (fun chars c => set_add c chars) lang_chars chars)
      all_languages chars in
  io_for_each chars
    (fun c widths =>
       (glyph <- from_face (face self c) c (shaveX self) false ;;
        ret (dict_set c (advance glyph) widths))%io)
    [].

(** ** Notions the properties of the generator are stated with *)

(** The same glyph with another [inverse_colors]. *)
Definition with_inverse_colors (g : Glyph) (b : bool) : Glyph :=
  mkGlyph (char g) (width g) (rows g) (advance g) (bearingX g) (bearingY g)
          (buf g) (num_grays g) b.

(** [f] applied to what a computation returns. *)
Definition io_map {A B} (f : A -> B) (m : io A) : io B :=
  (fst m, match snd m with Ok a => Ok (f a) | Raise e => Raise e end).

(** [f] applied to what a call returns. *)
Definition result_map {A B} (f : A -> B) (r : result A) : result B :=
  match r with
  | Ok a => Ok (f a)
  | Raise e => Raise e
  end.

(** The number of bytes a [width] by [height] bitmap packs into. *)
Definition packed_length (bpp width height : Z) : Z :=
  if bpp =? 1 then ceil_div (width * height) 8
  else if bpp =? 2 then ceil_div (width * height) 4
  else if bpp =? 4 then height * ceil_div width 2
  else width * height.

(** A serialized glyph with every byte after the five of the header XORed
    with 0xFF. *)
Definition invert_data (out : list Z) : list Z :=
  firstn 5 out ++ map invert (skipn 5 out).

(** [a < b] as a proposition. *)
Definition str_lt (a b : str) : Prop := str_ltb a b = true.

(** The character that stands for the code point [i] in the widths file. *)
Definition width_char (self : FaceProcessor) (i : Z) : str :=
  [if islower i && negb (gen_normal self) then i - 32 else i].

(** ** The small font, generated *)

(** The Rust table of the small font. *)
Definition demo_rust : FaceProcessor * RustData :=
  match snd (write_rust_file demo_processor) with
  | Ok r => r
  | Raise _ => (demo_processor, mkRustData [] [] None None)
  end.

(** The C definitions of the small font. *)
Definition demo_c : FaceProcessor * (list (Z * list Z) * list Z * list FontInfo) :=
  match snd (_write_c_file_content demo_processor) with
  | Ok r => r
  | Raise _ => (demo_processor, ([], [], []))
  end.

(** The widths of the small font and of two foreign characters. *)
Definition demo_widths : list (str * Z) :=
  match snd (write_char_widths_files demo_processor
               [([99; 115], [[225]; [269]; [225]])]) with
  | Ok w => w
  | Raise _ => []
  end.

(** * Facts about the list primitives *)

Section ListFacts.

Context {A : Type}.
Implicit Types l : list A.

Lemma len_nonneg l : 0 <= len l.
Proof. unfold len. lia. Qed.

Lemma slice_inside l i j :
  0 <= i <= j -> j <= len l ->
  slice l i j = firstn (Z.to_nat (j - i)) (skipn (Z.to_nat i) l).
Proof.
  intros Hij Hj. unfold slice, slice_bound.
  destruct (i <? 0) eqn:Hi; [apply Z.ltb_lt in Hi; lia|].
  destruct (j <? 0) eqn:Hj0; [apply Z.ltb_lt in Hj0; lia|].
  rewrite !Z.min_l by lia. reflexivity.
Qed.

Lemma slice_inside_length l i j :
  0 <= i <= j -> j <= len l -> length (slice l i j) = Z.to_nat (j - i).
Proof.
  intros Hij Hj. rewrite slice_inside by assumption.
  rewrite length_firstn, length_skipn. unfold len in Hj. lia.
Qed.

Lemma slice_inside_nth l i j k d :
  0 <= i <= j -> j <= len l -> (k < Z.to_nat (j - i))%nat ->
  nth k (slice l i j) d = nth (Z.to_nat i + k) l d.
Proof.
  intros Hij Hj Hk. rewrite slice_inside by assumption.
  rewrite nth_firstn.
  destruct (Nat.ltb_spec k (Z.to_nat (j - i))); [|lia].
  rewrite nth_skipn. reflexivity.
Qed.

Lemma concat_groups (k m : nat) l :
  length l = (k * m)%nat ->
  concat (map (fun q => firstn k (skipn (k * q) l)) (seq 0 m)) = l.
Proof.
  revert l. induction m as [|m IH]; intros l Hl.
  - destruct l; [reflexivity|]. cbn in Hl. lia.
  - cbn [seq map concat]. rewrite Nat.mul_0_r. cbn [skipn].
    rewrite <- seq_shift, map_map.
    transitivity (firstn k l ++ skipn k l); [|apply firstn_skipn].
    f_equal.
    etransitivity; [|apply (IH (skipn k l)); rewrite length_skipn; lia].
    f_equal. apply map_ext. intros q.
    rewrite skipn_skipn. do 2 f_equal. lia.
Qed.

End ListFacts.

Lemma range_from_0 (n k : Z) (m : nat) :
  0 < k -> n = k * Z.of_nat m ->
  range 0 n k = map (fun q => k * Z.of_nat q) (seq 0 m).
Proof.
  intros Hk ->. unfold range.
  replace ((k * Z.of_nat m - 0 + k - 1) / k) with (Z.of_nat m).
  - rewrite Nat2Z.id. apply map_ext. intros q. lia.
  - apply Z.div_unique with (r := k - 1); lia.
Qed.

Lemma range_by_1 (start stop : Z) :
  range start stop 1 =
  map (fun q => start + Z.of_nat q) (seq 0 (Z.to_nat (stop - start))).
Proof.
  unfold range. rewrite Z.div_1_r.
  replace (stop - start + 1 - 1) with (stop - start) by lia.
  apply map_ext. intros q. lia.
Qed.

(** The chunks of a list whose length is a multiple of the chunk size. *)
Lemma chunks_exact (k m : nat) (res : list Z) :
  (0 < k)%nat -> length res = (k * m)%nat ->
  chunks (Z.of_nat k) res =
  map (fun q => firstn k (skipn (k * q) res)) (seq 0 m).
Proof.
  intros Hk Hlen. unfold chunks.
  rewrite (range_from_0 _ _ m) by (unfold len; nia).
  rewrite map_map. apply map_ext_in. intros q Hq.
  apply in_seq in Hq.
  rewrite slice_inside by (unfold len; nia).
  f_equal; [|f_equal]; lia.
Qed.

Lemma pad_to_length (k : nat) (res : list Z) :
  (0 < k)%nat ->
  length (pad_to (Z.of_nat k) res)
  = (k * Z.to_nat ((len res + Z.of_nat k - 1) / Z.of_nat k))%nat.
Proof.
  intros Hk. unfold pad_to.
  set (n := len res). set (kz := Z.of_nat k).
  assert (Hn : 0 <= n) by apply len_nonneg.
  assert (Hkz : 0 < kz) by (unfold kz; lia).
  pose proof (Z.div_mod n kz ltac:(lia)) as Hdm.
  pose proof (Z.mod_pos_bound n kz Hkz) as Hmod.
  assert (Hq : 0 <= n / kz) by (apply Z.div_pos; lia).
  destruct (n mod kz =? 0) eqn:E; cbn [negb].
  - apply Z.eqb_eq in E.
    replace ((n + kz - 1) / kz) with (n / kz)
      by (apply Z.div_unique with (r := kz - 1); lia).
    apply Nat2Z.inj. fold (len res). fold n.
    rewrite Nat2Z.inj_mul, Z2Nat.id by lia.
    fold kz. lia.
  - apply Z.eqb_neq in E.
    replace ((n + kz - 1) / kz) with (n / kz + 1)
      by (apply Z.div_unique with (r := n mod kz - 1); lia).
    rewrite length_app, repeat_length.
    apply Nat2Z.inj.
    rewrite Nat2Z.inj_add, Nat2Z.inj_mul, !Z2Nat.id by lia.
    fold (len res). fold n. fold kz. lia.
Qed.

(** * Facts about the packer *)

Lemma comprehension_total {A B} (f : A -> result B) (g : A -> B) xs :
  (forall x, In x xs -> f x = Ok (g x)) ->
  comprehension f xs = Ok (map g xs).
Proof.
  induction xs as [|x xs IH]; intros H; [reflexivity|].
  cbn [comprehension map]. rewrite (H x) by (left; reflexivity).
  cbn [rbind]. rewrite IH by (intros; apply H; right; assumption).
  reflexivity.
Qed.

Lemma for_each_append {X} (body : X -> list Z -> result (list Z)) g xs :
  (forall x s, In x xs -> body x s = Ok (s ++ g x)) ->
  forall s, for_each xs body s = Ok (s ++ flat_map g xs).
Proof.
  induction xs as [|x xs IH]; intros H s.
  - cbn. rewrite app_nil_r. reflexivity.
  - cbn [for_each flat_map]. rewrite (H x) by (left; reflexivity).
    cbn [rbind]. rewrite IH by (intros; apply H; right; assumption).
    rewrite app_assoc. reflexivity.
Qed.

Lemma groups_spec (k m : nat) (l : list Z) :
  (0 < k)%nat -> length l = (k * m)%nat ->
  chunks (Z.of_nat k) l = groups k l
  /\ length (groups k l) = m
  /\ concat (groups k l) = l
  /\ (forall c, In c (groups k l) -> length c = k).
Proof.
  intros Hk Hl. unfold groups.
  replace (length l / k)%nat with m
    by (rewrite Hl, Nat.mul_comm, Nat.div_mul; lia).
  repeat split.
  - apply chunks_exact; assumption.
  - rewrite length_map, length_seq. reflexivity.
  - apply concat_groups. assumption.
  - intros c Hc. apply in_map_iff in Hc. destruct Hc as [q [<- Hq]].
    apply in_seq in Hq. rewrite length_firstn, length_skipn. nia.
Qed.

Lemma pack_bpp1_total c : length c = 8%nat -> pack_bpp1 c = Ok (byte_of pack_bpp1 c).
Proof.
  intros H. do 9 (destruct c as [|? c]; try discriminate H). reflexivity.
Qed.

Lemma pack_bpp2_total c : length c = 4%nat -> pack_bpp2 c = Ok (byte_of pack_bpp2 c).
Proof.
  intros H. do 5 (destruct c as [|? c]; try discriminate H). reflexivity.
Qed.

(** One and two bits per pixel never raise: padding makes every chunk whole. *)
Lemma packed_linear (k : nat) (f : list Z -> result Z) (buf : list Z) :
  (0 < k)%nat ->
  (forall c, length c = k -> f c = Ok (byte_of f c)) ->
  comprehension f (chunks (Z.of_nat k) (pad_to (Z.of_nat k) buf))
  = Ok (map (byte_of f) (groups k (pad_to (Z.of_nat k) buf))).
Proof.
  intros Hk Hf.
  destruct (groups_spec k _ (pad_to (Z.of_nat k) buf) Hk (pad_to_length k buf Hk))
    as (-> & _ & _ & Hc).
  apply comprehension_total. intros c Hin. apply Hf, Hc, Hin.
Qed.

Lemma packed_linear_length (k : nat) (f : list Z -> result Z) (buf : list Z) :
  (0 < k)%nat ->
  len (map (byte_of f) (groups k (pad_to (Z.of_nat k) buf)))
  = (len buf + Z.of_nat k - 1) / Z.of_nat k.
Proof.
  intros Hk.
  destruct (groups_spec k _ (pad_to (Z.of_nat k) buf) Hk (pad_to_length k buf Hk))
    as (_ & Hn & _ & _).
  unfold len. rewrite length_map, Hn. apply Z2Nat.id.
  apply Z.div_pos; [pose proof (len_nonneg buf)|]; lia.
Qed.

(** ** Four bits per pixel: row by row *)

Lemma list_pair_ind {A} (P : list A -> Prop) :
  P [] -> (forall a, P [a]) -> (forall a b l, P l -> P (a :: b :: l)) ->
  forall l, P l.
Proof.
  intros H0 H1 H2 l.
  enough (H : P l /\ forall a, P (a :: l)) by apply H.
  induction l as [|b l [IHl IHc]]; split; auto.
Qed.

Lemma nth_last {A} (l : list A) d : nth (length l - 1) l d = last l d.
Proof.
  induction l as [|a [|b l] IH]; try reflexivity.
  cbn [length last] in *. rewrite <- IH.
  replace (S (S (length l)) - 1)%nat with (S (S (length l) - 1)) by lia.
  reflexivity.
Qed.

Lemma item_last (row : list Z) : row <> [] -> item row (-1) = Ok (last row 0).
Proof.
  intros Hne. unfold item. cbn [Z.ltb Z.compare].
  assert (Hlen : 0 < len row).
  { destruct row; [congruence|]. unfold len. cbn [length]. lia. }
  destruct (0 <=? -1 + len row) eqn:E1; [|apply Z.leb_gt in E1; lia].
  destruct (-1 + len row <? len row) eqn:E2; [|apply Z.ltb_ge in E2; lia].
  cbn [andb]. f_equal. rewrite <- nth_last. f_equal.
  unfold len. lia.
Qed.

Lemma odd_width (w : Z) :
  0 <= w -> negb (Z.land w 1 =? 0) = Nat.odd (Z.to_nat w).
Proof.
  intros Hw. change 1 with (Z.ones 1) at 1.
  rewrite Z.land_ones by lia. change (2 ^ 1) with 2.
  pose proof (Z.div_mod w 2 ltac:(lia)) as Hdm.
  pose proof (Z.mod_pos_bound w 2 ltac:(lia)) as Hb.
  assert (Hq : 0 <= w / 2) by (apply Z.div_pos; lia).
  replace (Z.to_nat w) with (Z.to_nat (w mod 2) + 2 * Z.to_nat (w / 2))%nat by lia.
  rewrite Nat.odd_add_mul_2.
  assert (Hc : w mod 2 = 0 \/ w mod 2 = 1) by lia.
  destruct Hc as [-> | ->]; reflexivity.
Qed.

Lemma row_bytes_cons2 a b (l : list Z) :
  row_bytes (a :: b :: l)
  = Z.lor (Z.land b 0xF0) (Z.shiftr a 4) :: row_bytes l.
Proof.
  unfold row_bytes. cbn [length Nat.odd Nat.even negb].
  assert (E : every_other (tl (a :: b :: l)) = b :: every_other (tl l)).
  { destruct l as [|c l]; reflexivity. }
  rewrite E. cbn [every_other combine map app]. do 2 f_equal.
  destruct l as [|c l]; [reflexivity|].
  change (Nat.odd (S (S (length (c :: l))))) with (Nat.odd (length (c :: l))).
  reflexivity.
Qed.

Lemma row_bytes_length (row : list Z) :
  length (row_bytes row) = Nat.div2 (S (length row)).
Proof.
  induction row as [| a | a b l IH] using list_pair_ind; try reflexivity.
  rewrite row_bytes_cons2. cbn [length]. rewrite IH. reflexivity.
Qed.

Lemma pixel_row_length (buf : list Z) (w h y : Z) :
  0 <= w -> 0 <= y < h -> len buf = w * h ->
  length (pixel_row buf w y) = Z.to_nat w.
Proof.
  intros Hw Hy Hlen. unfold pixel_row.
  rewrite slice_inside_length by nia. f_equal. lia.
Qed.

Lemma pack_bpp4_row_ok (buf : list Z) (w y : Z) (res : list Z) :
  0 <= w -> length (pixel_row buf w y) = Z.to_nat w ->
  pack_bpp4_row buf w y res = Ok (res ++ row_bytes (pixel_row buf w y)).
Proof.
  intros Hw Hrow. unfold pack_bpp4_row, row_bytes.
  fold (pixel_row buf w y). rewrite odd_width, Hrow by assumption.
  destruct (Nat.odd (Z.to_nat w)) eqn:Hodd.
  - rewrite item_last.
    + cbn [rbind]. rewrite app_assoc. reflexivity.
    + intros E. rewrite E in Hrow. cbn [length] in Hrow.
      rewrite <- Hrow in Hodd. discriminate Hodd.
  - rewrite app_nil_r. reflexivity.
Qed.

Lemma in_range_by_1 (start stop y : Z) :
  In y (range start stop 1) <-> start <= y < stop.
Proof.
  rewrite range_by_1, in_map_iff. split.
  - intros [q [<- Hq]]. apply in_seq in Hq. lia.
  - intros H. exists (Z.to_nat (y - start)). split; [lia|].
    apply in_seq. lia.
Qed.

(** Four bits per pixel on a well-formed buffer: the rows, packed one after
    the other. *)
Lemma packed_bpp4 (buf : list Z) (w h : Z) :
  0 <= w -> len buf = w * h ->
  for_each (range 0 h 1) (pack_bpp4_row buf w) []
  = Ok (flat_map (fun y => row_bytes (pixel_row buf w y)) (range 0 h 1)).
Proof.
  intros Hw Hlen.
  rewrite (for_each_append _ (fun y => row_bytes (pixel_row buf w y))).
  - reflexivity.
  - intros y s Hy. apply in_range_by_1 in Hy.
    apply pack_bpp4_row_ok; [assumption|].
    apply pixel_row_length with (h := h); assumption.
Qed.

Lemma flat_map_uniform_length {X Y} (g : X -> list Y) (xs : list X) (n : nat) :
  (forall x, In x xs -> length (g x) = n) ->
  length (flat_map g xs) = (length xs * n)%nat.
Proof.
  induction xs as [|x xs IH]; intros H; [reflexivity|].
  cbn [flat_map length]. rewrite length_app, (H x) by (left; reflexivity).
  rewrite IH by (intros; apply H; right; assumption). reflexivity.
Qed.

Lemma flat_map_uniform_nth {X Y} (g : X -> list Y) (xs : list X) (n : nat)
    (k j : nat) (dx : X) (d : Y) :
  (forall x, In x xs -> length (g x) = n) ->
  (k < length xs)%nat -> (j < n)%nat ->
  nth (k * n + j) (flat_map g xs) d = nth j (g (nth k xs dx)) d.
Proof.
  revert k. induction xs as [|x xs IH]; intros k H Hk Hj; [cbn in Hk; lia|].
  cbn [flat_map]. destruct k as [|k].
  - cbn [Nat.mul Nat.add nth]. rewrite app_nth1; [reflexivity|].
    rewrite (H x); cbn; auto.
  - rewrite app_nth2 by (rewrite (H x) by (cbn; auto); cbn; lia).
    rewrite (H x) by (cbn; auto).
    replace (S k * n + j - n)%nat with (k * n + j)%nat by (cbn; lia).
    cbn [nth]. apply IH; [intros; apply H; right; assumption | cbn in Hk; lia | exact Hj].
Qed.

Lemma ceil_half (w : Z) :
  0 <= w -> Z.of_nat (Nat.div2 (S (Z.to_nat w))) = (w + 1) / 2.
Proof.
  intros Hw. rewrite Nat.div2_div, Nat2Z.inj_div. f_equal. lia.
Qed.

Lemma ceil_div_spec (a b : Z) :
  0 < b -> b * (ceil_div a b - 1) < a <= b * ceil_div a b.
Proof.
  intros Hb. unfold ceil_div.
  pose proof (Z.div_mod (a + b - 1) b ltac:(lia)) as Hdm.
  pose proof (Z.mod_pos_bound (a + b - 1) b Hb) as Hm.
  nia.
Qed.

Lemma row_bytes_nth_pair (row : list Z) (j : nat) :
  (2 * j + 1 < length row)%nat ->
  nth j (row_bytes row) 0
  = Z.lor (Z.land (nth (2 * j + 1) row 0) 0xF0) (Z.shiftr (nth (2 * j) row 0) 4).
Proof.
  revert j. induction row as [| a | a b l IH] using list_pair_ind; intros j Hj.
  - cbn in Hj. lia.
  - cbn in Hj. lia.
  - rewrite row_bytes_cons2. destruct j as [|j]; [reflexivity|].
    replace (2 * S j + 1)%nat with (S (S (2 * j + 1))) by lia.
    replace (2 * S j)%nat with (S (S (2 * j))) by lia.
    cbn [nth]. apply IH. cbn [length] in Hj. lia.
Qed.

Lemma row_bytes_nth_last (row : list Z) :
  Nat.odd (length row) = true ->
  nth (Nat.div2 (length row)) (row_bytes row) 0 = Z.shiftr (last row 0) 4.
Proof.
  induction row as [| a | a b l IH] using list_pair_ind; intros Hodd.
  - discriminate Hodd.
  - reflexivity.
  - rewrite row_bytes_cons2.
    change (Nat.odd (length (a :: b :: l))) with (Nat.odd (length l)) in Hodd.
    change (Nat.div2 (length (a :: b :: l))) with (S (Nat.div2 (length l))).
    cbn [nth]. rewrite IH by exact Hodd.
    destruct l as [|c l]; [discriminate Hodd | reflexivity].
Qed.

Lemma pixel_row_nth (buf : list Z) (w h y : Z) (i : nat) :
  0 <= w -> 0 <= y < h -> len buf = w * h -> (i < Z.to_nat w)%nat ->
  nth i (pixel_row buf w y) 0 = pixel buf w y (Z.of_nat i).
Proof.
  intros Hw Hy Hlen Hi. unfold pixel_row, pixel.
  rewrite slice_inside_nth by nia. f_equal. nia.
Qed.

Lemma range_by_1_nth (n : Z) (k : nat) :
  (k < Z.to_nat n)%nat -> nth k (range 0 n 1) 0 = Z.of_nat k.
Proof.
  intros Hk. rewrite range_by_1.
  set (f := fun q : nat => 0 + Z.of_nat q).
  change (nth k (map f (seq 0 (Z.to_nat (n - 0)))) (f 0%nat) = Z.of_nat k).
  rewrite map_nth, seq_nth by lia. reflexivity.
Qed.

Lemma range_by_1_length (start stop : Z) :
  length (range start stop 1) = Z.to_nat (stop - start).
Proof. rewrite range_by_1, length_map, length_seq. reflexivity. Qed.

(** Where the bytes of row [y] sit in the output of the 4-bit packer. *)
Lemma packed_bpp4_nth (buf : list Z) (w h y : Z) (j : nat) :
  0 <= w -> 0 <= y < h -> len buf = w * h ->
  (j < Nat.div2 (S (Z.to_nat w)))%nat ->
  nth (Z.to_nat (y * ((w + 1) / 2)) + j)
      (flat_map (fun y => row_bytes (pixel_row buf w y)) (range 0 h 1)) 0
  = nth j (row_bytes (pixel_row buf w y)) 0.
Proof.
  intros Hw Hy Hlen Hj.
  replace (Z.to_nat (y * ((w + 1) / 2)))
    with (Z.to_nat y * Nat.div2 (S (Z.to_nat w)))%nat.
  - rewrite (flat_map_uniform_nth _ _ (Nat.div2 (S (Z.to_nat w))) _ _ 0).
    + rewrite range_by_1_nth by lia. rewrite Z2Nat.id by lia. reflexivity.
    + intros x Hx. apply in_range_by_1 in Hx.
      rewrite row_bytes_length, (pixel_row_length buf w h) by assumption.
      reflexivity.
    + rewrite range_by_1_length. lia.
    + exact Hj.
  - apply Nat2Z.inj. rewrite Nat2Z.inj_mul, ceil_half by assumption.
    assert (0 <= (w + 1) / 2) by (apply Z.div_pos; lia).
    rewrite !Z2Nat.id by nia. reflexivity.
Qed.

(** * Bit-level facts, by enumeration of the byte values *)

Lemma byte_forall (P : Z -> bool) :
  forallb P (map Z.of_nat (seq 0 256)) = true ->
  forall x, is_byte x -> P x = true.
Proof.
  intros H x [Hlo Hhi]. rewrite forallb_forall in H. apply H.
  apply in_map_iff. exists (Z.to_nat x). split; [lia|].
  apply in_seq. lia.
Qed.

Lemma top1_byte (x : Z) :
  is_byte x ->
  exists t, (t = 0 \/ t = 1) /\ Z.land x 0x80 = 128 * t /\ sample 1 x = t.
Proof.
  intros Hx. exists (sample 1 x).
  pose proof (byte_forall
    (fun x => ((sample 1 x =? 0) || (sample 1 x =? 1))
              && (Z.land x 0x80 =? 128 * sample 1 x))
    ltac:(vm_compute; reflexivity) x Hx) as H.
  cbv beta in H. apply andb_prop in H. destruct H as [H1 H2].
  apply orb_prop in H1. rewrite !Z.eqb_eq in *. auto.
Qed.

Lemma top2_byte (x : Z) :
  is_byte x ->
  exists t, (t = 0 \/ t = 1 \/ t = 2 \/ t = 3)
            /\ Z.land x 0xC0 = 64 * t /\ sample 2 x = t.
Proof.
  intros Hx. exists (sample 2 x).
  pose proof (byte_forall
    (fun x => ((0 <=? sample 2 x) && (sample 2 x <? 4))
              && (Z.land x 0xC0 =? 64 * sample 2 x))
    ltac:(vm_compute; reflexivity) x Hx) as H.
  cbv beta in H. apply andb_prop in H. destruct H as [H1 H2].
  apply andb_prop in H1. destruct H1 as [Ha Hb].
  apply Z.leb_le in Ha. apply Z.ltb_lt in Hb. apply Z.eqb_eq in H2.
  repeat split; [lia | assumption].
Qed.

Lemma top4_byte (x : Z) :
  is_byte x ->
  exists t, 0 <= t < 16 /\ Z.land x 0xF0 = 16 * t /\ sample 4 x = t.
Proof.
  intros Hx. exists (sample 4 x).
  pose proof (byte_forall
    (fun x => ((0 <=? sample 4 x) && (sample 4 x <? 16))
              && (Z.land x 0xF0 =? 16 * sample 4 x))
    ltac:(vm_compute; reflexivity) x Hx) as H.
  cbv beta in H. apply andb_prop in H. destruct H as [H1 H2].
  apply andb_prop in H1. destruct H1 as [Ha Hb].
  apply Z.leb_le in Ha. apply Z.ltb_lt in Hb. apply Z.eqb_eq in H2.
  repeat split; [lia | lia | assumption].
Qed.

(** Splits every disjunction of the context and substitutes the equations. *)
Ltac split_cases :=
  repeat match goal with
         | H : _ \/ _ |- _ => destruct H as [H | H]
         end;
  subst.

Lemma nibble_cases (t : Z) :
  0 <= t < 16 ->
  t = 0 \/ t = 1 \/ t = 2 \/ t = 3 \/ t = 4 \/ t = 5 \/ t = 6 \/ t = 7 \/
  t = 8 \/ t = 9 \/ t = 10 \/ t = 11 \/ t = 12 \/ t = 13 \/ t = 14 \/ t = 15.
Proof. lia. Qed.

(** A byte of the 1-bit packer reads back as the top bits of its 8 pixels. *)
Lemma pack_bpp1_byte (c : list Z) :
  length c = 8%nat -> Forall is_byte c ->
  reference_unpack_byte 1 (byte_of pack_bpp1 c) = map (sample 1) c
  /\ is_byte (byte_of pack_bpp1 c).
Proof.
  intros Hlen Hc.
  do 9 (destruct c as [|? c]; try discriminate Hlen).
  repeat match goal with
         | H : Forall _ (_ :: _) |- _ => inversion H; subst; clear H
         end.
  repeat match goal with
         | H : is_byte ?x |- _ =>
             destruct (top1_byte x H) as (? & ? & ? & ?); clear H
         end.
  unfold byte_of, pack_bpp1, reference_unpack_byte, is_byte.
  change (1 =? 1) with true. cbv iota. cbn [map].
  repeat match goal with
         | H : Z.land _ _ = _ |- _ => rewrite H; clear H
         | H : sample _ _ = _ |- _ => rewrite H; clear H
         end.
  split_cases; split; (reflexivity || (vm_compute; split; congruence)).
Qed.

(** A byte of the 2-bit packer reads back as the top 2 bits of its 4 pixels. *)
Lemma pack_bpp2_byte (c : list Z) :
  length c = 4%nat -> Forall is_byte c ->
  reference_unpack_byte 2 (byte_of pack_bpp2 c) = map (sample 2) c
  /\ is_byte (byte_of pack_bpp2 c).
Proof.
  intros Hlen Hc.
  do 5 (destruct c as [|? c]; try discriminate Hlen).
  repeat match goal with
         | H : Forall _ (_ :: _) |- _ => inversion H; subst; clear H
         end.
  repeat match goal with
         | H : is_byte ?x |- _ =>
             destruct (top2_byte x H) as (? & ? & ? & ?); clear H
         end.
  unfold byte_of, pack_bpp2, reference_unpack_byte, is_byte.
  change (2 =? 1) with false. change (2 =? 2) with true. cbv iota. cbn [map].
  repeat match goal with
         | H : Z.land _ _ = _ |- _ => rewrite H; clear H
         | H : sample _ _ = _ |- _ => rewrite H; clear H
         end.
  split_cases; split; (reflexivity || (vm_compute; split; congruence)).
Qed.

(** A byte of a pixel pair: first pixel in the low nibble, second in the
    high nibble. *)
Lemma pack_bpp4_pair (a b : Z) :
  is_byte a -> is_byte b ->
  let B := Z.lor (Z.land b 0xF0) (Z.shiftr a 4) in
  Z.land B 0xF = sample 4 a /\ Z.shiftr B 4 = sample 4 b /\ is_byte B.
Proof.
  intros Ha Hb.
  destruct (top4_byte a Ha) as (ta & Hta & _ & Ea).
  destruct (top4_byte b Hb) as (tb & Htb & Eb' & Eb).
  cbv zeta. rewrite Eb'. change (Z.shiftr a 4) with (sample 4 a).
  rewrite Ea, Eb. clear Ea Eb Eb' Ha Hb a b.
  apply nibble_cases in Hta, Htb. unfold is_byte.
  split_cases; repeat split; (reflexivity || (vm_compute; congruence)).
Qed.

(** The byte of an unpaired last pixel: its top nibble in the low nibble,
    the high nibble zero. *)
Lemma pack_bpp4_single (a : Z) :
  is_byte a ->
  let B := Z.shiftr a 4 in
  Z.land B 0xF = sample 4 a /\ Z.shiftr B 4 = 0 /\ is_byte B.
Proof.
  intros Ha.
  destruct (top4_byte a Ha) as (ta & Hta & _ & Ea).
  cbv zeta. change (Z.shiftr a 4) with (sample 4 a). rewrite Ea.
  apply nibble_cases in Hta. unfold is_byte.
  split_cases; repeat split; (reflexivity || (vm_compute; congruence)).
Qed.

(** * Reading back what the packer wrote *)

Lemma Forall_pad_to (k : Z) (buf : list Z) :
  Forall is_byte buf -> Forall is_byte (pad_to k buf).
Proof.
  intros H. unfold pad_to. destruct (negb _); [|assumption].
  apply Forall_app. split; [assumption|].
  apply Forall_forall. intros x Hx. apply repeat_spec in Hx. subst x.
  unfold is_byte. lia.
Qed.

Lemma map_pad_to (f : Z -> Z) (k : Z) (buf : list Z) :
  0 < k -> f 0 = 0 ->
  map f (pad_to k buf) = map f buf ++ repeat 0 (Z.to_nat ((- len buf) mod k)).
Proof.
  intros Hk Hf. unfold pad_to.
  destruct (len buf mod k =? 0) eqn:E; cbn [negb].
  - apply Z.eqb_eq in E. rewrite Z.mod_opp_l_z by lia.
    cbn [Z.to_nat repeat]. rewrite app_nil_r. reflexivity.
  - apply Z.eqb_neq in E. rewrite Z.mod_opp_l_nz by lia.
    rewrite map_app, map_repeat, Hf. reflexivity.
Qed.

Lemma groups_bytes (k : nat) (l c : list Z) :
  (0 < k)%nat -> (exists m, length l = (k * m)%nat) ->
  Forall is_byte l -> In c (groups k l) -> length c = k /\ Forall is_byte c.
Proof.
  intros Hk [m Hm] Hl Hc.
  destruct (groups_spec k m l Hk Hm) as (_ & _ & Hcat & Hlen).
  split; [apply Hlen, Hc|].
  rewrite Forall_forall in *. intros x Hx. apply Hl.
  rewrite <- Hcat. apply in_concat. exists c. split; assumption.
Qed.

(** The linear packers (whole chunks of [k] pixels per byte) read back as the
    samples of the padded buffer, and write bytes. *)
Lemma linear_round_trip (bpp : Z) (k : nat) (f : list Z -> result Z) (l : list Z) :
  (0 < k)%nat -> (exists m, length l = (k * m)%nat) -> Forall is_byte l ->
  (forall c, length c = k -> Forall is_byte c ->
             reference_unpack_byte bpp (byte_of f c) = map (sample bpp) c
             /\ is_byte (byte_of f c)) ->
  reference_unpack bpp (map (byte_of f) (groups k l)) = map (sample bpp) l
  /\ Forall is_byte (map (byte_of f) (groups k l)).
Proof.
  intros Hk Hm Hl Hf. split.
  - unfold reference_unpack. rewrite flat_map_concat_map, map_map.
    destruct Hm as [m Hm].
    destruct (groups_spec k m l Hk Hm) as (_ & _ & Hcat & _).
    rewrite <- Hcat at 2. rewrite concat_map. f_equal.
    apply map_ext_in. intros c Hc.
    destruct (groups_bytes k l c Hk (ex_intro _ m Hm) Hl Hc) as [Hc1 Hc2].
    apply Hf; assumption.
  - apply Forall_forall. intros B HB. apply in_map_iff in HB.
    destruct HB as [c [<- Hc]].
    destruct (groups_bytes k l c Hk Hm Hl Hc) as [Hc1 Hc2].
    apply Hf; assumption.
Qed.

Lemma odd_to_nat_mod2 (w : Z) :
  0 <= w -> Z.to_nat (w mod 2) = (if Nat.odd (Z.to_nat w) then 1 else 0)%nat.
Proof.
  intros Hw. rewrite <- (odd_width w Hw).
  change 1 with (Z.ones 1) at 1. rewrite Z.land_ones by lia.
  change (2 ^ 1) with 2.
  pose proof (Z.mod_pos_bound w 2 ltac:(lia)) as Hb.
  assert (Hc : w mod 2 = 0 \/ w mod 2 = 1) by lia.
  destruct Hc as [-> | ->]; reflexivity.
Qed.

(** A packed row reads back as the top nibbles of its pixels, closed by one
    zero sample when the row has an odd number of pixels. *)
Lemma row_round_trip (row : list Z) :
  Forall is_byte row ->
  reference_unpack 4 (row_bytes row)
  = map (sample 4) row ++ repeat 0 (if Nat.odd (length row) then 1 else 0)%nat
  /\ Forall is_byte (row_bytes row).
Proof.
  induction row as [| a | a b l IH] using list_pair_ind; intros Hrow.
  - split; [reflexivity | constructor].
  - inversion Hrow as [|? ? Ha _]; subst.
    destruct (pack_bpp4_single a Ha) as (E1 & E2 & E3).
    unfold row_bytes, reference_unpack. cbn [every_other tl combine map app
      length Nat.odd Nat.even negb last flat_map repeat].
    unfold reference_unpack_byte.
    change (4 =? 1) with false. change (4 =? 2) with false.
    change (4 =? 4) with true. cbv iota.
    cbv zeta in E1, E2. rewrite E1, E2. split; [reflexivity|].
    repeat constructor; apply E3.
  - inversion Hrow as [|? ? Ha Hrow']; subst.
    inversion Hrow' as [|? ? Hb Hl]; subst.
    destruct (IH Hl) as [IH1 IH2].
    destruct (pack_bpp4_pair a b Ha Hb) as (E1 & E2 & E3).
    rewrite row_bytes_cons2. split.
    + unfold reference_unpack in *. cbn [flat_map]. rewrite IH1.
      unfold reference_unpack_byte at 1.
      change (4 =? 1) with false. change (4 =? 2) with false.
      change (4 =? 4) with true. cbv iota.
      cbv zeta in E1, E2. rewrite E1, E2. reflexivity.
    + constructor; [apply E3 | apply IH2].
Qed.

Lemma in_slice {A} (l : list A) (i j : Z) (x : A) : In x (slice l i j) -> In x l.
Proof.
  unfold slice. intros H.
  set (lo := Z.to_nat (slice_bound (len l) i)) in *.
  set (n := Z.to_nat (slice_bound (len l) j - slice_bound (len l) i)) in *.
  rewrite <- (firstn_skipn lo l). apply in_or_app. right.
  rewrite <- (firstn_skipn n (skipn lo l)). apply in_or_app. left. exact H.
Qed.

Lemma Forall_pixel_row (buf : list Z) (w y : Z) :
  Forall is_byte buf -> Forall is_byte (pixel_row buf w y).
Proof.
  intros H. unfold pixel_row.
  apply Forall_forall. intros x Hx. rewrite Forall_forall in H.
  apply H. eapply in_slice. exact Hx.
Qed.

Lemma flat_map_ext_in {X Y} (f g : X -> list Y) (xs : list X) :
  (forall x, In x xs -> f x = g x) -> flat_map f xs = flat_map g xs.
Proof.
  induction xs as [|x xs IH]; intros H; [reflexivity|].
  cbn [flat_map]. rewrite (H x) by (left; reflexivity).
  rewrite IH by (intros; apply H; right; assumption). reflexivity.
Qed.

Lemma flat_map_flat_map {X Y W} (f : Y -> list W) (g : X -> list Y) (xs : list X) :
  flat_map f (flat_map g xs) = flat_map (fun x => flat_map f (g x)) xs.
Proof.
  induction xs as [|x xs IH]; [reflexivity|].
  cbn [flat_map]. rewrite flat_map_app, IH. reflexivity.
Qed.

Lemma bpp4_round_trip (buf : list Z) (w h : Z) :
  0 <= w -> len buf = w * h -> Forall is_byte buf ->
  let packed := flat_map (fun y => row_bytes (pixel_row buf w y)) (range 0 h 1) in
  reference_unpack 4 packed = padded_samples 4 w h buf
  /\ Forall is_byte packed.
Proof.
  intros Hw Hlen Hbuf packed. subst packed.
  unfold padded_samples. change (4 =? 4) with true. cbv iota. split.
  - unfold reference_unpack. rewrite flat_map_flat_map.
    apply flat_map_ext_in. intros y Hy. apply in_range_by_1 in Hy.
    destruct (row_round_trip (pixel_row buf w y) (Forall_pixel_row buf w y Hbuf))
      as [E _].
    unfold reference_unpack in E. rewrite E.
    rewrite (pixel_row_length buf w h) by assumption.
    rewrite odd_to_nat_mod2 by assumption. reflexivity.
  - apply Forall_forall. intros B HB. apply in_flat_map in HB.
    destruct HB as [y [_ HB]].
    destruct (row_round_trip (pixel_row buf w y) (Forall_pixel_row buf w y Hbuf))
      as [_ E].
    rewrite Forall_forall in E. apply E, HB.
Qed.

(** The rows of a well-formed buffer are its pixels, in order. *)
Lemma pixel_rows_cover (buf : list Z) (w h : Z) :
  0 <= w -> 0 <= h -> len buf = w * h ->
  flat_map (pixel_row buf w) (range 0 h 1) = buf.
Proof.
  intros Hw Hh Hlen.
  assert (Hn : length buf = (Z.to_nat w * Z.to_nat h)%nat).
  { apply Nat2Z.inj. rewrite Nat2Z.inj_mul, !Z2Nat.id by lia. exact Hlen. }
  rewrite <- (concat_groups (Z.to_nat w) (Z.to_nat h) buf Hn) at 2.
  rewrite flat_map_concat_map, range_by_1, map_map. f_equal.
  rewrite Z.sub_0_r. apply map_ext_in. intros q Hq. apply in_seq in Hq.
  unfold pixel_row. rewrite Z.add_0_l.
  assert (Hq' : 0 <= Z.of_nat q < h) by lia.
  assert (H1 : 0 <= Z.of_nat q * w <= (Z.of_nat q + 1) * w) by nia.
  assert (H2 : (Z.of_nat q + 1) * w <= len buf)
    by (rewrite Hlen; clear Hn Hq Hlen; nia).
  rewrite slice_inside by assumption.
  f_equal; [|f_equal].
  - replace ((Z.of_nat q + 1) * w - Z.of_nat q * w) with w by lia. reflexivity.
  - rewrite Z2Nat.inj_mul, Nat2Z.id by lia. apply Nat.mul_comm.
Qed.

(** What the packer returns on a well-formed buffer of bytes, for each of the
    four depths: it never raises, it writes bytes, and they read back as the
    padded samples. *)
Lemma pack_round_trip (buf : list Z) (bpp w h : Z) :
  bpp = 1 \/ bpp = 2 \/ bpp = 4 \/ bpp = 8 ->
  0 <= w -> 0 <= h -> len buf = w * h -> Forall is_byte buf ->
  exists packed,
    process_bitmap_buffer buf bpp w h = Ok packed
    /\ reference_unpack bpp packed = padded_samples bpp w h buf
    /\ Forall is_byte packed.
Proof.
  intros Hbpp Hw Hh Hlen Hbuf.
  destruct Hbpp as [-> | [-> | [-> | ->]]]; unfold process_bitmap_buffer.
  - change (1 =? 1) with true. cbv iota.
    change 8 with (Z.of_nat 8).
    rewrite packed_linear by (lia || apply pack_bpp1_total).
    eexists. split; [reflexivity|].
    destruct (linear_round_trip 1 8 pack_bpp1 (pad_to (Z.of_nat 8) buf))
      as [E1 E2]; try lia.
    + eexists. apply pad_to_length. lia.
    + apply Forall_pad_to, Hbuf.
    + apply pack_bpp1_byte.
    + split; [|exact E2]. rewrite E1. unfold padded_samples.
      change (1 =? 4) with false. cbv iota.
      apply (map_pad_to (sample 1) 8); [reflexivity | reflexivity].
  - change (2 =? 1) with false. change (2 =? 2) with true. cbv iota.
    change 4 with (Z.of_nat 4).
    rewrite packed_linear by (lia || apply pack_bpp2_total).
    eexists. split; [reflexivity|].
    destruct (linear_round_trip 2 4 pack_bpp2 (pad_to (Z.of_nat 4) buf))
      as [E1 E2]; try lia.
    + eexists. apply pad_to_length. lia.
    + apply Forall_pad_to, Hbuf.
    + apply pack_bpp2_byte.
    + split; [|exact E2]. rewrite E1. unfold padded_samples.
      change (2 =? 4) with false. cbv iota.
      apply (map_pad_to (sample 2) 4); [reflexivity | reflexivity].
  - change (4 =? 1) with false. change (4 =? 2) with false.
    change (4 =? 4) with true. cbv iota.
    rewrite packed_bpp4 by assumption.
    eexists. split; [reflexivity|].
    apply bpp4_round_trip; assumption.
  - exists buf. split; [reflexivity|]. split; [|assumption].
    unfold padded_samples, reference_unpack, reference_unpack_byte.
    change (8 =? 4) with false. change (8 =? 1) with false.
    change (8 =? 2) with false. cbv iota.
    change (8 / 8) with 1. rewrite Z.mod_1_r. cbn [Z.to_nat repeat].
    rewrite app_nil_r. clear. induction buf as [|x buf IH]; [reflexivity|].
    cbn [flat_map map app]. rewrite IH. f_equal.
Qed.

(** * The packer: output length and layout *)

Lemma half_to_nat (w : Z) : 0 <= w -> Nat.div2 (Z.to_nat w) = Z.to_nat (w / 2).
Proof.
  intros Hw. apply Nat2Z.inj.
  rewrite Nat.div2_div, Nat2Z.inj_div, !Z2Nat.id; try reflexivity; try lia.
  apply Z.div_pos; lia.
Qed.

Lemma packed_bpp4_length (buf : list Z) (w h : Z) :
  0 <= w -> 0 <= h -> len buf = w * h ->
  len (flat_map (fun y => row_bytes (pixel_row buf w y)) (range 0 h 1))
  = h * ceil_div w 2.
Proof.
  intros Hw Hh Hlen. unfold len.
  rewrite (flat_map_uniform_length _ _ (Nat.div2 (S (Z.to_nat w)))).
  - rewrite range_by_1_length, Nat2Z.inj_mul, ceil_half by assumption.
    unfold ceil_div. rewrite Z2Nat.id by lia.
    do 2 f_equal; lia.
  - intros y Hy. apply in_range_by_1 in Hy.
    rewrite row_bytes_length, (pixel_row_length buf w h) by assumption.
    reflexivity.
Qed.

(** On a well-formed buffer the packer returns, whatever the pixels are. *)
Lemma pack_total (buf : list Z) (bpp w h : Z) :
  bpp = 1 \/ bpp = 2 \/ bpp = 4 \/ bpp = 8 ->
  0 <= w -> len buf = w * h ->
  exists packed, process_bitmap_buffer buf bpp w h = Ok packed.
Proof.
  intros Hbpp Hw Hlen. unfold process_bitmap_buffer.
  destruct Hbpp as [-> | [-> | [-> | ->]]].
  - change (1 =? 1) with true. cbv iota. change 8 with (Z.of_nat 8).
    rewrite packed_linear by (lia || apply pack_bpp1_total).
    eexists. reflexivity.
  - change (2 =? 1) with false. change (2 =? 2) with true. cbv iota.
    change 4 with (Z.of_nat 4).
    rewrite packed_linear by (lia || apply pack_bpp2_total).
    eexists. reflexivity.
  - change (4 =? 1) with false. change (4 =? 2) with false.
    change (4 =? 4) with true. cbv iota.
    rewrite packed_bpp4 by assumption. eexists. reflexivity.
  - eexists. reflexivity.
Qed.

(** C7: on a buffer of [w * h] pixels the packer returns [ceil(w*h/8)] bytes
    at one bit per pixel, [ceil(w*h/4)] at two, [h * ceil(w/2)] at four and the
    buffer itself, of length [w * h], at eight; a 1x1 buffer holding the
    pixel 0xFF packs to the single byte 0x80 at one bit per pixel. *)
Theorem C7_pack_output_length (buf : list Z) (w h : Z) :
  0 <= w -> 0 <= h -> len buf = w * h ->
  (exists out, process_bitmap_buffer buf 1 w h = Ok out
               /\ len out = ceil_div (w * h) 8)
  /\ (exists out, process_bitmap_buffer buf 2 w h = Ok out
                  /\ len out = ceil_div (w * h) 4)
  /\ (exists out, process_bitmap_buffer buf 4 w h = Ok out
                  /\ len out = h * ceil_div w 2)
  /\ (process_bitmap_buffer buf 8 w h = Ok buf /\ len buf = w * h)
  /\ process_bitmap_buffer [0xFF] 1 1 1 = Ok [0x80].
Proof.
  intros Hw Hh Hlen. unfold process_bitmap_buffer at 1 2 3 4.
  repeat split.
  - change (1 =? 1) with true. cbv iota. change 8 with (Z.of_nat 8) at 1 2.
    rewrite packed_linear by (lia || apply pack_bpp1_total).
    eexists. split; [reflexivity|].
    rewrite packed_linear_length by lia. rewrite Hlen. reflexivity.
  - change (2 =? 1) with false. change (2 =? 2) with true. cbv iota.
    change 4 with (Z.of_nat 4) at 1 2.
    rewrite packed_linear by (lia || apply pack_bpp2_total).
    eexists. split; [reflexivity|].
    rewrite packed_linear_length by lia. rewrite Hlen. reflexivity.
  - change (4 =? 1) with false. change (4 =? 2) with false.
    change (4 =? 4) with true. cbv iota.
    rewrite packed_bpp4 by assumption.
    eexists. split; [reflexivity|].
    apply packed_bpp4_length; assumption.
  - exact Hlen.
Qed.

Lemma C7_pack_output_length_witness :
  (exists out, process_bitmap_buffer [0xF0; 0x00; 0xA0] 1 3 1 = Ok out
               /\ len out = ceil_div (3 * 1) 8)
  /\ (exists out, process_bitmap_buffer [0xF0; 0x00; 0xA0] 2 3 1 = Ok out
                  /\ len out = ceil_div (3 * 1) 4)
  /\ (exists out, process_bitmap_buffer [0xF0; 0x00; 0xA0] 4 3 1 = Ok out
                  /\ len out = 1 * ceil_div 3 2)
  /\ (process_bitmap_buffer [0xF0; 0x00; 0xA0] 8 3 1 = Ok [0xF0; 0x00; 0xA0]
      /\ len [0xF0; 0x00; 0xA0] = 3 * 1)
  /\ process_bitmap_buffer [0xFF] 1 1 1 = Ok [0x80].
Proof.
  apply (C7_pack_output_length [0xF0; 0x00; 0xA0] 3 1); [lia | lia | reflexivity].
Defined.

(** C3: at four bits per pixel the packer works row by row: the byte at
    position [j] of row [y] (rows are [ceil(w/2)] bytes apart) is made of the
    pixels [2j] and [2j+1] of that row, the second pixel's top 4 bits in the
    high nibble and the first pixel's top 4 bits in the low nibble; the
    buffer [0xF0, 0x00, 0xA0] of width 3 and height 1 packs to the two bytes
    [0x0F, 0x0A]. *)
Theorem C3_bpp4_pairs_per_row (buf : list Z) (w h : Z) :
  0 <= w -> 0 <= h -> len buf = w * h ->
  (exists out,
     process_bitmap_buffer buf 4 w h = Ok out
     /\ forall y j, 0 <= y < h -> 0 <= j -> 2 * j + 1 < w ->
          let first := pixel buf w y (2 * j) in
          let second := pixel buf w y (2 * j + 1) in
          let B := nth (Z.to_nat (y * ceil_div w 2 + j)) out 0 in
          B = Z.lor (Z.land second 0xF0) (Z.shiftr first 4)
          /\ (is_byte first -> is_byte second ->
              Z.shiftr B 4 = sample 4 second /\ Z.land B 0xF = sample 4 first))
  /\ process_bitmap_buffer [0xF0; 0x00; 0xA0] 4 3 1 = Ok [0x0F; 0x0A]
  /\ len [0x0F; 0x0A] = 2.
Proof.
  intros Hw Hh Hlen. split; [|split; reflexivity].
  unfold process_bitmap_buffer.
  change (4 =? 1) with false. change (4 =? 2) with false.
  change (4 =? 4) with true. cbv iota.
  rewrite packed_bpp4 by assumption.
  eexists. split; [reflexivity|].
  intros y j Hy Hj Hjw.
  set (first := pixel buf w y (2 * j)).
  set (second := pixel buf w y (2 * j + 1)).
  set (B := nth _ _ 0).
  assert (Hc : 0 <= ceil_div w 2) by (apply Z.div_pos; lia).
  assert (HB : B = Z.lor (Z.land second 0xF0) (Z.shiftr first 4)).
  { subst B. rewrite Z2Nat.inj_add by nia.
    unfold ceil_div. replace (w + 2 - 1) with (w + 1) by lia.
    rewrite packed_bpp4_nth; try assumption.
    - rewrite row_bytes_nth_pair
        by (rewrite (pixel_row_length buf w h) by assumption; lia).
      rewrite !(pixel_row_nth buf w h) by (assumption || lia).
      subst first second. do 3 f_equal; f_equal; lia.
    - apply Nat2Z.inj_lt. rewrite ceil_half, Z2Nat.id by lia.
      assert (j + 1 <= (w + 1) / 2) by (apply Z.div_le_lower_bound; lia).
      lia. }
  split; [exact HB|].
  intros Hf Hs. rewrite HB.
  destruct (pack_bpp4_pair first second Hf Hs) as (E1 & E2 & _).
  split; assumption.
Qed.

Lemma C3_bpp4_pairs_per_row_witness :
  (exists out,
     process_bitmap_buffer [0x10; 0x20; 0x30; 0x40; 0x50; 0x60] 4 3 2 = Ok out
     /\ forall y j, 0 <= y < 2 -> 0 <= j -> 2 * j + 1 < 3 ->
          let first := pixel [0x10; 0x20; 0x30; 0x40; 0x50; 0x60] 3 y (2 * j) in
          let second :=
            pixel [0x10; 0x20; 0x30; 0x40; 0x50; 0x60] 3 y (2 * j + 1) in
          let B := nth (Z.to_nat (y * ceil_div 3 2 + j)) out 0 in
          B = Z.lor (Z.land second 0xF0) (Z.shiftr first 4)
          /\ (is_byte first -> is_byte second ->
              Z.shiftr B 4 = sample 4 second /\ Z.land B 0xF = sample 4 first))
  /\ process_bitmap_buffer [0xF0; 0x00; 0xA0] 4 3 1 = Ok [0x0F; 0x0A]
  /\ len [0x0F; 0x0A] = 2.
Proof.
  apply (C3_bpp4_pairs_per_row [0x10; 0x20; 0x30; 0x40; 0x50; 0x60] 3 2);
    [lia | lia | reflexivity].
Defined.

(** C2 as stated fails: the byte of an unpaired pixel need not have a zero
    low nibble.  On the 3x1 buffer [0xF0, 0x00, 0xA0] the byte written for
    0xA0 is 0x0A, whose low nibble is 0xA. *)
Lemma C2_counterexample :
  ~ (forall buf w h y out,
       0 <= w -> w mod 2 = 1 -> 0 <= y < h -> len buf = w * h ->
       Forall is_byte buf ->
       process_bitmap_buffer buf 4 w h = Ok out ->
       Z.land (nth (Z.to_nat (y * ceil_div w 2 + w / 2)) out 0) 0xF = 0).
Proof.
  intros H.
  specialize (H [0xF0; 0x00; 0xA0] 3 1 0 [0x0F; 0x0A]).
  assert (Hb : Forall is_byte [0xF0; 0x00; 0xA0])
    by (repeat constructor; unfold is_byte; lia).
  specialize (H ltac:(lia) eq_refl ltac:(lia) eq_refl Hb eq_refl).
  vm_compute in H. discriminate H.
Qed.

(** C2, amended: at four bits per pixel and odd width, the last pixel of
    every row is written alone in one byte, the last of the row's
    [ceil(w/2)] bytes, as [pixel >> 4]: its top nibble fills the low nibble
    of the byte and the high nibble of the byte is zero. *)
Theorem C2_bpp4_unpaired_pixel (buf : list Z) (w h : Z) :
  0 <= w -> w mod 2 = 1 -> 0 <= h -> len buf = w * h ->
  exists out,
    process_bitmap_buffer buf 4 w h = Ok out
    /\ forall y, 0 <= y < h ->
         let last_pixel := pixel buf w y (w - 1) in
         let B := nth (Z.to_nat (y * ceil_div w 2 + w / 2)) out 0 in
         B = Z.shiftr last_pixel 4
         /\ (is_byte last_pixel ->
             Z.land B 0xF = sample 4 last_pixel /\ Z.shiftr B 4 = 0).
Proof.
  intros Hw Hodd Hh Hlen.
  unfold process_bitmap_buffer.
  change (4 =? 1) with false. change (4 =? 2) with false.
  change (4 =? 4) with true. cbv iota.
  rewrite packed_bpp4 by assumption.
  eexists. split; [reflexivity|].
  intros y Hy.
  set (last_pixel := pixel buf w y (w - 1)).
  set (B := nth _ _ 0).
  assert (Hc : 0 <= ceil_div w 2) by (apply Z.div_pos; lia).
  assert (Hw2 : 0 <= w / 2) by (apply Z.div_pos; lia).
  assert (Hrow : length (pixel_row buf w y) = Z.to_nat w)
    by (apply pixel_row_length with (h := h); assumption).
  assert (Hoddn : Nat.odd (Z.to_nat w) = true).
  { pose proof (odd_to_nat_mod2 w Hw) as E. rewrite Hodd in E.
    destruct (Nat.odd (Z.to_nat w)); [reflexivity | discriminate E]. }
  assert (Hpos : 1 <= w).
  { destruct (Z.eq_dec w 0) as [-> | ]; [discriminate Hodd | lia]. }
  assert (HB : B = Z.shiftr last_pixel 4).
  { subst B. rewrite Z2Nat.inj_add by nia.
    unfold ceil_div. replace (w + 2 - 1) with (w + 1) by lia.
    rewrite <- half_to_nat by assumption.
    rewrite packed_bpp4_nth; try assumption.
    - rewrite <- Hrow. rewrite row_bytes_nth_last by (rewrite Hrow; exact Hoddn).
      rewrite <- nth_last, Hrow.
      rewrite (pixel_row_nth buf w h) by (assumption || lia).
      subst last_pixel. do 2 f_equal. lia.
    - apply Nat2Z.inj_lt. rewrite ceil_half, half_to_nat, Z2Nat.id by lia.
      assert (w / 2 + 1 <= (w + 1) / 2)
        by (apply Z.div_le_lower_bound; [lia|];
            pose proof (Z.div_mod w 2 ltac:(lia)); lia).
      lia. }
  split; [exact HB|].
  intros Hl. rewrite HB.
  destruct (pack_bpp4_single last_pixel Hl) as (E1 & E2 & _).
  split; assumption.
Qed.

Lemma C2_bpp4_unpaired_pixel_witness :
  exists out,
    process_bitmap_buffer [0xF0; 0x00; 0xA0] 4 3 1 = Ok out
    /\ forall y, 0 <= y < 1 ->
         let last_pixel := pixel [0xF0; 0x00; 0xA0] 3 y (3 - 1) in
         let B := nth (Z.to_nat (y * ceil_div 3 2 + 3 / 2)) out 0 in
         B = Z.shiftr last_pixel 4
         /\ (is_byte last_pixel ->
             Z.land B 0xF = sample 4 last_pixel /\ Z.shiftr B 4 = 0).
Proof.
  apply (C2_bpp4_unpaired_pixel [0xF0; 0x00; 0xA0] 3 1);
    [lia | reflexivity | lia | reflexivity].
Defined.

(** C6: for a buffer of [w * h] bytes and each depth 1, 2, 4 and 8, the
    packer returns, and reading its output back with the reference unpacker
    gives the top [bpp] bits of every pixel in order, with every padding
    sample equal to 0; the rows that the 4-bit layout pads one by one are
    together the whole buffer. *)
Theorem C6_pack_round_trip (buf : list Z) (bpp w h : Z) :
  bpp = 1 \/ bpp = 2 \/ bpp = 4 \/ bpp = 8 ->
  0 <= w -> 0 <= h -> len buf = w * h -> Forall is_byte buf ->
  (exists packed,
     process_bitmap_buffer buf bpp w h = Ok packed
     /\ reference_unpack bpp packed = padded_samples bpp w h buf)
  /\ flat_map (pixel_row buf w) (range 0 h 1) = buf.
Proof.
  intros Hbpp Hw Hh Hlen Hbuf. split.
  - destruct (pack_round_trip buf bpp w h Hbpp Hw Hh Hlen Hbuf)
      as (packed & E1 & E2 & _).
    exists packed. split; assumption.
  - apply pixel_rows_cover; assumption.
Qed.

Lemma C6_pack_round_trip_witness :
  (exists packed,
     process_bitmap_buffer [0xF0; 0x00; 0xA0; 0x7F; 0x80; 0x33] 4 3 2 = Ok packed
     /\ reference_unpack 4 packed
        = padded_samples 4 3 2 [0xF0; 0x00; 0xA0; 0x7F; 0x80; 0x33])
  /\ flat_map (pixel_row [0xF0; 0x00; 0xA0; 0x7F; 0x80; 0x33] 3) (range 0 2 1)
     = [0xF0; 0x00; 0xA0; 0x7F; 0x80; 0x33].
Proof.
  apply (C6_pack_round_trip [0xF0; 0x00; 0xA0; 0x7F; 0x80; 0x33] 4 3 2).
  - right. right. left. reflexivity.
  - lia.
  - lia.
  - reflexivity.
  - repeat constructor; unfold is_byte; lia.
Defined.

(** * Serialization *)

Lemma is_byte_test (x : Z) : (0 <=? x) && (x <? 256) = true <-> is_byte x.
Proof.
  unfold is_byte. rewrite andb_true_iff, Z.leb_le, Z.ltb_lt. reflexivity.
Qed.

Lemma bytes_ok (l : list Z) : Forall is_byte l -> bytes l = Ok l.
Proof.
  intros H. unfold bytes.
  replace (forallb _ l) with true; [reflexivity|].
  symmetry. apply forallb_forall. intros x Hx. apply is_byte_test.
  rewrite Forall_forall in H. apply H, Hx.
Qed.

Lemma bytes_inv (l out : list Z) : bytes l = Ok out -> out = l /\ Forall is_byte l.
Proof.
  unfold bytes. destruct (forallb _ l) eqn:E; [|discriminate].
  intros [= <-]. split; [reflexivity|].
  apply Forall_forall. intros x Hx. apply is_byte_test.
  rewrite forallb_forall in E. apply E, Hx.
Qed.

Lemma bytes_raise (l : list Z) :
  ~ Forall is_byte l -> bytes l = Raise (ValueError BytesRange).
Proof.
  intros H. unfold bytes. destruct (forallb _ l) eqn:E; [|reflexivity].
  exfalso. apply H. apply Forall_forall. intros x Hx. apply is_byte_test.
  rewrite forallb_forall in E. apply E, Hx.
Qed.

Lemma xor_byte (b : Z) : is_byte b -> is_byte (Z.lxor b 0xFF).
Proof.
  intros Hb. apply is_byte_test.
  apply (byte_forall (fun b => (0 <=? Z.lxor b 0xFF) && (Z.lxor b 0xFF <? 256))
           ltac:(vm_compute; reflexivity) b Hb).
Qed.

Lemma to_bytes_unfold (g : Glyph) (bpp : Z) :
  to_bytes g bpp =
  match buf g with
  | _ :: _ =>
      match process_bitmap_buffer (buf g) bpp (width g) (rows g) with
      | Ok packed => bytes (header g ++ map (process_byte g) packed)
      | Raise e => Raise e
      end
  | [] => bytes (header g)
  end.
Proof. unfold to_bytes, header. destruct (buf g); reflexivity. Qed.

(** * Inverting before or after packing *)

Lemma invert_byte (x : Z) : is_byte x -> is_byte (invert x).
Proof. apply xor_byte. Qed.

Lemma invert_top1 (x : Z) :
  is_byte x -> Z.land (invert x) 0x80 = 128 - Z.land x 0x80.
Proof.
  intros Hx. apply Z.eqb_eq.
  apply (byte_forall
           (fun x => Z.land (invert x) 0x80 =? 128 - Z.land x 0x80)
           ltac:(vm_compute; reflexivity) x Hx).
Qed.

Lemma invert_top2 (x : Z) :
  is_byte x -> Z.land (invert x) 0xC0 = 192 - Z.land x 0xC0.
Proof.
  intros Hx. apply Z.eqb_eq.
  apply (byte_forall
           (fun x => Z.land (invert x) 0xC0 =? 192 - Z.land x 0xC0)
           ltac:(vm_compute; reflexivity) x Hx).
Qed.

Lemma invert_top4 (x : Z) :
  is_byte x ->
  Z.land (invert x) 0xF0 = 240 - Z.land x 0xF0
  /\ Z.shiftr (invert x) 4 = 15 - sample 4 x.
Proof.
  intros Hx.
  pose proof (byte_forall
    (fun x => (Z.land (invert x) 0xF0 =? 240 - Z.land x 0xF0)
              && (Z.shiftr (invert x) 4 =? 15 - sample 4 x))
    ltac:(vm_compute; reflexivity) x Hx) as H.
  cbv beta in H. apply andb_prop in H. rewrite !Z.eqb_eq in H. exact H.
Qed.

Lemma invert_pack_bpp1 (c : list Z) :
  length c = 8%nat -> Forall is_byte c ->
  byte_of pack_bpp1 (map invert c) = invert (byte_of pack_bpp1 c).
Proof.
  intros Hlen Hc.
  do 9 (destruct c as [|? c]; try discriminate Hlen).
  repeat match goal with
         | H : Forall _ (_ :: _) |- _ => inversion H; subst; clear H
         end.
  unfold byte_of, pack_bpp1. cbn [map].
  repeat match goal with
         | H : is_byte ?x |- _ =>
             rewrite (invert_top1 x H);
             destruct (top1_byte x H) as (? & ? & ? & _); clear H
         end.
  repeat match goal with
         | H : Z.land _ _ = _ |- _ => rewrite H; clear H
         end.
  split_cases; reflexivity.
Qed.

Lemma invert_pack_bpp2 (c : list Z) :
  length c = 4%nat -> Forall is_byte c ->
  byte_of pack_bpp2 (map invert c) = invert (byte_of pack_bpp2 c).
Proof.
  intros Hlen Hc.
  do 5 (destruct c as [|? c]; try discriminate Hlen).
  repeat match goal with
         | H : Forall _ (_ :: _) |- _ => inversion H; subst; clear H
         end.
  unfold byte_of, pack_bpp2. cbn [map].
  repeat match goal with
         | H : is_byte ?x |- _ =>
             rewrite (invert_top2 x H);
             destruct (top2_byte x H) as (? & ? & ? & _); clear H
         end.
  repeat match goal with
         | H : Z.land _ _ = _ |- _ => rewrite H; clear H
         end.
  split_cases; reflexivity.
Qed.

Lemma invert_pack_pair (a b : Z) :
  is_byte a -> is_byte b ->
  Z.lor (Z.land (invert b) 0xF0) (Z.shiftr (invert a) 4)
  = invert (Z.lor (Z.land b 0xF0) (Z.shiftr a 4)).
Proof.
  intros Ha Hb.
  destruct (invert_top4 a Ha) as [_ Ea]. destruct (invert_top4 b Hb) as [Eb _].
  rewrite Ea, Eb. change (Z.shiftr a 4) with (sample 4 a).
  destruct (top4_byte a Ha) as (ta & Hta & _ & ->).
  destruct (top4_byte b Hb) as (tb & Htb & -> & _).
  apply nibble_cases in Hta, Htb.
  split_cases; reflexivity.
Qed.

Lemma groups_map (f : Z -> Z) (k : nat) (l : list Z) :
  groups k (map f l) = map (map f) (groups k l).
Proof.
  unfold groups. rewrite length_map, map_map. apply map_ext. intros q.
  rewrite skipn_map, firstn_map. reflexivity.
Qed.

Lemma slice_map (f : Z -> Z) (l : list Z) (i j : Z) :
  slice (map f l) i j = map f (slice l i j).
Proof.
  unfold slice, len. rewrite length_map, skipn_map, firstn_map. reflexivity.
Qed.

Lemma pad_to_whole (k : Z) (l : list Z) : len l mod k = 0 -> pad_to k l = l.
Proof. intros H. unfold pad_to. rewrite H. reflexivity. Qed.

Lemma row_bytes_invert (row : list Z) :
  Nat.odd (length row) = false -> Forall is_byte row ->
  row_bytes (map invert row) = map invert (row_bytes row).
Proof.
  induction row as [| a | a b l IH] using list_pair_ind; intros Heven Hrow.
  - reflexivity.
  - discriminate Heven.
  - inversion Hrow as [|? ? Ha Hrow']; subst.
    inversion Hrow' as [|? ? Hb Hl]; subst.
    cbn [map]. rewrite !row_bytes_cons2. cbn [map].
    rewrite invert_pack_pair by assumption.
    rewrite IH by assumption. reflexivity.
Qed.

Lemma map_flat_map {X Y W} (f : Y -> W) (g : X -> list Y) (xs : list X) :
  map f (flat_map g xs) = flat_map (fun x => map f (g x)) xs.
Proof.
  induction xs as [|x xs IH]; [reflexivity|].
  cbn [flat_map]. rewrite map_app, IH. reflexivity.
Qed.

(** When no padding is involved, inverting the pixels and then packing gives
    the same bytes as packing and then inverting. *)
Lemma pack_invert (buf : list Z) (bpp w h : Z) (packed : list Z) :
  bpp = 8
  \/ (bpp = 1 /\ len buf mod 8 = 0)
  \/ (bpp = 2 /\ len buf mod 4 = 0)
  \/ (bpp = 4 /\ w mod 2 = 0) ->
  0 <= w -> len buf = w * h -> Forall is_byte buf ->
  process_bitmap_buffer buf bpp w h = Ok packed ->
  process_bitmap_buffer (map invert buf) bpp w h = Ok (map invert packed).
Proof.
  intros Hcase Hw Hlen Hbuf.
  assert (Hlen' : len (map invert buf) = len buf)
    by (unfold len; rewrite length_map; reflexivity).
  unfold process_bitmap_buffer.
  destruct Hcase as [-> | [[-> Hmod] | [[-> Hmod] | [-> Hmod]]]].
  - intros [= <-]. reflexivity.
  - change (1 =? 1) with true. cbv iota.
    assert (Hn : length buf = (8 * Z.to_nat (len buf / 8))%nat).
    { pose proof (Z.div_mod (len buf) 8 ltac:(lia)).
      pose proof (len_nonneg buf). unfold len in *. lia. }
    change 8 with (Z.of_nat 8).
    rewrite !packed_linear by (lia || apply pack_bpp1_total).
    rewrite !pad_to_whole by (rewrite ?Hlen'; exact Hmod).
    intros [= <-]. f_equal. rewrite groups_map, !map_map.
    apply map_ext_in. intros c Hc.
    destruct (groups_bytes 8 buf c ltac:(lia) (ex_intro _ _ Hn) Hbuf Hc).
    apply invert_pack_bpp1; assumption.
  - change (2 =? 1) with false. change (2 =? 2) with true. cbv iota.
    assert (Hn : length buf = (4 * Z.to_nat (len buf / 4))%nat).
    { pose proof (Z.div_mod (len buf) 4 ltac:(lia)).
      pose proof (len_nonneg buf). unfold len in *. lia. }
    change 4 with (Z.of_nat 4).
    rewrite !packed_linear by (lia || apply pack_bpp2_total).
    rewrite !pad_to_whole by (rewrite ?Hlen'; exact Hmod).
    intros [= <-]. f_equal. rewrite groups_map, !map_map.
    apply map_ext_in. intros c Hc.
    destruct (groups_bytes 4 buf c ltac:(lia) (ex_intro _ _ Hn) Hbuf Hc).
    apply invert_pack_bpp2; assumption.
  - change (4 =? 1) with false. change (4 =? 2) with false.
    change (4 =? 4) with true. cbv iota.
    rewrite !packed_bpp4 by (assumption || (rewrite Hlen'; assumption)).
    intros [= <-]. f_equal. rewrite map_flat_map.
    apply flat_map_ext_in. intros y Hy. apply in_range_by_1 in Hy.
    unfold pixel_row at 1. rewrite slice_map. fold (pixel_row buf w y).
    apply row_bytes_invert; [|apply Forall_pixel_row; assumption].
    rewrite (pixel_row_length buf w h) by assumption.
    pose proof (odd_to_nat_mod2 w Hw) as E. rewrite Hmod in E.
    destruct (Nat.odd (Z.to_nat w)); [discriminate E | reflexivity].
Qed.

(** C1 as stated fails: an inverse-colors glyph is not packed from the
    inverted buffer.  For a 1x1 glyph holding the pixel 0xFF at one bit per
    pixel, serialization writes the packed byte 0x80 inverted, 0x7F, while
    the inverted buffer [0x00] packs to 0x00. *)
Lemma C1_counterexample :
  ~ (forall g bpp out packed,
       inverse_colors g = true -> buf g <> [] ->
       bpp = 1 \/ bpp = 2 \/ bpp = 4 \/ bpp = 8 ->
       len (buf g) = width g * rows g -> Forall is_byte (buf g) ->
       to_bytes g bpp = Ok out ->
       process_bitmap_buffer (map invert (buf g)) bpp (width g) (rows g)
       = Ok packed ->
       skipn 5 out = packed).
Proof.
  intros H.
  specialize (H (mkGlyph [63] 1 1 2 0 1 [0xFF] 256 true) 1
                [1; 1; 2; 0; 1; 0x7F] [0x00]).
  cbn [inverse_colors buf width rows] in H.
  assert (Hb : Forall is_byte [0xFF])
    by (repeat constructor; unfold is_byte; lia).
  specialize (H eq_refl ltac:(discriminate) ltac:(left; reflexivity)
                eq_refl Hb eq_refl eq_refl).
  discriminate H.
Qed.

(** C1, amended: for a glyph with [inverse_colors] set and a non-empty
    buffer, and each depth 1, 2, 4 and 8, the packer runs on the buffer as it
    is and the byte-wise XOR with 0xFF is then applied to every packed
    byte: the pixel-packed region of the serialization is
    [XOR(pack(buf, bpp, width, rows), 0xFF)], after the five header bytes.
    It is [pack(XOR(buf, 0xFF), bpp, width, rows)] when packing adds no
    padding: at depth 8, at depth 1 or 2 when the pixels fill whole bytes,
    and at depth 4 when the width is even. *)
Theorem C1_inverse_colors_after_packing (g : Glyph) (bpp : Z) :
  inverse_colors g = true -> buf g <> [] ->
  bpp = 1 \/ bpp = 2 \/ bpp = 4 \/ bpp = 8 ->
  0 <= width g -> 0 <= rows g -> len (buf g) = width g * rows g ->
  Forall is_byte (buf g) -> Forall is_byte (header g) ->
  exists packed out,
    process_bitmap_buffer (buf g) bpp (width g) (rows g) = Ok packed
    /\ to_bytes g bpp = Ok out
    /\ firstn 5 out = header g
    /\ skipn 5 out = map invert packed
    /\ (bpp = 8
        \/ (bpp = 1 /\ len (buf g) mod 8 = 0)
        \/ (bpp = 2 /\ len (buf g) mod 4 = 0)
        \/ (bpp = 4 /\ width g mod 2 = 0) ->
        process_bitmap_buffer (map invert (buf g)) bpp (width g) (rows g)
        = Ok (skipn 5 out)).
Proof.
  intros Hinv Hne Hbpp Hw Hr Hlen Hbuf Hhdr.
  destruct (pack_round_trip (buf g) bpp (width g) (rows g)
              Hbpp Hw Hr Hlen Hbuf) as (packed & Hp & _ & Hpb).
  exists packed, (header g ++ map invert packed).
  split; [exact Hp|].
  rewrite to_bytes_unfold, Hp.
  destruct (buf g) as [|x l] eqn:Eb; [congruence|]. rewrite <- Eb in *.
  replace (map (process_byte g) packed) with (map invert packed)
    by (apply map_ext; intros b; unfold process_byte; rewrite Hinv; reflexivity).
  split; [|split; [reflexivity | split; [reflexivity|]]].
  - apply bytes_ok. apply Forall_app. split; [exact Hhdr|].
    apply Forall_forall. intros b Hb. apply in_map_iff in Hb.
    destruct Hb as [b' [<- Hb']]. apply invert_byte.
    rewrite Forall_forall in Hpb. apply Hpb, Hb'.
  - intros Hcase. change (skipn 5 (header g ++ map invert packed))
      with (map invert packed).
    apply pack_invert; assumption.
Qed.

Lemma C1_inverse_colors_after_packing_witness :
  exists packed out,
    process_bitmap_buffer [0xF0; 0x10] 4 2 1 = Ok packed
    /\ to_bytes (mkGlyph [63] 2 1 3 0 1 [0xF0; 0x10] 256 true) 4 = Ok out
    /\ firstn 5 out = [2; 1; 3; 0; 1]
    /\ skipn 5 out = map invert packed
    /\ (4 = 8
        \/ (4 = 1 /\ len [0xF0; 0x10] mod 8 = 0)
        \/ (4 = 2 /\ len [0xF0; 0x10] mod 4 = 0)
        \/ (4 = 4 /\ 2 mod 2 = 0) ->
        process_bitmap_buffer (map invert [0xF0; 0x10]) 4 2 1
        = Ok (skipn 5 out)).
Proof.
  apply (C1_inverse_colors_after_packing
           (mkGlyph [63] 2 1 3 0 1 [0xF0; 0x10] 256 true) 4).
  - reflexivity.
  - discriminate.
  - right. right. left. reflexivity.
  - cbn. lia.
  - cbn. lia.
  - reflexivity.
  - repeat constructor; unfold is_byte; lia.
  - repeat constructor; unfold is_byte; cbn; lia.
Defined.

(** * Extraction *)

Lemma bind_ret_l {A B} (a : A) (k : A -> io B) : bind (ret a) k = k a.
Proof. unfold bind, ret. destruct (k a). reflexivity. Qed.

Lemma bind_raise_l {A B} (e : exn) (k : A -> io B) : bind (raise e) k = raise e.
Proof. reflexivity. Qed.

Lemma bind_assert_true {B} (a : assertion) (k : unit -> io B) :
  bind (assert true a) k = k tt.
Proof. apply bind_ret_l. Qed.

Lemma bind_assert_false {B} (a : assertion) (k : unit -> io B) :
  bind (assert false a) k = raise (AssertionError a).
Proof. reflexivity. Qed.

Lemma bind_print {B} (l : line) (k : unit -> io B) :
  bind (print l) k = (l :: fst (k tt), snd (k tt)).
Proof. unfold bind, print. destruct (k tt). reflexivity. Qed.

Lemma check_rasterizer_true (glyph : GlyphSlot) (c : str) :
  rasterizer_consistent glyph c = true -> check_rasterizer glyph c = ret tt.
Proof.
  unfold rasterizer_consistent. intros H.
  repeat (apply andb_prop in H; let H' := fresh "H" in destruct H as [H H']).
  unfold check_rasterizer.
  repeat match goal with
         | E : ?b = true |- _ => rewrite E; clear E
         end.
  reflexivity.
Qed.

Lemma check_rasterizer_false (glyph : GlyphSlot) (c : str) :
  rasterizer_consistent glyph c = false ->
  exists a, check_rasterizer glyph c = raise (AssertionError a).
Proof.
  unfold rasterizer_consistent, check_rasterizer.
  repeat match goal with
         | |- context [assert ?b ?a] =>
             lazymatch b with true => fail | _ => idtac end;
             destruct b;
             [try rewrite bind_assert_true | intros _; eexists; reflexivity]
         end.
  intros H. discriminate H.
Qed.

Lemma from_face_consistent glyph c shaveX inv :
  rasterizer_consistent glyph c = true ->
  from_face glyph c shaveX inv = normalize glyph c shaveX inv.
Proof.
  intros H. unfold from_face. rewrite check_rasterizer_true by assumption.
  rewrite bind_ret_l. reflexivity.
Qed.

Lemma from_face_inconsistent glyph c shaveX inv :
  rasterizer_consistent glyph c = false ->
  exists a, from_face glyph c shaveX inv = raise (AssertionError a).
Proof.
  intros H. unfold from_face.
  destruct (check_rasterizer_false glyph c H) as [a ->].
  exists a. reflexivity.
Qed.

Lemma discard_left_space_negative (a b s adv bx rl : Z) :
  discard_left_space a b s = (adv, bx, rl) -> bx < 0 ->
  s <= 0 /\ adv = a /\ bx = b /\ rl = s.
Proof.
  unfold discard_left_space. destruct (s >? 0) eqn:E.
  - intros [= <- <- <-] Hbx. lia.
  - intros [= <- <- <-] _. rewrite Z.gtb_ltb in E. apply Z.ltb_ge in E. lia.
Qed.

(** What [normalize] returns when no pixel column has to be dropped. *)
Lemma normalize_no_drop glyph c shaveX inv adv bx rl adv' bx' :
  discard_left_space (Metrics.horiAdvance (metrics glyph) / 64)
                     (Metrics.horiBearingX (metrics glyph) / 64) shaveX
  = (adv, bx, rl) ->
  fold_negative_bearingX c adv bx = ret (adv', bx') ->
  (rl >? 0) && (Bitmap.width (bitmap glyph) >? 0) = false ->
  0 <= adv' <= 255 -> 0 <= bx' <= 255 ->
  Metrics.horiBearingY (metrics glyph) / 64 <= 255 ->
  let by0 := Metrics.horiBearingY (metrics glyph) / 64 in
  normalize glyph c shaveX inv
  = ((if by0 <? 0 then [Normalizing_bearingY by0 c] else []),
     Ok (mkGlyph c (Bitmap.width (bitmap glyph)) (Bitmap.rows (bitmap glyph))
           adv' bx' (Z.max 0 by0) (Bitmap.buffer (bitmap glyph))
           (Bitmap.num_grays (bitmap glyph)) inv)).
Proof.
  intros Hdls Hfold Hrl Hadv Hbx Hby by0. unfold normalize.
  rewrite Hdls, Hfold, bind_ret_l.
  replace ((adv' >=? 0) && (adv' <=? 255)) with true
    by (symmetry; apply andb_true_iff; rewrite Z.geb_le, Z.leb_le; lia).
  rewrite bind_assert_true.
  replace ((bx' >=? 0) && (bx' <=? 255)) with true
    by (symmetry; apply andb_true_iff; rewrite Z.geb_le, Z.leb_le; lia).
  rewrite bind_assert_true.
  unfold normalize_bearingY, discard_left_pixels. fold by0. rewrite Hrl.
  destruct (by0 <? 0) eqn:Eby.
  - apply Z.ltb_lt in Eby. rewrite Z.max_l by lia. reflexivity.
  - apply Z.ltb_ge in Eby. rewrite bind_ret_l.
    replace ((by0 >=? 0) && (by0 <=? 255)) with true
      by (symmetry; apply andb_true_iff; rewrite Z.geb_le, Z.leb_le; lia).
    rewrite Z.max_r by lia. reflexivity.
Qed.

Lemma bind_ok_inv {A B} (m : io A) (k : A -> io B) out b :
  bind m k = (out, Ok b) ->
  exists o1 a o2, m = (o1, Ok a) /\ k a = (o2, Ok b) /\ out = o1 ++ o2.
Proof.
  unfold bind. destruct m as [o1 [a | e]]; [|discriminate].
  destruct (k a) as [o2 r] eqn:E. intros [= <- ->].
  exists o1, a, o2. auto.
Qed.

Lemma assert_ok_inv (b : bool) (a : assertion) out u :
  assert b a = (out, Ok u) -> b = true /\ out = [].
Proof. destruct b; [intros [= <-]; auto | discriminate]. Qed.

Lemma snd_bind {A B} (m : io A) (k : A -> io B) :
  snd (bind m k) = match snd m with
                   | Ok a => snd (k a)
                   | Raise e => Raise e
                   end.
Proof.
  unfold bind. destruct m as [o [a | e]]; [|reflexivity].
  cbn [snd]. destruct (k a). reflexivity.
Qed.

Lemma range_test (x : Z) : (x >=? 0) && (x <=? 255) = true <-> 0 <= x <= 255.
Proof. rewrite andb_true_iff, Z.geb_le, Z.leb_le. reflexivity. Qed.

(** Everything a successful [normalize] tells about the rasterizer output
    and about the glyph it returns. *)
Lemma normalize_ok_inv glyph c shaveX inv out g :
  normalize glyph c shaveX inv = (out, Ok g) ->
  let by0 := Metrics.horiBearingY (metrics glyph) / 64 in
  let w := Bitmap.width (bitmap glyph) in
  exists adv bx rl adv' o1,
    discard_left_space (Metrics.horiAdvance (metrics glyph) / 64)
                       (Metrics.horiBearingX (metrics glyph) / 64) shaveX
    = (adv, bx, rl)
    /\ fold_negative_bearingX c adv bx = (o1, Ok (adv', bearingX g))
    /\ 0 <= adv' <= 255 /\ 0 <= bearingX g <= 255 /\ by0 <= 255
    /\ bearingY g = Z.max 0 by0
    /\ (by0 < 0 -> In (Normalizing_bearingY by0 c) out)
    /\ char g = c /\ rows g = Bitmap.rows (bitmap glyph)
    /\ inverse_colors g = inv
    /\ (if (rl >? 0) && (w >? 0)
        then bearingX g = 0 /\ rl < w /\ rl < adv'
             /\ width g = w - rl /\ advance g = adv' - rl
             /\ drop_left_columns (Bitmap.buffer (bitmap glyph)) w rl = Ok (buf g)
        else width g = w /\ advance g = adv'
             /\ buf g = Bitmap.buffer (bitmap glyph)).
Proof.
  intros H by0 w. unfold normalize in H. fold by0 w in H.
  destruct (discard_left_space _ _ shaveX) as [[adv bx] rl] eqn:Hdls.
  apply bind_ok_inv in H. destruct H as (o1 & [adv' bx'] & o2 & Hfold & H & ->).
  apply bind_ok_inv in H. destruct H as (o3 & [] & o4 & Ha & H & ->).
  apply assert_ok_inv in Ha. destruct Ha as [Ha ->]. apply range_test in Ha.
  apply bind_ok_inv in H. destruct H as (o5 & [] & o6 & Hb & H & ->).
  apply assert_ok_inv in Hb. destruct Hb as [Hb ->]. apply range_test in Hb.
  apply bind_ok_inv in H. destruct H as (o7 & by1 & o8 & Hby & H & ->).
  apply bind_ok_inv in H. destruct H as (o9 & [] & o10 & Hc & H & ->).
  apply assert_ok_inv in Hc. destruct Hc as [Hc ->]. apply range_test in Hc.
  apply bind_ok_inv in H.
  destruct H as (o11 & [[buf' w'] adv''] & o12 & Hdrop & H & ->).
  injection H as <- <-.
  cbn [bearingX bearingY char rows inverse_colors width advance buf].
  assert (Hby' : by1 = Z.max 0 by0
                 /\ by0 <= 255
                 /\ (by0 < 0 -> In (Normalizing_bearingY by0 c) o7)).
  { unfold normalize_bearingY in Hby. destruct (by0 <? 0) eqn:E.
    - apply Z.ltb_lt in E. injection Hby as <- <-.
      repeat split; [lia | lia | intros _; left; reflexivity].
    - apply Z.ltb_ge in E. injection Hby as <- <-.
      repeat split; [lia | lia | lia]. }
  destruct Hby' as (-> & Hby1 & Hlog).
  exists adv, bx, rl, adv', o1.
  repeat match goal with |- _ /\ _ => split end;
    try reflexivity; try assumption; try lia.
  - intros Hneg. apply in_or_app. right. cbn [app].
    apply in_or_app. left. apply Hlog, Hneg.
  - unfold discard_left_pixels in Hdrop.
    destruct ((rl >? 0) && (w >? 0)) eqn:Ecol.
    + apply bind_ok_inv in Hdrop. destruct Hdrop as (p1 & [] & p2 & H1 & Hdrop & ->).
      apply assert_ok_inv in H1. destruct H1 as [H1 ->]. apply Z.eqb_eq in H1.
      apply bind_ok_inv in Hdrop. destruct Hdrop as (p3 & b2 & p4 & H2 & Hdrop & ->).
      apply bind_ok_inv in Hdrop. destruct Hdrop as (p5 & [] & p6 & H3 & Hdrop & ->).
      apply assert_ok_inv in H3. destruct H3 as [H3 ->].
      rewrite Z.gtb_ltb in H3. apply Z.ltb_lt in H3.
      apply bind_ok_inv in Hdrop. destruct Hdrop as (p7 & [] & p8 & H4 & Hdrop & ->).
      apply assert_ok_inv in H4. destruct H4 as [H4 ->].
      rewrite Z.gtb_ltb in H4. apply Z.ltb_lt in H4.
      apply bind_ok_inv in Hdrop. destruct Hdrop as (p9 & [] & p10 & _ & Hdrop & ->).
      injection Hdrop as <- <- <- <-.
      unfold lift in H2. injection H2 as <- ->.
      repeat split; assumption.
    + injection Hdrop as <- <- <- <-. repeat split.
Qed.

(** C4 as stated fails: step 1 does not apply the formula at [shaveX = 0].
    With advance 10 and bearingX -1 the code skips the step and keeps
    (10, -1, 0), while the formula gives (11, 0, 1). *)
Lemma C4_counterexample :
  ~ (forall advance bearingX shaveX,
       0 <= shaveX ->
       discard_left_space advance bearingX shaveX =
       let diff := Z.min advance (Z.min bearingX shaveX) in
       (advance - diff, bearingX - diff, shaveX - diff)).
Proof.
  intros H. specialize (H 10 (-1) 0 ltac:(lia)). discriminate H.
Qed.

(** C4, amended: for a positive [shaveX], step 1 computes
    [diff = min(advance, bearingX, shaveX)], subtracts it from advance and
    from bearingX and leaves [remaining = shaveX - diff]; for [shaveX = 0]
    the step is skipped, so advance and bearingX are unchanged and
    [remaining = 0], which is what the formula gives when advance and
    bearingX are not negative. *)
Theorem C4_discard_left_space (advance bearingX shaveX : Z) :
  0 <= shaveX ->
  let diff := Z.min advance (Z.min bearingX shaveX) in
  (0 < shaveX ->
   discard_left_space advance bearingX shaveX
   = (advance - diff, bearingX - diff, shaveX - diff))
  /\ (shaveX = 0 ->
      discard_left_space advance bearingX shaveX = (advance, bearingX, 0))
  /\ (shaveX = 0 -> 0 <= advance -> 0 <= bearingX ->
      discard_left_space advance bearingX shaveX
      = (advance - diff, bearingX - diff, shaveX - diff)).
Proof.
  intros Hs diff. unfold discard_left_space. repeat split.
  - intros Hpos. destruct (shaveX >? 0) eqn:E; [reflexivity|].
    rewrite Z.gtb_ltb in E. apply Z.ltb_ge in E. lia.
  - intros ->. reflexivity.
  - intros -> Ha Hb. cbn [Z.gtb Z.compare]. subst diff.
    rewrite (Z.min_r bearingX 0), (Z.min_r advance 0) by lia.
    rewrite !Z.sub_0_r. reflexivity.
Qed.

Lemma C4_discard_left_space_witness :
  let diff := Z.min 10 (Z.min 3 2) in
  (0 < 2 -> discard_left_space 10 3 2 = (10 - diff, 3 - diff, 2 - diff))
  /\ (2 = 0 -> discard_left_space 10 3 2 = (10, 3, 0))
  /\ (2 = 0 -> 0 <= 10 -> 0 <= 3 ->
      discard_left_space 10 3 2 = (10 - diff, 3 - diff, 2 - diff)).
Proof. apply (C4_discard_left_space 10 3 2). lia. Defined.

Lemma from_face_ok_consistent glyph c shaveX inv out g :
  from_face glyph c shaveX inv = (out, Ok g) ->
  rasterizer_consistent glyph c = true
  /\ normalize glyph c shaveX inv = (out, Ok g).
Proof.
  intros H. destruct (rasterizer_consistent glyph c) eqn:E.
  - rewrite from_face_consistent in H by assumption. auto.
  - destruct (from_face_inconsistent glyph c shaveX inv E) as [a Ha].
    rewrite Ha in H. discriminate H.
Qed.

(** C5 as stated fails: an allow-listed character with a negative bearingX
    does not always extract.  For the letter A with advance 255 and bearingX
    -1, on an otherwise consistent rasterizer output, the folded advance is
    256 and the range assert on advance raises. *)
Lemma C5_counterexample :
  ~ (forall glyph c shaveX inv adv bx rl,
       rasterizer_consistent glyph c = true ->
       discard_left_space (Metrics.horiAdvance (metrics glyph) / 64)
                          (Metrics.horiBearingX (metrics glyph) / 64) shaveX
       = (adv, bx, rl) ->
       bx < 0 -> str_in c MODIFY_BEARING_X = true ->
       exists out g, from_face glyph c shaveX inv = (out, Ok g)).
Proof.
  intros H.
  destruct (H (blank_slot 1 1 255 (-1) 1) [65] 0 false 255 (-1) 0
              eq_refl eq_refl ltac:(lia) eq_refl) as (out & g & Hg).
  vm_compute in Hg. discriminate Hg.
Qed.

(** C5, amended: when bearingX is negative after the shave adjustment, an
    allow-listed character has the deficit folded into advance
    ([advance += -bearingX; bearingX = 0]) and extraction succeeds provided
    the remaining checks pass: the rasterizer output is consistent, the
    folded advance is within 0..255 and bearingY is at most 255; every glyph
    it returns has the folded advance and bearingX 0.  A character that is
    not allow-listed never yields a glyph, so its bearing is never silently
    zeroed: extraction raises, and on a consistent rasterizer output what it
    raises is the ValueError for the negative bearingX. *)
Theorem C5_negative_bearingX glyph c shaveX inv adv bx rl :
  discard_left_space (Metrics.horiAdvance (metrics glyph) / 64)
                     (Metrics.horiBearingX (metrics glyph) / 64) shaveX
  = (adv, bx, rl) ->
  bx < 0 ->
  (str_in c MODIFY_BEARING_X = true ->
     (forall out g, from_face glyph c shaveX inv = (out, Ok g) ->
                    advance g = adv + - bx /\ bearingX g = 0)
     /\ (rasterizer_consistent glyph c = true ->
         0 <= adv + - bx <= 255 ->
         Metrics.horiBearingY (metrics glyph) / 64 <= 255 ->
         exists out g, from_face glyph c shaveX inv = (out, Ok g)
                       /\ advance g = adv + - bx /\ bearingX g = 0))
  /\ (str_in c MODIFY_BEARING_X = false ->
      (exists out e, from_face glyph c shaveX inv = (out, Raise e))
      /\ (rasterizer_consistent glyph c = true ->
          from_face glyph c shaveX inv
          = ([], Raise (ValueError (NegativeBearingX c))))).
Proof.
  intros Hdls Hbx.
  destruct (discard_left_space_negative _ _ _ _ _ _ Hdls Hbx)
    as (Hs & _ & _ & Hrl).
  assert (Hcol : (rl >? 0) && (Bitmap.width (bitmap glyph) >? 0) = false).
  { replace (rl >? 0) with false; [reflexivity|].
    symmetry. rewrite Z.gtb_ltb. apply Z.ltb_ge. lia. }
  assert (Hneg : (bx <? 0) = true) by (apply Z.ltb_lt; exact Hbx).
  split.
  - intros Hallow.
    assert (Hfold : fold_negative_bearingX c adv bx = ret (adv + - bx, 0)).
    { unfold fold_negative_bearingX. rewrite Hneg, Hallow. reflexivity. }
    split.
    + intros out g Hg.
      apply from_face_ok_consistent in Hg. destruct Hg as [_ Hg].
      apply normalize_ok_inv in Hg. cbv zeta in Hg.
      destruct Hg as (adv0 & bx0 & rl0 & adv' & o1 & Hdls' & Hfold' & _ & _ & _
                      & _ & _ & _ & _ & _ & Hdrop).
      rewrite Hdls in Hdls'. injection Hdls' as <- <- <-.
      rewrite Hfold in Hfold'. injection Hfold' as <- <- <-.
      rewrite Hcol in Hdrop. destruct Hdrop as (_ & -> & _). auto.
    + intros Hcons Hadv Hby.
      rewrite from_face_consistent by assumption.
      rewrite (normalize_no_drop glyph c shaveX inv adv bx rl (adv + - bx) 0)
        by (assumption || lia).
      eexists. eexists. split; [reflexivity|]. split; reflexivity.
  - intros Hdeny.
    assert (Hnorm : normalize glyph c shaveX inv
                    = ([], Raise (ValueError (NegativeBearingX c)))).
    { unfold normalize. rewrite Hdls. unfold fold_negative_bearingX.
      rewrite Hneg, Hdeny. reflexivity. }
    split.
    + destruct (rasterizer_consistent glyph c) eqn:E.
      * rewrite from_face_consistent by assumption. rewrite Hnorm.
        eexists. eexists. reflexivity.
      * destruct (from_face_inconsistent glyph c shaveX inv E) as [a Ha].
        rewrite Ha. eexists. eexists. reflexivity.
    + intros Hcons. rewrite from_face_consistent by assumption. exact Hnorm.
Qed.

Lemma C5_negative_bearingX_witness :
  (str_in [65] MODIFY_BEARING_X = true ->
     (forall out g, from_face (blank_slot 1 1 10 (-1) 1) [65] 0 false = (out, Ok g) ->
                    advance g = 10 + - (-1) /\ bearingX g = 0)
     /\ (rasterizer_consistent (blank_slot 1 1 10 (-1) 1) [65] = true ->
         0 <= 10 + - (-1) <= 255 ->
         Metrics.horiBearingY (metrics (blank_slot 1 1 10 (-1) 1)) / 64 <= 255 ->
         exists out g, from_face (blank_slot 1 1 10 (-1) 1) [65] 0 false = (out, Ok g)
                       /\ advance g = 10 + - (-1) /\ bearingX g = 0))
  /\ (str_in [65] MODIFY_BEARING_X = false ->
      (exists out e, from_face (blank_slot 1 1 10 (-1) 1) [65] 0 false = (out, Raise e))
      /\ (rasterizer_consistent (blank_slot 1 1 10 (-1) 1) [65] = true ->
          from_face (blank_slot 1 1 10 (-1) 1) [65] 0 false
          = ([], Raise (ValueError (NegativeBearingX [65]))))).
Proof.
  apply (C5_negative_bearingX (blank_slot 1 1 10 (-1) 1) [65] 0 false 10 (-1) 0).
  - reflexivity.
  - lia.
Defined.

(** C8 as stated fails in one clause: the clamp of bearingY is not the only
    correction that extraction makes without raising, and the other two are
    not even printed.  With no shaving asked for, the letter A, which is on
    the allow-list, reported with advance 10 and bearingX -1, comes back with
    advance 11 and bearingX 0.  With a shave of 1, the letter B, which is not
    on the list, reported with advance 4 and bearingX -1 on a bitmap without
    columns, comes back with advance 5 and bearingX 0.  So it does not hold
    that a glyph returned with nothing printed carries the advance and the
    bearingX that the rasterizer reported, nor that a negative bearingX
    outside the allow-list is never accepted. *)
Lemma C8_counterexample :
  ~ (forall glyph c inv g,
       from_face glyph c 0 inv = ([], Ok g) ->
       advance g = Metrics.horiAdvance (metrics glyph) / 64
       /\ bearingX g = Metrics.horiBearingX (metrics glyph) / 64)
  /\ ~ (forall glyph c shaveX inv g,
          str_in c MODIFY_BEARING_X = false ->
          from_face glyph c shaveX inv = ([], Ok g) ->
          0 <= Metrics.horiBearingX (metrics glyph) / 64).
Proof.
  split; intros H.
  - assert (E : from_face (blank_slot 1 1 10 (-1) 1) [65] 0 false
                = ([], Ok (mkGlyph [65] 1 1 11 0 1 [0] 256 false)))
      by (vm_compute; reflexivity).
    destruct (H _ _ _ _ E) as [Ha _]. vm_compute in Ha. discriminate Ha.
  - assert (E : from_face (blank_slot 0 0 4 (-1) 0) [66] 1 false
                = ([], Ok (mkGlyph [66] 0 0 5 0 0 [] 256 false)))
      by (vm_compute; reflexivity).
    assert (Hc : str_in [66] MODIFY_BEARING_X = false) by reflexivity.
    specialize (H _ _ _ _ _ Hc E). vm_compute in H. apply H. reflexivity.
Qed.

Lemma check_rasterizer_bearingY (glyph : GlyphSlot) (c : str) (v : Z) :
  Metrics.horiBearingY (metrics glyph) mod 64 = 0 -> v mod 64 = 0 ->
  check_rasterizer (with_horiBearingY glyph v) c = check_rasterizer glyph c.
Proof.
  intros H1 H2. unfold check_rasterizer, with_horiBearingY.
  cbn [metrics bitmap Metrics.width Metrics.height Metrics.horiAdvance
       Metrics.horiBearingX Metrics.horiBearingY].
  rewrite H1, H2. reflexivity.
Qed.

Lemma normalize_bearingY_clamped glyph c shaveX inv :
  Metrics.horiBearingY (metrics glyph) / 64 < 0 ->
  snd (normalize glyph c shaveX inv)
  = snd (normalize (with_horiBearingY glyph 0) c shaveX inv).
Proof.
  intros Hby. unfold normalize, with_horiBearingY.
  cbn [metrics bitmap Metrics.width Metrics.height Metrics.horiAdvance
       Metrics.horiBearingX Metrics.horiBearingY].
  destruct (discard_left_space _ _ shaveX) as [[adv bx] rl].
  rewrite !snd_bind.
  destruct (snd (fold_negative_bearingX c adv bx)) as [[adv' bx'] | e];
    [|reflexivity].
  rewrite ?snd_bind.
  destruct (snd (assert _ A_advance_range)); [|reflexivity].
  rewrite ?snd_bind.
  destruct (snd (assert _ A_bearingX_range)); [|reflexivity].
  rewrite ?snd_bind. unfold normalize_bearingY.
  replace (Metrics.horiBearingY (metrics glyph) / 64 <? 0) with true
    by (symmetry; apply Z.ltb_lt; exact Hby).
  reflexivity.
Qed.

Lemma item_inside (l : list Z) (i : Z) :
  0 <= i < len l -> item l i = Ok (nth (Z.to_nat i) l 0).
Proof.
  intros Hi. unfold item.
  destruct (i <? 0) eqn:E; [apply Z.ltb_lt in E; lia|].
  replace ((0 <=? i) && (i <? len l)) with true; [reflexivity|].
  symmetry. apply andb_true_iff. rewrite Z.leb_le, Z.ltb_lt. exact Hi.
Qed.

(** On a positive width [drop_left_columns] returns: it keeps, in order, the
    pixels whose column is at least [drop]. *)
Lemma drop_left_columns_ok (buf : list Z) (width drop : Z) :
  0 < width ->
  drop_left_columns buf width drop
  = Ok (flat_map (fun i => if i mod width >=? drop
                           then [nth (Z.to_nat i) buf 0] else [])
                 (range 0 (len buf) 1)).
Proof.
  intros Hw. unfold drop_left_columns.
  rewrite (for_each_append _
    (fun i => if i mod width >=? drop then [nth (Z.to_nat i) buf 0] else [])).
  - reflexivity.
  - intros i s Hi. apply in_range_by_1 in Hi.
    destruct (width =? 0) eqn:E; [apply Z.eqb_eq in E; lia|].
    destruct (i mod width >=? drop).
    + rewrite item_inside by lia. reflexivity.
    + rewrite app_nil_r. reflexivity.
Qed.

Lemma check_rasterizer_not_bearingY_range (glyph : GlyphSlot) (c : str) :
  snd (check_rasterizer glyph c) <> Raise (AssertionError A_bearingY_range).
Proof.
  unfold check_rasterizer.
  repeat match goal with
         | |- context [assert ?b ?a] =>
             lazymatch b with true => fail | _ => idtac end;
             destruct b;
             [try rewrite bind_assert_true | cbn; discriminate]
         end.
  cbn. discriminate.
Qed.

Lemma normalize_not_bearingY_range glyph c shaveX inv :
  Metrics.horiBearingY (metrics glyph) / 64 < 0 ->
  snd (normalize glyph c shaveX inv) <> Raise (AssertionError A_bearingY_range).
Proof.
  intros Hby. unfold normalize.
  destruct (discard_left_space _ _ shaveX) as [[adv bx] rl].
  unfold fold_negative_bearingX.
  assert (Hstep : forall adv' bx',
    snd (assert ((adv' >=? 0) && (adv' <=? 255)) A_advance_range ;;
         assert ((bx' >=? 0) && (bx' <=? 255)) A_bearingX_range ;;
         bearingY <- normalize_bearingY c
                       (Metrics.horiBearingY (metrics glyph) / 64) ;;
         assert ((bearingY >=? 0) && (bearingY <=? 255)) A_bearingY_range ;;
         '(buf, width, advance) <-
           discard_left_pixels c (Bitmap.buffer (bitmap glyph))
             (Bitmap.width (bitmap glyph)) adv' bx' rl ;;
         ret (mkGlyph c width (Bitmap.rows (bitmap glyph)) advance bx' bearingY
                buf (Bitmap.num_grays (bitmap glyph)) inv))%io
    <> Raise (AssertionError A_bearingY_range)).
  { intros adv' bx'.
    destruct ((adv' >=? 0) && (adv' <=? 255));
      [rewrite bind_assert_true | cbn; discriminate].
    destruct ((bx' >=? 0) && (bx' <=? 255));
      [rewrite bind_assert_true | cbn; discriminate].
    unfold normalize_bearingY.
    replace (Metrics.horiBearingY (metrics glyph) / 64 <? 0) with true
      by (symmetry; apply Z.ltb_lt; exact Hby).
    rewrite snd_bind. cbn [snd print ret bind app].
    change ((0 >=? 0) && (0 <=? 255)) with true. rewrite bind_assert_true.
    unfold discard_left_pixels.
    destruct ((rl >? 0) && (Bitmap.width (bitmap glyph) >? 0)) eqn:Ecol;
      [|cbn; discriminate].
    apply andb_prop in Ecol. destruct Ecol as [_ Ew].
    rewrite Z.gtb_ltb in Ew. apply Z.ltb_lt in Ew.
    rewrite snd_bind.
    destruct (bx' =? 0); [rewrite bind_assert_true | cbn; discriminate].
    rewrite drop_left_columns_ok by assumption.
    change (lift (Ok ?x)) with (ret x). rewrite bind_ret_l.
    destruct (Bitmap.width (bitmap glyph) >? rl);
      [rewrite bind_assert_true | cbn; discriminate].
    destruct (adv' >? rl);
      [rewrite bind_assert_true | cbn; discriminate].
    cbn. discriminate. }
  destruct (bx <? 0); [destruct (str_in c MODIFY_BEARING_X)|].
  - rewrite bind_ret_l. apply Hstep.
  - cbn. discriminate.
  - rewrite bind_ret_l. apply Hstep.
Qed.

(** C8, amended: a negative bearingY, in whole pixels, never makes
    extraction raise on its account.  It is clamped to 0 and the clamp is
    printed; the range assert on bearingY cannot fire; extraction returns or
    raises exactly as it does on the same rasterizer output with bearingY 0;
    and every glyph returned has bearingY 0, within 0..255. *)
Theorem C8_negative_bearingY glyph c shaveX inv :
  let by0 := Metrics.horiBearingY (metrics glyph) / 64 in
  by0 < 0 ->
  (Metrics.horiBearingY (metrics glyph) mod 64 = 0 ->
   snd (from_face glyph c shaveX inv)
   = snd (from_face (with_horiBearingY glyph 0) c shaveX inv))
  /\ (forall out g,
        from_face glyph c shaveX inv = (out, Ok g) ->
        bearingY g = 0 /\ 0 <= bearingY g <= 255
        /\ In (Normalizing_bearingY by0 c) out)
  /\ (forall out,
        from_face glyph c shaveX inv
        <> (out, Raise (AssertionError A_bearingY_range))).
Proof.
  intros by0 Hby. split; [|split].
  - intros Hfrac. unfold from_face. rewrite !snd_bind.
    rewrite check_rasterizer_bearingY by (assumption || reflexivity).
    destruct (snd (check_rasterizer glyph c)); [|reflexivity].
    apply normalize_bearingY_clamped. exact Hby.
  - intros out g H.
    apply from_face_ok_consistent in H. destruct H as [_ H].
    apply normalize_ok_inv in H. cbv zeta in H.
    destruct H as (? & ? & ? & ? & ? & _ & _ & _ & _ & _ & Hg & Hlog & _).
    rewrite Hg. fold by0.
    split; [lia|]. split; [lia|]. apply Hlog. exact Hby.
  - intros out H.
    assert (Hs : snd (from_face glyph c shaveX inv)
                 = Raise (AssertionError A_bearingY_range))
      by (rewrite H; reflexivity).
    clear H. unfold from_face in Hs. rewrite snd_bind in Hs.
    pose proof (check_rasterizer_not_bearingY_range glyph c) as Hc.
    destruct (snd (check_rasterizer glyph c)) as [[]|e].
    + revert Hs. apply normalize_not_bearingY_range. exact Hby.
    + injection Hs as ->. apply Hc. reflexivity.
Qed.

Lemma C8_negative_bearingY_witness :
  (Metrics.horiBearingY (metrics (blank_slot 2 3 10 1 (-1))) mod 64 = 0 ->
   snd (from_face (blank_slot 2 3 10 1 (-1)) [103] 0 false)
   = snd (from_face (with_horiBearingY (blank_slot 2 3 10 1 (-1)) 0) [103] 0 false))
  /\ (forall out g,
        from_face (blank_slot 2 3 10 1 (-1)) [103] 0 false = (out, Ok g) ->
        bearingY g = 0 /\ 0 <= bearingY g <= 255
        /\ In (Normalizing_bearingY (-1) [103]) out)
  /\ (forall out,
        from_face (blank_slot 2 3 10 1 (-1)) [103] 0 false
        <> (out, Raise (AssertionError A_bearingY_range))).
Proof.
  apply (C8_negative_bearingY (blank_slot 2 3 10 1 (-1)) [103] 0 false).
  cbn. lia.
Defined.

Lemma blank_slot_consistent (w r adv bx by_ : Z) (c : str) :
  0 <= w -> 0 <= r -> len c = 1 ->
  rasterizer_consistent (blank_slot w r adv bx by_) c = true.
Proof.
  intros Hw Hr Hc. unfold rasterizer_consistent, blank_slot.
  cbn [metrics bitmap Metrics.width Metrics.height Metrics.horiAdvance
       Metrics.horiBearingX Metrics.horiBearingY
       Bitmap.width Bitmap.rows Bitmap.pitch Bitmap.buffer].
  rewrite Hc. unfold len. rewrite repeat_length, Z2Nat.id by nia.
  rewrite !(Z.mul_comm 64), !Z.div_mul, !Z.mod_mul by lia.
  rewrite !Z.eqb_refl. reflexivity.
Qed.

Lemma header_not_bytes (g : Glyph) (data : list Z) :
  255 < width g \/ 255 < rows g -> ~ Forall is_byte (header g ++ data).
Proof.
  intros Hbig H. unfold header in H.
  inversion H as [|? ? Hw H']; subst. inversion H' as [|? ? Hr _]; subst.
  unfold is_byte in *. lia.
Qed.

(** C10: extraction checks the range of advance, bearingX and bearingY only:
    a bitmap of any width and any number of rows is extracted with these
    dimensions.  Serializing a glyph whose width or rows exceeds 255 never
    returns: it raises, and when the packer has returned (or the buffer is
    empty) what raises is the conversion of the header to bytes.  So every
    serialization that returns starts with the five header numbers, each
    within 0..255. *)
Theorem C10_width_rows_unchecked (g : Glyph) (bpp w r : Z) :
  0 <= w -> 0 <= r ->
  (exists g', from_face (blank_slot w r 0 0 0) [65] 0 false = ([], Ok g')
              /\ width g' = w /\ rows g' = r)
  /\ (255 < width g \/ 255 < rows g ->
      (forall out, to_bytes g bpp <> Ok out)
      /\ (buf g = []
          \/ (exists packed,
                process_bitmap_buffer (buf g) bpp (width g) (rows g) = Ok packed) ->
          to_bytes g bpp = Raise (ValueError BytesRange))
      /\ (bpp = 1 \/ bpp = 2 \/ bpp = 4 \/ bpp = 8 ->
          len (buf g) = width g * rows g ->
          to_bytes g bpp = Raise (ValueError BytesRange)))
  /\ (forall out, to_bytes g bpp = Ok out ->
                  firstn 5 out = header g /\ Forall is_byte (header g)).
Proof.
  intros Hw Hr. split; [|split].
  - rewrite from_face_consistent
      by (apply blank_slot_consistent; [assumption | assumption | reflexivity]).
    rewrite (normalize_no_drop _ _ _ _ 0 0 0 0 0);
      try reflexivity; try (cbn; lia).
    eexists. split; [reflexivity|]. split; reflexivity.
  - intros Hbig.
    assert (Hconv : buf g = []
            \/ (exists packed,
                  process_bitmap_buffer (buf g) bpp (width g) (rows g)
                  = Ok packed) ->
            to_bytes g bpp = Raise (ValueError BytesRange)).
    { rewrite to_bytes_unfold. intros [Hempty | [packed Hp]].
      - rewrite Hempty. apply bytes_raise. intros H.
        apply (header_not_bytes g [] Hbig). rewrite app_nil_r. exact H.
      - rewrite Hp. destruct (buf g) as [|x l]; apply bytes_raise; intros H.
        + apply (header_not_bytes g [] Hbig). rewrite app_nil_r. exact H.
        + apply (header_not_bytes g _ Hbig H). }
    split; [|split; [exact Hconv|]].
    + rewrite to_bytes_unfold. intros out H.
      destruct (buf g) as [|x l].
      * apply bytes_inv in H. destruct H as [_ H].
        apply (header_not_bytes g [] Hbig). rewrite app_nil_r. exact H.
      * destruct (process_bitmap_buffer _ _ _ _) as [packed|e]; [|discriminate].
        apply bytes_inv in H. destruct H as [_ H].
        apply (header_not_bytes g _ Hbig H).
    + intros Hbpp Hlen. apply Hconv.
      destruct (buf g) as [|x l] eqn:Ebuf; [left; reflexivity | right].
      rewrite <- Ebuf in *.
      apply (pack_total (buf g) bpp (width g) (rows g) Hbpp); [|exact Hlen].
      assert (0 < len (buf g)) by (rewrite Ebuf; unfold len; cbn [length]; lia).
      nia.
  - intros out H. rewrite to_bytes_unfold in H.
    destruct (buf g) as [|x l].
    + apply bytes_inv in H. destruct H as [-> H]. split; [reflexivity | exact H].
    + destruct (process_bitmap_buffer _ _ _ _) as [packed|e]; [|discriminate].
      apply bytes_inv in H. destruct H as [-> H].
      split; [reflexivity|]. apply Forall_app in H. apply H.
Qed.

Lemma C10_width_rows_unchecked_witness :
  (exists g', from_face (blank_slot 300 2 0 0 0) [65] 0 false = ([], Ok g')
              /\ width g' = 300 /\ rows g' = 2)
  /\ (255 < width (mkGlyph [65] 300 2 0 0 0 (repeat 0 600) 256 false)
      \/ 255 < rows (mkGlyph [65] 300 2 0 0 0 (repeat 0 600) 256 false) ->
      (forall out,
         to_bytes (mkGlyph [65] 300 2 0 0 0 (repeat 0 600) 256 false) 4 <> Ok out)
      /\ (buf (mkGlyph [65] 300 2 0 0 0 (repeat 0 600) 256 false) = []
          \/ (exists packed,
                process_bitmap_buffer
                  (buf (mkGlyph [65] 300 2 0 0 0 (repeat 0 600) 256 false)) 4
                  (width (mkGlyph [65] 300 2 0 0 0 (repeat 0 600) 256 false))
                  (rows (mkGlyph [65] 300 2 0 0 0 (repeat 0 600) 256 false))
                = Ok packed) ->
          to_bytes (mkGlyph [65] 300 2 0 0 0 (repeat 0 600) 256 false) 4
          = Raise (ValueError BytesRange))
      /\ (4 = 1 \/ 4 = 2 \/ 4 = 4 \/ 4 = 8 ->
          len (buf (mkGlyph [65] 300 2 0 0 0 (repeat 0 600) 256 false))
          = width (mkGlyph [65] 300 2 0 0 0 (repeat 0 600) 256 false)
            * rows (mkGlyph [65] 300 2 0 0 0 (repeat 0 600) 256 false) ->
          to_bytes (mkGlyph [65] 300 2 0 0 0 (repeat 0 600) 256 false) 4
          = Raise (ValueError BytesRange)))
  /\ (forall out,
        to_bytes (mkGlyph [65] 300 2 0 0 0 (repeat 0 600) 256 false) 4 = Ok out ->
        firstn 5 out = header (mkGlyph [65] 300 2 0 0 0 (repeat 0 600) 256 false)
        /\ Forall is_byte (header (mkGlyph [65] 300 2 0 0 0 (repeat 0 600) 256 false))).
Proof.
  apply (C10_width_rows_unchecked
           (mkGlyph [65] 300 2 0 0 0 (repeat 0 600) 256 false) 4 300 2); lia.
Defined.

(** * The vertical extent of a font *)

Lemma Forall2_of_maps {A B C} (f : A -> C) (g : B -> C) xs ys :
  map f xs = map g ys -> Forall2 (fun x y => f x = g y) xs ys.
Proof.
  revert ys. induction xs as [|x xs IH]; intros [|y ys] H;
    try discriminate H; constructor.
  - injection H as H _. exact H.
  - apply IH. injection H as _ H. exact H.
Qed.

Lemma io_ok_of_snd {A} (m : io A) (a : A) :
  snd m = Ok a -> exists out, m = (out, Ok a).
Proof. destruct m as [o r]. cbn. intros ->. exists o. reflexivity. Qed.

Lemma bind_ok {A B} (m : io A) (k : A -> io B) o1 a o2 b :
  m = (o1, Ok a) -> k a = (o2, Ok b) -> bind m k = (o1 ++ o2, Ok b).
Proof. intros -> H. unfold bind. rewrite H. reflexivity. Qed.

Lemma update_extent_set (self : FaceProcessor) (a b : Z) (g : Glyph) :
  update_extent (set_extent self a b) g
  = set_extent self (Z.min a (bearingY g - rows g)) (Z.max b (bearingY g)).
Proof.
  unfold update_extent, set_extent. cbn. f_equal. f_equal. lia.
Qed.

(** The loop of step 4 of [write_rust_file], from any state of the two
    accumulators. *)
Lemma extent_loop (self : FaceProcessor) (codes : list Z) :
  forall (gs : list Glyph) (a b : Z),
    Forall2 (fun i g => snd (from_face (face self [i]) [i] (shaveX self) false)
                        = Ok g)
            (filter (fun i => negb (skipped self i)) codes) gs ->
    exists out,
      io_for_each codes
        (fun i self =>
           let c := [i] in
           if islower i && negb (gen_normal self) then ret self
           else
             (glyph <- from_face (face self c) c (shaveX self) false ;;
              ret (update_extent self glyph))%io)
        (set_extent self a b)
      = (out,
         Ok (set_extent self
               (fold_left (fun m g => Z.min m (bearingY g - rows g)) gs a)
               (fold_left (fun m g => Z.max m (bearingY g)) gs b))).
Proof.
  induction codes as [|i codes IH]; intros gs a b H.
  - inversion H; subst. exists []. reflexivity.
  - cbn [io_for_each filter] in *. cbv zeta.
    change (gen_normal (set_extent self a b)) with (gen_normal self).
    change (face (set_extent self a b)) with (face self).
    change (shaveX (set_extent self a b)) with (shaveX self).
    unfold skipped in H at 1.
    destruct (islower i && negb (gen_normal self)); cbn [negb] in H.
    + rewrite bind_ret_l. apply IH. exact H.
    + inversion H as [|? g ? gs' Hg Hgs]; subst.
      apply io_ok_of_snd in Hg. destruct Hg as [o Hg].
      destruct (IH gs' (Z.min a (bearingY g - rows g)) (Z.max b (bearingY g)) Hgs)
        as [out Hout].
      eexists. eapply bind_ok.
      * eapply bind_ok; [exact Hg | reflexivity].
      * rewrite update_extent_set. exact Hout.
Qed.

(** The loop of step 1 of [write_rust_file]: the bytes of every glyph. *)
Lemma glyph_bytes_loop (self : FaceProcessor) (codes : list Z) :
  forall (gs : list Glyph) (bss : list (list Z)) (acc : list (Z * list Z)),
    Forall2 (fun i g => snd (from_face (face self [i]) [i] (shaveX self) false)
                        = Ok g)
            (filter (fun i => negb (skipped self i)) codes) gs ->
    Forall2 (fun g bs => to_bytes g (bpp self) = Ok bs) gs bss ->
    exists out,
      io_for_each codes
        (fun i glyphs =>
           let c := [i] in
           if islower i && negb (gen_normal self) then ret glyphs
           else
             (glyph <- from_face (face self c) c (shaveX self) false ;;
              arr_bytes <- lift (to_bytes glyph (bpp self)) ;;
              ret (glyphs ++ [(i, arr_bytes)]))%io)
        acc
      = (out,
         Ok (acc ++ combine (filter (fun i => negb (skipped self i)) codes) bss)).
Proof.
  induction codes as [|i codes IH]; intros gs bss acc H1 H2.
  - exists []. cbn. rewrite app_nil_r. reflexivity.
  - cbn [io_for_each filter] in *. cbv zeta.
    unfold skipped in H1 at 1. unfold skipped at 1.
    destruct (islower i && negb (gen_normal self)); cbn [negb] in *.
    + rewrite bind_ret_l. apply (IH gs bss acc H1 H2).
    + inversion H1 as [|? g ? gs' Hg Hgs]; subst.
      inversion H2 as [|? bs ? bss' Hb Hbss]; subst.
      apply io_ok_of_snd in Hg. destruct Hg as [o Hg].
      destruct (IH gs' bss' (acc ++ [(i, bs)]) Hgs Hbss) as [out Hout].
      eexists. eapply bind_ok.
      * eapply bind_ok; [exact Hg|].
        rewrite Hb. reflexivity.
      * rewrite Hout. cbn [combine]. rewrite <- app_assoc. reflexivity.
Qed.

(** The loop of [_write_c_file_content]: the definitions and the extent. *)
Lemma char_definition_loop (self : FaceProcessor) (codes : list Z) :
  forall (gs : list Glyph) (bss : list (list Z)) (a b : Z)
         (defs : list (Z * list Z)),
    Forall2 (fun i g => snd (from_face (face self [i]) [i] (shaveX self) false)
                        = Ok g)
            (filter (fun i => negb (skipped self i)) codes) gs ->
    Forall2 (fun g bs => to_bytes g (bpp self) = Ok bs) gs bss ->
    exists out,
      io_for_each codes
        (fun i '(self, defs) =>
           if islower i && negb (gen_normal self) then ret (self, defs)
           else
             ('(self, numbers) <- _write_char_definition self [i] ;;
              ret (self, defs ++ [(i, numbers)]))%io)
        (set_extent self a b, defs)
      = (out,
         Ok (set_extent self
               (fold_left (fun m g => Z.min m (bearingY g - rows g)) gs a)
               (fold_left (fun m g => Z.max m (bearingY g)) gs b),
             defs ++ combine (filter (fun i => negb (skipped self i)) codes) bss)).
Proof.
  induction codes as [|i codes IH]; intros gs bss a b defs H1 H2.
  - inversion H1; subst. exists []. cbn. rewrite app_nil_r. reflexivity.
  - cbn [io_for_each filter] in *.
    change (gen_normal (set_extent self a b)) with (gen_normal self).
    unfold skipped in H1 at 1. unfold skipped at 1.
    destruct (islower i && negb (gen_normal self)); cbn [negb] in *.
    + rewrite bind_ret_l. apply (IH gs bss a b defs H1 H2).
    + inversion H1 as [|? g ? gs' Hg Hgs]; subst.
      inversion H2 as [|? bs ? bss' Hb Hbss]; subst.
      apply io_ok_of_snd in Hg. destruct Hg as [o Hg].
      destruct (IH gs' bss' (Z.min a (bearingY g - rows g))
                  (Z.max b (bearingY g)) (defs ++ [(i, bs)]) Hgs Hbss)
        as [out Hout].
      eexists. eapply bind_ok.
      * eapply bind_ok.
        -- unfold _write_char_definition.
           change (face (set_extent self a b)) with (face self).
           change (shaveX (set_extent self a b)) with (shaveX self).
           change (bpp (set_extent self a b)) with (bpp self).
           eapply bind_ok; [exact Hg|].
           unfold print_metrics.
           rewrite bind_print, Hb. cbn [lift bind ret fst snd app].
           rewrite update_extent_set. reflexivity.
        -- reflexivity.
      * rewrite Hout. cbn [combine]. rewrite <- app_assoc. reflexivity.
Qed.

(** The two accumulators, seeded at 0, are the least [yMin] and the greatest
    [yMax] of the glyphs, capped at 0. *)
Lemma fold_min_spec (f : Glyph -> Z) (gs : list Glyph) (a : Z) :
  let m := fold_left (fun m g => Z.min m (f g)) gs a in
  m <= a /\ (forall g, In g gs -> m <= f g)
  /\ (m = a \/ exists g, In g gs /\ m = f g).
Proof.
  revert a. induction gs as [|g gs IH]; intros a; cbn [fold_left].
  - repeat split; [lia | intros g [] | left; reflexivity].
  - destruct (IH (Z.min a (f g))) as (H1 & H2 & H3). cbv zeta in *.
    repeat split.
    + lia.
    + intros g' [<- | Hg']; [lia | apply H2, Hg'].
    + destruct H3 as [H3 | (g' & Hg' & H3)].
      * destruct (Z.min_spec a (f g)) as [[_ E] | [_ E]].
        -- left. rewrite H3. exact E.
        -- right. exists g. split; [left; reflexivity | rewrite H3; exact E].
      * right. exists g'. split; [right; exact Hg' | exact H3].
Qed.

Lemma fold_max_spec (f : Glyph -> Z) (gs : list Glyph) (a : Z) :
  let m := fold_left (fun m g => Z.max m (f g)) gs a in
  a <= m /\ (forall g, In g gs -> f g <= m)
  /\ (m = a \/ exists g, In g gs /\ m = f g).
Proof.
  revert a. induction gs as [|g gs IH]; intros a; cbn [fold_left].
  - repeat split; [lia | intros g [] | left; reflexivity].
  - destruct (IH (Z.max a (f g))) as (H1 & H2 & H3). cbv zeta in *.
    repeat split.
    + lia.
    + intros g' [<- | Hg']; [lia | apply H2, Hg'].
    + destruct H3 as [H3 | (g' & Hg' & H3)].
      * destruct (Z.max_spec a (f g)) as [[_ E] | [_ E]].
        -- right. exists g. split; [left; reflexivity | rewrite H3; exact E].
        -- left. rewrite H3. exact E.
      * right. exists g'. split; [right; exact Hg' | exact H3].
Qed.

Lemma font_info_entry (gen : bool) (idx : option Z) (e : value_error)
    (upper : bool) (sz ymin ymax : Z) :
  (gen = true -> idx <> None) ->
  exists entry,
    (if gen then
       match idx with
       | None => raise (ValueError e)
       | Some i => ret (Some (mkFontInfo upper (Some i) sz (ymax - ymin) (- ymin)))
       end
     else ret None) = ([], Ok entry)
    /\ (gen = true ->
        exists fi, entry = Some fi
                   /\ baseline fi = - ymin /\ max_height fi = ymax - ymin).
Proof.
  intros H. destruct gen.
  - destruct idx as [i|]; [|exfalso; apply H; reflexivity].
    eexists. split; [reflexivity|]. intros _.
    eexists. split; [reflexivity|]. split; reflexivity.
  - exists None. split; [reflexivity|]. discriminate.
Qed.

Lemma set_extent_same (self : FaceProcessor) :
  set_extent self (font_ymin self) (font_ymax self) = self.
Proof. destruct self. reflexivity. Qed.

(** C9: the vertical extent of a font is the fold over the glyphs of the
    built variant, from accumulators seeded at 0, of
    [fontYMin = min(fontYMin, bearingY - rows)] and
    [fontYMax = max(fontYMax, bearingY)]; so [fontYMin] is the least
    [bearingY - rows], capped at 0 from above, and [fontYMax] the greatest
    [bearingY], capped at 0 from below; the font info written for each
    variant, to the Rust file and to the C file, has
    [baseline = -fontYMin] and [max_height = fontYMax - fontYMin].  The Rust
    path resets the accumulators to 0 itself; the C path starts from the
    zeros the constructor leaves. *)
Theorem C9_font_vertical_extent (self : FaceProcessor) (gs : list Glyph)
    (bss : list (list Z)) (gnp : Glyph) (bnp : list Z) :
  map (fun i => snd (from_face (face self [i]) [i] (shaveX self) false))
      (variant_codes (gen_normal self)) = map Ok gs ->
  map (fun g => to_bytes g (bpp self)) gs = map Ok bss ->
  snd (from_face (face self question_mark) question_mark (shaveX self) true)
  = Ok gnp ->
  to_bytes gnp (bpp self) = Ok bnp ->
  (gen_normal self = true -> font_idx self <> None) ->
  (gen_upper self = true -> font_idx_upper self <> None) ->
  let fontYMin := fold_left (fun m g => Z.min m (bearingY g - rows g)) gs 0 in
  let fontYMax := fold_left (fun m g => Z.max m (bearingY g)) gs 0 in
  (exists out self' data,
     write_rust_file self = (out, Ok (self', data))
     /\ font_ymin self' = fontYMin /\ font_ymax self' = fontYMax
     /\ (gen_normal self = true ->
         exists fi, font_info data = Some fi
                    /\ baseline fi = - fontYMin
                    /\ max_height fi = fontYMax - fontYMin)
     /\ (gen_upper self = true ->
         exists fi, font_info_upper data = Some fi
                    /\ baseline fi = - fontYMin
                    /\ max_height fi = fontYMax - fontYMin))
  /\ (font_ymin self = 0 -> font_ymax self = 0 ->
      exists out self' defs np infos,
        _write_c_file_content self = (out, Ok (self', (defs, np, infos)))
        /\ font_ymin self' = fontYMin /\ font_ymax self' = fontYMax
        /\ (gen_normal self || gen_upper self = true -> infos <> [])
        /\ (forall fi, In fi infos ->
                       baseline fi = - fontYMin
                       /\ max_height fi = fontYMax - fontYMin))
  /\ (fontYMin <= 0
      /\ (forall g, In g gs -> fontYMin <= bearingY g - rows g)
      /\ (fontYMin = 0 \/ exists g, In g gs /\ fontYMin = bearingY g - rows g))
  /\ (0 <= fontYMax
      /\ (forall g, In g gs -> bearingY g <= fontYMax)
      /\ (fontYMax = 0 \/ exists g, In g gs /\ fontYMax = bearingY g))
  /\ (forall out p,
        init (size self) (bpp self) (shaveX self) (gen_normal self)
             (gen_upper self) (font_idx self) (font_idx_upper self) (face self)
        = (out, Ok p) ->
        font_ymin p = 0 /\ font_ymax p = 0).
Proof.
  intros Hgs Hbss Hnp Hbnp Hidx Hidxu fontYMin fontYMax.
  apply Forall2_of_maps in Hgs. apply Forall2_of_maps in Hbss.
  apply io_ok_of_snd in Hnp. destruct Hnp as [onp Hnp].
  split; [|split; [|split; [|split]]].
  - destruct (glyph_bytes_loop self _ gs bss [] Hgs Hbss) as [o1 H1].
    destruct (extent_loop self _ gs 0 0 Hgs) as [o2 H2].
    fold fontYMin fontYMax in H2.
    destruct (font_info_entry (gen_normal self) (font_idx self) FontIdxUnset
                false (size self) fontYMin fontYMax Hidx) as (fi & Hfi & Hfi').
    destruct (font_info_entry (gen_upper self) (font_idx_upper self)
                FontIdxUpperUnset true (size self) fontYMin fontYMax Hidxu)
      as (fiu & Hfiu & Hfiu').
    exists (o1 ++ onp ++ [] ++ o2 ++ [] ++ [] ++ []),
           (set_extent self fontYMin fontYMax),
           (mkRustData (combine (variant_codes (gen_normal self)) bss)
                       bnp fi fiu).
    split; [|split; [reflexivity | split; [reflexivity | split; assumption]]].
    unfold write_rust_file.
    eapply bind_ok; [exact H1|].
    eapply bind_ok; [exact Hnp|].
    eapply bind_ok; [rewrite Hbnp; reflexivity|].
    eapply bind_ok; [exact H2|].
    eapply bind_ok; [exact Hfi|].
    eapply bind_ok; [exact Hfiu|].
    reflexivity.
  - intros Hmin Hmax.
    destruct (char_definition_loop self _ gs bss 0 0 [] Hgs Hbss) as [o1 H1].
    fold fontYMin fontYMax in H1.
    rewrite <- Hmin, <- Hmax, set_extent_same in H1 at 1.
    eexists. eexists. eexists. eexists. eexists.
    split; [|split; [|split; [|split]]].
    + unfold _write_c_file_content.
      eapply bind_ok; [exact H1|].
      cbv beta iota.
      eapply bind_ok; [exact Hnp|].
      eapply bind_ok; [cbn [bpp set_extent]; rewrite Hbnp; reflexivity|].
      reflexivity.
    + reflexivity.
    + reflexivity.
    + cbn [gen_normal gen_upper set_extent].
      destruct (gen_normal self), (gen_upper self); cbn; congruence.
    + cbn [gen_normal gen_upper set_extent].
      intros fi Hin. apply in_app_or in Hin.
      destruct Hin as [Hin | Hin];
        [destruct (gen_normal self) | destruct (gen_upper self)];
        cbn in Hin; try contradiction;
        destruct Hin as [<- | []]; split; reflexivity.
  - apply (fold_min_spec (fun g => bearingY g - rows g) gs 0).
  - apply (fold_max_spec bearingY gs 0).
  - intros out p. unfold init.
    destruct (negb (gen_normal self) && negb (gen_upper self));
      [discriminate|].
    intros [= _ <-]. split; reflexivity.
Qed.

Lemma C9_font_vertical_extent_witness :
  let fontYMin :=
    fold_left (fun m g => Z.min m (bearingY g - rows g)) demo_glyphs 0 in
  let fontYMax := fold_left (fun m g => Z.max m (bearingY g)) demo_glyphs 0 in
  (exists out self' data,
     write_rust_file demo_processor = (out, Ok (self', data))
     /\ font_ymin self' = fontYMin /\ font_ymax self' = fontYMax
     /\ (gen_normal demo_processor = true ->
         exists fi, font_info data = Some fi
                    /\ baseline fi = - fontYMin
                    /\ max_height fi = fontYMax - fontYMin)
     /\ (gen_upper demo_processor = true ->
         exists fi, font_info_upper data = Some fi
                    /\ baseline fi = - fontYMin
                    /\ max_height fi = fontYMax - fontYMin))
  /\ (font_ymin demo_processor = 0 -> font_ymax demo_processor = 0 ->
      exists out self' defs np infos,
        _write_c_file_content demo_processor
        = (out, Ok (self', (defs, np, infos)))
        /\ font_ymin self' = fontYMin /\ font_ymax self' = fontYMax
        /\ (gen_normal demo_processor || gen_upper demo_processor = true ->
            infos <> [])
        /\ (forall fi, In fi infos ->
                       baseline fi = - fontYMin
                       /\ max_height fi = fontYMax - fontYMin))
  /\ (fontYMin <= 0
      /\ (forall g, In g demo_glyphs -> fontYMin <= bearingY g - rows g)
      /\ (fontYMin = 0
          \/ exists g, In g demo_glyphs /\ fontYMin = bearingY g - rows g))
  /\ (0 <= fontYMax
      /\ (forall g, In g demo_glyphs -> bearingY g <= fontYMax)
      /\ (fontYMax = 0 \/ exists g, In g demo_glyphs /\ fontYMax = bearingY g))
  /\ (forall out p,
        init (size demo_processor) (bpp demo_processor) (shaveX demo_processor)
             (gen_normal demo_processor) (gen_upper demo_processor)
             (font_idx demo_processor) (font_idx_upper demo_processor)
             (face demo_processor)
        = (out, Ok p) ->
        font_ymin p = 0 /\ font_ymax p = 0).
Proof.
  apply (C9_font_vertical_extent demo_processor demo_glyphs demo_bytes
           demo_nonprintable demo_nonprintable_bytes).
  - vm_compute. reflexivity.
  - vm_compute. reflexivity.
  - vm_compute. reflexivity.
  - vm_compute. reflexivity.
  - intros _. discriminate.
  - intros H. discriminate H.
Defined.

(** * Dropping pixel columns *)

Lemma flat_map_map {X Y W} (f : Y -> list W) (g : X -> Y) (xs : list X) :
  flat_map f (map g xs) = flat_map (fun x => f (g x)) xs.
Proof.
  induction xs as [|x xs IH]; [reflexivity|].
  cbn [map flat_map]. rewrite IH. reflexivity.
Qed.

Lemma seq_blocks (w h : nat) :
  seq 0 (h * w) = flat_map (fun y => seq (y * w) w) (seq 0 h).
Proof.
  induction h as [|h IH]; [reflexivity|].
  rewrite seq_S, flat_map_app. cbn [flat_map Nat.add]. rewrite app_nil_r, <- IH.
  replace (S h * w)%nat with (h * w + w)%nat by lia.
  rewrite seq_app. reflexivity.
Qed.

(** One row: keeping the columns from [drop] on is [skipn]. *)
Lemma keep_columns_row (row : list Z) (drop : Z) :
  flat_map (fun x => if Z.of_nat x >=? drop then [nth x row 0] else [])
           (seq 0 (length row))
  = skipn (Z.to_nat drop) row.
Proof.
  revert drop. induction row as [|a row IH]; intros drop.
  - cbn. rewrite skipn_nil. reflexivity.
  - cbn [length seq flat_map]. rewrite <- seq_shift, flat_map_map.
    cbn [nth].
    rewrite (flat_map_ext_in _
      (fun x => if Z.of_nat x >=? drop - 1 then [nth x row 0] else []))
      by (intros x _; replace (Z.of_nat (S x) >=? drop)
                        with (Z.of_nat x >=? drop - 1); [reflexivity|];
          destruct (Z.geb_spec (Z.of_nat x) (drop - 1)),
                   (Z.geb_spec (Z.of_nat (S x)) drop); lia || reflexivity).
    rewrite IH.
    destruct (Z.geb_spec (Z.of_nat 0) drop) as [H | H].
    + replace (Z.to_nat drop) with 0%nat by lia.
      replace (Z.to_nat (drop - 1)) with 0%nat by lia. reflexivity.
    + replace (Z.to_nat drop) with (S (Z.to_nat (drop - 1))) by lia.
      reflexivity.
Qed.

(** On a well-formed buffer [drop_left_columns] removes the first [drop]
    pixels of every row. *)
Lemma drop_left_columns_rows (buf : list Z) (w h drop : Z) :
  0 < w -> len buf = w * h ->
  drop_left_columns buf w drop
  = Ok (flat_map (fun y => skipn (Z.to_nat drop) (pixel_row buf w y))
                 (range 0 h 1)).
Proof.
  intros Hw Hlen.
  assert (Hh : 0 <= h) by (pose proof (len_nonneg buf); nia).
  rewrite drop_left_columns_ok by assumption. f_equal.
  rewrite !range_by_1, !Z.sub_0_r, !flat_map_map.
  assert (Hn : Z.to_nat (len buf) = (Z.to_nat h * Z.to_nat w)%nat).
  { rewrite Hlen, Z2Nat.inj_mul by lia. apply Nat.mul_comm. }
  rewrite Hn, seq_blocks, flat_map_flat_map.
  apply flat_map_ext_in. intros y Hy. apply in_seq in Hy.
  assert (Hy' : 0 <= Z.of_nat y < h) by lia.
  assert (Hrow : length (pixel_row buf w (0 + Z.of_nat y)) = Z.to_nat w).
  { apply pixel_row_length with (h := h); lia. }
  rewrite <- keep_columns_row, Hrow.
  replace (seq (y * Z.to_nat w) (Z.to_nat w))
    with (map (fun x => (y * Z.to_nat w + x)%nat) (seq 0 (Z.to_nat w))).
  - rewrite flat_map_map. apply flat_map_ext_in. intros x Hx.
    apply in_seq in Hx.
    replace ((0 + Z.of_nat (y * Z.to_nat w + x)) mod w) with (Z.of_nat x).
    + destruct (Z.of_nat x >=? drop); [|reflexivity]. f_equal.
      rewrite (pixel_row_nth buf w h) by lia.
      unfold pixel. f_equal. lia.
    + apply Z.mod_unique with (q := Z.of_nat y); lia.
  - clear. generalize (y * Z.to_nat w)%nat as a. intros a.
    generalize (Z.to_nat w) as n. intros n. revert a.
    induction n as [|n IH]; intros a; [reflexivity|].
    cbn [seq map]. rewrite Nat.add_0_r. f_equal.
    rewrite <- seq_shift, map_map, <- (IH (S a)).
    apply map_ext. intros x. lia.
Qed.

Lemma kept_columns_row_length (buf : list Z) (w h drop y : Z) :
  0 < w -> 0 <= drop <= w -> len buf = w * h -> In y (range 0 h 1) ->
  length (skipn (Z.to_nat drop) (pixel_row buf w y)) = Z.to_nat (w - drop).
Proof.
  intros Hw Hd Hlen Hy. apply in_range_by_1 in Hy.
  rewrite length_skipn, (pixel_row_length buf w h) by (assumption || lia).
  lia.
Qed.

Lemma kept_columns_length (buf : list Z) (w h drop : Z) :
  0 < w -> 0 <= drop <= w -> len buf = w * h ->
  len (flat_map (fun y => skipn (Z.to_nat drop) (pixel_row buf w y))
                (range 0 h 1))
  = (w - drop) * h.
Proof.
  intros Hw Hd Hlen.
  assert (Hh : 0 <= h) by (pose proof (len_nonneg buf); nia).
  unfold len.
  rewrite (flat_map_uniform_length _ _ (Z.to_nat (w - drop)))
    by (intros y Hy; apply kept_columns_row_length with (h := h); assumption).
  rewrite range_by_1_length, Nat2Z.inj_mul, !Z2Nat.id by lia. lia.
Qed.

Lemma kept_columns_pixel (buf : list Z) (w h drop y x : Z) :
  0 < w -> 0 <= drop <= w -> len buf = w * h ->
  0 <= y < h -> 0 <= x < w - drop ->
  pixel (flat_map (fun y => skipn (Z.to_nat drop) (pixel_row buf w y))
                  (range 0 h 1))
        (w - drop) y x
  = pixel buf w y (x + drop).
Proof.
  intros Hw Hd Hlen Hy Hx. unfold pixel at 1.
  replace (Z.to_nat (y * (w - drop) + x))
    with (Z.to_nat y * Z.to_nat (w - drop) + Z.to_nat x)%nat by nia.
  rewrite (flat_map_uniform_nth _ _ (Z.to_nat (w - drop)) _ _ 0 0);
    [| intros y' Hy'; apply kept_columns_row_length with (h := h); assumption
     | rewrite range_by_1_length; lia
     | lia ].
  rewrite range_by_1_nth, Z2Nat.id by lia.
  rewrite nth_skipn, (pixel_row_nth buf w h) by (assumption || lia).
  f_equal. lia.
Qed.

(** X1: on a buffer of [w] by [h] pixels, with [0 <= drop <= w],
    [drop_left_columns] returns the buffer of [w - drop] by [h] pixels
    whose pixel [(y, x)] is the pixel [(y, x + drop)] of the input. *)
Theorem X1_drop_left_columns_pixels (buf : list Z) (w h drop : Z) :
  0 < w -> 0 <= drop <= w -> len buf = w * h ->
  exists out,
    drop_left_columns buf w drop = Ok out
    /\ len out = (w - drop) * h
    /\ forall y x, 0 <= y < h -> 0 <= x < w - drop ->
         pixel out (w - drop) y x = pixel buf w y (x + drop).
Proof.
  intros Hw Hd Hlen.
  rewrite (drop_left_columns_rows buf w h drop Hw Hlen).
  eexists. split; [reflexivity|]. split.
  - apply kept_columns_length; assumption.
  - intros y x Hy Hx. apply kept_columns_pixel with (h := h); assumption.
Qed.

Lemma X1_drop_left_columns_pixels_witness :
  exists out,
    drop_left_columns [1; 2; 3; 4; 5; 6] 3 1 = Ok out
    /\ len out = (3 - 1) * 2
    /\ forall y x, 0 <= y < 2 -> 0 <= x < 3 - 1 ->
         pixel out (3 - 1) y x = pixel [1; 2; 3; 4; 5; 6] 3 y (x + 1).
Proof.
  apply (X1_drop_left_columns_pixels [1; 2; 3; 4; 5; 6] 3 2 1);
    [lia | lia | reflexivity].
Defined.

Lemma for_each_head_raise {X S} (body : X -> S -> result S) x xs s e :
  body x s = Raise e -> for_each (x :: xs) body s = Raise e.
Proof. intros H. cbn [for_each]. rewrite H. reflexivity. Qed.

(** X2: the edges of [drop_left_columns], on any buffer: a width of 0 raises
    ZeroDivisionError as soon as there is a pixel; an empty buffer gives an
    empty buffer whatever the width; on a positive width, a [drop] of 0 or
    less returns the buffer unchanged and a [drop] of the width or more
    returns the empty buffer. *)
Theorem X2_drop_left_columns_edges (buf : list Z) (w drop : Z) :
  (w = 0 -> buf <> [] -> drop_left_columns buf w drop = Raise ZeroDivisionError)
  /\ drop_left_columns [] w drop = Ok []
  /\ (0 < w -> drop <= 0 -> drop_left_columns buf w drop = Ok buf)
  /\ (0 < w -> w <= drop -> drop_left_columns buf w drop = Ok []).
Proof.
  split; [|split; [|split]].
  - intros -> Hne. destruct buf as [|a buf]; [congruence|].
    unfold drop_left_columns. rewrite range_by_1.
    unfold len. cbn [length]. rewrite Z.sub_0_r, Nat2Z.id.
    cbn [seq map]. apply for_each_head_raise. reflexivity.
  - reflexivity.
  - intros Hw Hd. rewrite drop_left_columns_ok by assumption. f_equal.
    rewrite range_by_1, Z.sub_0_r, flat_map_map.
    unfold len. rewrite Nat2Z.id.
    rewrite <- (keep_columns_row buf 0) at 2.
    apply flat_map_ext_in. intros i _.
    pose proof (Z.mod_pos_bound (Z.of_nat i) w Hw).
    rewrite Z.add_0_l, Nat2Z.id.
    destruct (Z.geb_spec (Z.of_nat i mod w) drop); [|lia].
    destruct (Z.geb_spec (Z.of_nat i) 0); [reflexivity | lia].
  - intros Hw Hd. rewrite drop_left_columns_ok by assumption. f_equal.
    induction (range 0 (len buf) 1) as [|i l IH]; [reflexivity|].
    cbn [flat_map]. rewrite IH.
    pose proof (Z.mod_pos_bound i w Hw).
    destruct (Z.geb_spec (i mod w) drop); [lia | reflexivity].
Qed.

(** * What extraction guarantees *)

Lemma rasterizer_consistent_buffer (glyph : GlyphSlot) (c : str) :
  rasterizer_consistent glyph c = true ->
  len c = 1
  /\ len (Bitmap.buffer (bitmap glyph))
     = Bitmap.width (bitmap glyph) * Bitmap.rows (bitmap glyph).
Proof.
  unfold rasterizer_consistent. intros H.
  repeat (apply andb_prop in H; let H' := fresh "H" in destruct H as [H H']).
  repeat match goal with
         | E : (_ =? _) = true |- _ => apply Z.eqb_eq in E
         end.
  split; [assumption|]. congruence.
Qed.

Lemma Forall_drop_left_columns (buf : list Z) (w h drop : Z) (out : list Z) :
  0 < w -> len buf = w * h -> Forall is_byte buf ->
  drop_left_columns buf w drop = Ok out -> Forall is_byte out.
Proof.
  intros Hw Hlen Hbuf.
  rewrite (drop_left_columns_rows buf w h drop Hw Hlen). intros [= <-].
  apply Forall_forall. intros x Hx. apply in_flat_map in Hx.
  destruct Hx as (y & _ & Hx).
  pose proof (Forall_pixel_row buf w y Hbuf) as Hrow.
  rewrite Forall_forall in Hrow. apply Hrow.
  rewrite <- (firstn_skipn (Z.to_nat drop) (pixel_row buf w y)).
  apply in_or_app. right. exact Hx.
Qed.

(** A glyph that [from_face] returns is well-formed: its buffer holds
    [width * rows] pixels, bytes when the bitmap's are, and its three metrics
    are bytes. *)
Lemma from_face_well_formed glyph c shaveX inv out g :
  from_face glyph c shaveX inv = (out, Ok g) ->
  len (buf g) = width g * rows g
  /\ is_byte (advance g) /\ is_byte (bearingX g) /\ is_byte (bearingY g)
  /\ (Forall is_byte (Bitmap.buffer (bitmap glyph)) -> Forall is_byte (buf g)).
Proof.
  intros H. apply from_face_ok_consistent in H. destruct H as [Hcons H].
  apply rasterizer_consistent_buffer in Hcons. destruct Hcons as [Hc Hlen].
  apply normalize_ok_inv in H. cbv zeta in H.
  destruct H as (adv & bx & rl & adv' & o1 & _ & _ & Hadv & Hbx & Hby
                 & Hbyg & _ & _ & Hrows & _ & Hcol).
  rewrite Hrows, Hbyg. unfold is_byte.
  destruct ((rl >? 0) && (Bitmap.width (bitmap glyph) >? 0)) eqn:E.
  - apply andb_prop in E. destruct E as [Erl Ew].
    rewrite Z.gtb_ltb in Erl, Ew. apply Z.ltb_lt in Erl, Ew.
    destruct Hcol as (_ & Hrlw & Hrla & Hw & Ha & Hdrop).
    rewrite Hw, Ha.
    pose proof Hdrop as Hdrop'.
    rewrite (drop_left_columns_rows _ _ _ rl Ew Hlen) in Hdrop'.
    injection Hdrop' as Hout.
    repeat split; try lia.
    + rewrite <- Hout. apply kept_columns_length; assumption || lia.
    + intros Hbytes.
      apply (Forall_drop_left_columns _ _ _ rl (buf g) Ew Hlen Hbytes Hdrop).
  - destruct Hcol as (Hw & Ha & Hbuf). rewrite Hw, Ha, Hbuf.
    repeat split; try assumption; try lia. intros Hbytes. exact Hbytes.
Qed.

(** X3: every glyph that [from_face] returns satisfies the invariants of the
    data model: its buffer holds [width * rows] pixels, advance, bearingX
    and bearingY are within 0..255, [rows] is the bitmap's, [char] is the
    one-character string asked for, and the pixels are bytes when the
    bitmap's are. *)
Theorem X3_from_face_invariants (glyph : GlyphSlot) (c : str) (shaveX : Z)
    (inv : bool) (out : list line) (g : Glyph) :
  from_face glyph c shaveX inv = (out, Ok g) ->
  len (buf g) = width g * rows g
  /\ 0 <= advance g <= 255
  /\ 0 <= bearingX g <= 255
  /\ 0 <= bearingY g <= 255
  /\ rows g = Bitmap.rows (bitmap glyph)
  /\ char g = c /\ len c = 1
  /\ inverse_colors g = inv
  /\ (Forall is_byte (Bitmap.buffer (bitmap glyph)) -> Forall is_byte (buf g)).
Proof.
  intros H.
  destruct (from_face_well_formed _ _ _ _ _ _ H) as (Hlen & Ha & Hbx & Hby & Hb).
  apply from_face_ok_consistent in H. destruct H as [Hcons H].
  apply rasterizer_consistent_buffer in Hcons. destruct Hcons as [Hc _].
  apply normalize_ok_inv in H. cbv zeta in H.
  destruct H as (? & ? & ? & ? & ? & _ & _ & _ & _ & _
                 & _ & _ & Hchar & Hrows & Hinv & _).
  unfold is_byte in *.
  repeat split; try assumption; try lia.
Qed.

Lemma X3_from_face_invariants_witness :
  len (buf (demo_glyph [103] false))
  = width (demo_glyph [103] false) * rows (demo_glyph [103] false)
  /\ 0 <= advance (demo_glyph [103] false) <= 255
  /\ 0 <= bearingX (demo_glyph [103] false) <= 255
  /\ 0 <= bearingY (demo_glyph [103] false) <= 255
  /\ rows (demo_glyph [103] false) = Bitmap.rows (bitmap (demo_face [103]))
  /\ char (demo_glyph [103] false) = [103] /\ len [103] = 1
  /\ inverse_colors (demo_glyph [103] false) = false
  /\ (Forall is_byte (Bitmap.buffer (bitmap (demo_face [103]))) ->
      Forall is_byte (buf (demo_glyph [103] false))).
Proof.
  apply (X3_from_face_invariants (demo_face [103]) [103] 0 false []
           (demo_glyph [103] false)).
  reflexivity.
Defined.

(** X4: with a positive [shaveX], on a bitmap with at least one column,
    every glyph returned has given up exactly [shaveX] pixels on the left:
    its advance is the rasterizer's advance less [shaveX], and what bearingX
    lost plus the columns the bitmap lost is [shaveX]; the pixels kept are
    the rightmost columns of the bitmap. *)
Theorem X4_shave_is_conserved (glyph : GlyphSlot) (c : str) (shaveX : Z)
    (inv : bool) (out : list line) (g : Glyph) :
  0 < shaveX -> 0 < Bitmap.width (bitmap glyph) ->
  from_face glyph c shaveX inv = (out, Ok g) ->
  let adv0 := Metrics.horiAdvance (metrics glyph) / 64 in
  let bx0 := Metrics.horiBearingX (metrics glyph) / 64 in
  let w0 := Bitmap.width (bitmap glyph) in
  let dropped := w0 - width g in
  advance g = adv0 - shaveX
  /\ (bx0 - bearingX g) + dropped = shaveX
  /\ 0 <= dropped < w0
  /\ (0 < dropped -> bearingX g = 0)
  /\ forall y x, 0 <= y < rows g -> 0 <= x < width g ->
       pixel (buf g) (width g) y x
       = pixel (Bitmap.buffer (bitmap glyph)) w0 y (x + dropped).
Proof.
  intros Hs Hw0 H adv0 bx0 w0 dropped.
  apply from_face_ok_consistent in H. destruct H as [Hcons H].
  apply rasterizer_consistent_buffer in Hcons. destruct Hcons as [_ Hlen].
  apply normalize_ok_inv in H. cbv zeta in H.
  destruct H as (adv & bx & rl & adv' & o1 & Hdls & Hfold & _ & Hbx & _
                 & _ & _ & _ & Hrows & _ & Hcol).
  fold adv0 bx0 in Hdls. fold w0 in Hcol, Hlen.
  unfold discard_left_space in Hdls.
  replace (shaveX >? 0) with true in Hdls
    by (symmetry; rewrite Z.gtb_ltb; apply Z.ltb_lt; exact Hs).
  injection Hdls as <- <- <-.
  unfold fold_negative_bearingX in Hfold.
  destruct (Z.ltb_spec (bx0 - Z.min adv0 (Z.min bx0 shaveX)) 0) as [Hn | Hn];
    [lia|].
  injection Hfold as _ <- Hbxg.
  replace (w0 >? 0) with true in Hcol
    by (symmetry; rewrite Z.gtb_ltb; apply Z.ltb_lt; exact Hw0).
  rewrite andb_true_r in Hcol. rewrite Hrows.
  destruct (Z.gtb_spec (shaveX - Z.min adv0 (Z.min bx0 shaveX)) 0) as [Hrl | Hrl].
  - destruct Hcol as (Hz & Hrlw & _ & Hwg & Hag & Hdrop).
    pose proof Hdrop as Hout.
    rewrite (drop_left_columns_rows _ _ _ _ Hw0 Hlen) in Hout.
    injection Hout as Hout.
    subst dropped. rewrite Hwg, Hag.
    repeat split; try lia.
    intros y x Hy Hx. rewrite <- Hout.
    etransitivity;
      [apply (kept_columns_pixel _ w0 (Bitmap.rows (bitmap glyph)));
       assumption || lia|].
    f_equal. lia.
  - destruct Hcol as (Hwg & Hag & Hbuf).
    subst dropped. rewrite Hwg, Hag, Hbuf.
    repeat split; try lia.
    intros y x Hy Hx. f_equal. lia.
Qed.

Lemma X4_shave_is_conserved_witness :
  let glyph := mkGlyphSlot (Bitmap.mk 3 2 3 [1; 2; 3; 4; 5; 6] 256)
                           (Metrics.mk 192 128 640 0 64) in
  let g := mkGlyph [66] 2 2 9 0 1 [2; 3; 5; 6] 256 false in
  let adv0 := Metrics.horiAdvance (metrics glyph) / 64 in
  let bx0 := Metrics.horiBearingX (metrics glyph) / 64 in
  let w0 := Bitmap.width (bitmap glyph) in
  let dropped := w0 - width g in
  advance g = adv0 - 1
  /\ (bx0 - bearingX g) + dropped = 1
  /\ 0 <= dropped < w0
  /\ (0 < dropped -> bearingX g = 0)
  /\ forall y x, 0 <= y < rows g -> 0 <= x < width g ->
       pixel (buf g) (width g) y x
       = pixel (Bitmap.buffer (bitmap glyph)) w0 y (x + dropped).
Proof.
  apply (X4_shave_is_conserved
           (mkGlyphSlot (Bitmap.mk 3 2 3 [1; 2; 3; 4; 5; 6] 256)
                        (Metrics.mk 192 128 640 0 64))
           [66] 1 false [Removed_columns [66] 1]
           (mkGlyph [66] 2 2 9 0 1 [2; 3; 5; 6] 256 false)).
  - lia.
  - cbn. lia.
  - reflexivity.
Defined.

Lemma bind_raise_inv {A B} (m : io A) (k : A -> io B) out e :
  bind m k = (out, Raise e) ->
  m = (out, Raise e)
  \/ exists o1 a o2, m = (o1, Ok a) /\ k a = (o2, Raise e) /\ out = o1 ++ o2.
Proof.
  unfold bind. destruct m as [o1 [a | e']].
  - destruct (k a) as [o2 r] eqn:E. intros [= <- ->].
    right. exists o1, a, o2. auto.
  - intros [= <- <-]. left. reflexivity.
Qed.

Lemma assert_raise_inv (b : bool) (a : assertion) out e :
  assert b a = (out, Raise e) -> e = AssertionError a /\ out = [].
Proof. destruct b; [discriminate | intros [= <- <-]; auto]. Qed.

(** Steps through a [bind] that raised: either its first part raised, or it
    returned and the rest raised. *)
Ltac raised H :=
  apply bind_raise_inv in H;
  destruct H as [H | (? & ? & ? & _ & H & _)].

Ltac by_assertion H :=
  apply assert_raise_inv in H; destruct H as [-> _];
  left; eexists; reflexivity.

Lemma discard_left_pixels_errors c buf w adv bx rl out e :
  discard_left_pixels c buf w adv bx rl = (out, Raise e) ->
  exists a, e = AssertionError a.
Proof.
  unfold discard_left_pixels.
  destruct ((rl >? 0) && (w >? 0)) eqn:Ecol; [|discriminate].
  apply andb_prop in Ecol. destruct Ecol as [_ Ew].
  rewrite Z.gtb_ltb in Ew. apply Z.ltb_lt in Ew.
  rewrite drop_left_columns_ok by assumption.
  intros H.
  assert (Hgoal : (exists a, e = AssertionError a) \/ False);
    [|destruct Hgoal as [Hg | []]; exact Hg].
  raised H; [by_assertion H|].
  raised H; [discriminate H|].
  raised H; [by_assertion H|].
  raised H; [by_assertion H|].
  raised H; discriminate H.
Qed.

(** X5: the only exceptions [from_face] raises are the AssertionError of one
    of its asserts and the ValueError for a negative bearingX; the ValueError
    is raised only when [shaveX] is not positive, the rasterizer's bearingX is
    negative and the character is not allow-listed, and nothing has been
    printed by then.  With a positive [shaveX] it is never raised. *)
Theorem X5_from_face_errors (glyph : GlyphSlot) (c : str) (shaveX : Z)
    (inv : bool) (out : list line) (e : exn) :
  from_face glyph c shaveX inv = (out, Raise e) ->
  (exists a, e = AssertionError a)
  \/ (e = ValueError (NegativeBearingX c)
      /\ shaveX <= 0
      /\ Metrics.horiBearingX (metrics glyph) / 64 < 0
      /\ str_in c MODIFY_BEARING_X = false
      /\ rasterizer_consistent glyph c = true
      /\ out = []).
Proof.
  intros H. destruct (rasterizer_consistent glyph c) eqn:Hcons.
  - rewrite from_face_consistent in H by assumption.
    unfold normalize in H.
    destruct (discard_left_space _ _ shaveX) as [[adv bx] rl] eqn:Hdls.
    apply bind_raise_inv in H.
    destruct H as [H | (o1 & [adv' bx'] & o2 & _ & H & _)].
    + unfold fold_negative_bearingX in H.
      destruct (Z.ltb_spec bx 0) as [Hneg | Hneg]; [|discriminate H].
      destruct (str_in c MODIFY_BEARING_X) eqn:Hallow; [discriminate H|].
      injection H as <- <-.
      destruct (discard_left_space_negative _ _ _ _ _ _ Hdls Hneg)
        as (Hs & _ & Hbx & _).
      right. repeat split; try assumption; try reflexivity. lia.
    + raised H; [by_assertion H|].
      raised H; [by_assertion H|].
      apply bind_raise_inv in H.
      destruct H as [H | (? & by1 & ? & _ & H & _)].
      { unfold normalize_bearingY in H.
        destruct (_ <? 0); discriminate H. }
      raised H; [by_assertion H|].
      apply bind_raise_inv in H.
      destruct H as [H | (? & [[? ?] ?] & ? & _ & H & _)].
      * left. eapply discard_left_pixels_errors. exact H.
      * discriminate H.
  - destruct (from_face_inconsistent glyph c shaveX inv Hcons) as [a Ha].
    rewrite Ha in H. injection H as <- <-. left. exists a. reflexivity.
Qed.

Lemma X5_from_face_errors_witness :
  (exists a, ValueError (NegativeBearingX [66]) = AssertionError a)
  \/ (ValueError (NegativeBearingX [66]) = ValueError (NegativeBearingX [66])
      /\ 0 <= 0
      /\ Metrics.horiBearingX (metrics (blank_slot 1 1 10 (-1) 1)) / 64 < 0
      /\ str_in [66] MODIFY_BEARING_X = false
      /\ rasterizer_consistent (blank_slot 1 1 10 (-1) 1) [66] = true
      /\ @nil line = []).
Proof.
  apply (X5_from_face_errors (blank_slot 1 1 10 (-1) 1) [66] 0 false []
           (ValueError (NegativeBearingX [66]))).
  reflexivity.
Defined.

Lemma normalize_flag glyph c shaveX inv :
  normalize glyph c shaveX inv
  = io_map (fun g => with_inverse_colors g inv) (normalize glyph c shaveX false).
Proof.
  unfold normalize.
  destruct (discard_left_space _ _ shaveX) as [[adv bx] rl].
  unfold fold_negative_bearingX, normalize_bearingY, discard_left_pixels,
    assert, io_map.
  repeat (cbn [bind ret raise print lift app fst snd];
          match goal with
          | |- context [if ?b then _ else _] => destruct b
          | |- context [drop_left_columns ?a ?b ?c] =>
              destruct (drop_left_columns a b c)
          end);
    reflexivity.
Qed.

Lemma from_face_flag (glyph : GlyphSlot) (c : str) (shaveX : Z) (inv : bool) :
  from_face glyph c shaveX inv
  = io_map (fun g => with_inverse_colors g inv) (from_face glyph c shaveX false).
Proof.
  unfold from_face. rewrite (normalize_flag glyph c shaveX inv).
  destruct (check_rasterizer glyph c) as [o [[] | e]]; [|reflexivity].
  destruct (normalize glyph c shaveX false) as [o' [g | e]]; reflexivity.
Qed.

(** X6: [inverse_colors] is carried as a flag only: extraction with one
    value of the flag prints the same lines and raises the same exception as
    with the other, and when it returns, the glyph is the same but for the
    flag. *)
Theorem X6_inverse_colors_is_a_flag (glyph : GlyphSlot) (c : str) (shaveX : Z)
    (inv1 inv2 : bool) :
  from_face glyph c shaveX inv2
  = io_map (fun g => with_inverse_colors g inv2) (from_face glyph c shaveX inv1).
Proof.
  rewrite (from_face_flag glyph c shaveX inv2), (from_face_flag glyph c shaveX inv1).
  destruct (from_face glyph c shaveX false) as [o [g | e]]; reflexivity.
Qed.

(** * Serialized glyphs *)

Lemma pack_length (buf : list Z) (bpp w h : Z) :
  bpp = 1 \/ bpp = 2 \/ bpp = 4 \/ bpp = 8 ->
  0 <= w -> 0 <= h -> len buf = w * h ->
  forall packed, process_bitmap_buffer buf bpp w h = Ok packed ->
                 len packed = packed_length bpp w h.
Proof.
  intros Hbpp Hw Hh Hlen packed. unfold process_bitmap_buffer, packed_length.
  destruct Hbpp as [-> | [-> | [-> | ->]]].
  - change (1 =? 1) with true. cbv iota. change 8 with (Z.of_nat 8) at 1 2.
    rewrite packed_linear by (lia || apply pack_bpp1_total).
    intros [= <-]. rewrite packed_linear_length by lia. rewrite Hlen. reflexivity.
  - change (2 =? 1) with false. change (2 =? 2) with true. cbv iota.
    change 4 with (Z.of_nat 4) at 1 2.
    rewrite packed_linear by (lia || apply pack_bpp2_total).
    intros [= <-]. rewrite packed_linear_length by lia. rewrite Hlen. reflexivity.
  - change (4 =? 1) with false. change (4 =? 2) with false.
    change (4 =? 4) with true. cbv iota.
    rewrite packed_bpp4 by assumption.
    intros [= <-]. apply packed_bpp4_length; assumption.
  - cbn. intros [= <-]. exact Hlen.
Qed.

Lemma packed_length_empty (bpp w h : Z) :
  0 <= w -> 0 <= h -> w * h = 0 -> packed_length bpp w h = 0.
Proof.
  intros Hw Hh H. unfold packed_length, ceil_div. rewrite H.
  assert (Hc : h = 0 \/ w = 0) by nia.
  destruct (bpp =? 1); [reflexivity|].
  destruct (bpp =? 2); [reflexivity|].
  destruct (bpp =? 4); [|reflexivity].
  destruct Hc as [-> | ->]; reflexivity || (cbn; lia).
Qed.

Lemma Forall_map_process_byte (g : Glyph) (l : list Z) :
  Forall is_byte l -> Forall is_byte (map (process_byte g) l).
Proof.
  intros H. apply Forall_forall. intros x Hx. apply in_map_iff in Hx.
  destruct Hx as (b & <- & Hb). rewrite Forall_forall in H.
  unfold process_byte. destruct (inverse_colors g); [apply xor_byte|]; apply H, Hb.
Qed.

Lemma invert_involutive (x : Z) : invert (invert x) = x.
Proof.
  unfold invert. rewrite Z.lxor_assoc, Z.lxor_nilpotent. apply Z.lxor_0_r.
Qed.

Lemma process_byte_involutive (g : Glyph) (b : Z) :
  process_byte g (process_byte g b) = b.
Proof.
  unfold process_byte. destruct (inverse_colors g); [|reflexivity].
  apply invert_involutive.
Qed.

Lemma slice_nil {A} (i j : Z) : slice (@nil A) i j = [].
Proof. unfold slice. rewrite skipn_nil. apply firstn_nil. Qed.

Lemma padded_samples_empty (bpp w h : Z) :
  0 <= w -> 0 <= h -> w * h = 0 -> padded_samples bpp w h [] = [].
Proof.
  intros Hw Hh H. unfold padded_samples. destruct (bpp =? 4); [|reflexivity].
  apply length_zero_iff_nil.
  rewrite (flat_map_uniform_length _ _ 0%nat); [lia|].
  intros y Hy. apply in_range_by_1 in Hy.
  assert (E : w = 0) by nia. subst w.
  unfold pixel_row. rewrite slice_nil. reflexivity.
Qed.

(** A well-formed glyph with a header and pixels in range serializes. *)
Lemma to_bytes_well_formed (g : Glyph) (bpp : Z) :
  bpp = 1 \/ bpp = 2 \/ bpp = 4 \/ bpp = 8 ->
  Forall is_byte (header g) ->
  len (buf g) = width g * rows g ->
  Forall is_byte (buf g) ->
  exists packed,
    to_bytes g bpp = Ok (header g ++ map (process_byte g) packed)
    /\ len packed = packed_length bpp (width g) (rows g)
    /\ Forall is_byte packed
    /\ reference_unpack bpp packed
       = padded_samples bpp (width g) (rows g) (buf g).
Proof.
  intros Hbpp Hh Hlen Hbuf.
  assert (Hw : is_byte (width g) /\ is_byte (rows g)).
  { unfold header in Hh. inversion Hh as [|? ? H1 Hh']; subst.
    inversion Hh' as [|? ? H2 _]; subst. split; assumption. }
  destruct Hw as [Hw Hr]. unfold is_byte in Hw, Hr.
  rewrite to_bytes_unfold. destruct (buf g) as [|p ps] eqn:E.
  - assert (H0 : width g * rows g = 0)
      by (unfold len in Hlen; cbn in Hlen; lia).
    exists []. cbn [map]. rewrite app_nil_r. split; [apply bytes_ok, Hh|].
    split; [|split; [constructor|]].
    + symmetry. apply packed_length_empty; lia.
    + symmetry. apply padded_samples_empty; lia.
  - rewrite <- E in *.
    destruct (pack_round_trip (buf g) bpp (width g) (rows g) Hbpp
                ltac:(lia) ltac:(lia) Hlen Hbuf) as (packed & Hp & Hrt & Hpb).
    rewrite Hp. exists packed. split; [|split; [|split]].
    + apply bytes_ok. apply Forall_app. split; [exact Hh|].
      apply Forall_map_process_byte, Hpb.
    + apply (pack_length (buf g)); assumption || lia.
    + exact Hpb.
    + exact Hrt.
Qed.

(** X7: a glyph whose buffer holds [width * rows] bytes and whose five header
    numbers are bytes serializes, at each supported depth, to the header
    followed by the packed pixels: [5 + ceil(w*r/8)], [5 + ceil(w*r/4)],
    [5 + r * ceil(w/2)] or [5 + w*r] bytes, every one within 0..255.  Read
    back, the bytes after the header give the top bits of the pixels in scan
    order, with the zero padding; for a glyph with [inverse_colors] they are
    first passed through [process_byte] again, which undoes the XOR. *)
Theorem X7_serialization_round_trip (g : Glyph) (bpp : Z) :
  bpp = 1 \/ bpp = 2 \/ bpp = 4 \/ bpp = 8 ->
  Forall is_byte (header g) ->
  len (buf g) = width g * rows g ->
  Forall is_byte (buf g) ->
  exists out,
    to_bytes g bpp = Ok out
    /\ firstn 5 out = header g
    /\ len out = 5 + packed_length bpp (width g) (rows g)
    /\ Forall is_byte out
    /\ reference_unpack bpp (map (process_byte g) (skipn 5 out))
       = padded_samples bpp (width g) (rows g) (buf g).
Proof.
  intros Hbpp Hh Hlen Hbuf.
  destruct (to_bytes_well_formed g bpp Hbpp Hh Hlen Hbuf)
    as (packed & H & Hl & Hd & Hrt).
  exists (header g ++ map (process_byte g) packed).
  split; [exact H|]. split; [reflexivity|]. split; [|split].
  - unfold len in *. rewrite length_app, length_map, Nat2Z.inj_add, Hl.
    reflexivity.
  - apply Forall_app. split; [exact Hh | apply Forall_map_process_byte, Hd].
  - unfold header. cbn [skipn app]. rewrite map_map.
    rewrite (map_ext _ (fun b => b)) by apply process_byte_involutive.
    rewrite map_id. exact Hrt.
Qed.

Lemma X7_serialization_round_trip_witness :
  exists out,
    to_bytes (mkGlyph [65] 3 1 4 0 1 [0xF0; 0x00; 0xA0] 256 true) 4 = Ok out
    /\ firstn 5 out = header (mkGlyph [65] 3 1 4 0 1 [0xF0; 0x00; 0xA0] 256 true)
    /\ len out
       = 5 + packed_length 4
               (width (mkGlyph [65] 3 1 4 0 1 [0xF0; 0x00; 0xA0] 256 true))
               (rows (mkGlyph [65] 3 1 4 0 1 [0xF0; 0x00; 0xA0] 256 true))
    /\ Forall is_byte out
    /\ reference_unpack 4
         (map (process_byte (mkGlyph [65] 3 1 4 0 1 [0xF0; 0x00; 0xA0] 256 true))
              (skipn 5 out))
       = padded_samples 4
           (width (mkGlyph [65] 3 1 4 0 1 [0xF0; 0x00; 0xA0] 256 true))
           (rows (mkGlyph [65] 3 1 4 0 1 [0xF0; 0x00; 0xA0] 256 true))
           (buf (mkGlyph [65] 3 1 4 0 1 [0xF0; 0x00; 0xA0] 256 true)).
Proof.
  apply (X7_serialization_round_trip
           (mkGlyph [65] 3 1 4 0 1 [0xF0; 0x00; 0xA0] 256 true) 4).
  - right. right. left. reflexivity.
  - unfold header, is_byte. cbn. repeat (apply Forall_cons; [lia|]). apply Forall_nil.
  - reflexivity.
  - unfold is_byte. repeat (apply Forall_cons; [lia|]). apply Forall_nil.
Defined.

(** X8: what [from_face] returns on a bitmap of bytes serializes at every
    supported depth exactly when its width and its rows fit a byte, the two
    header fields that extraction does not check; when they do not,
    [to_bytes] raises. *)
Theorem X8_extraction_then_serialization (glyph : GlyphSlot) (c : str)
    (shaveX : Z) (inv : bool) (out : list line) (g : Glyph) (bpp : Z) :
  from_face glyph c shaveX inv = (out, Ok g) ->
  Forall is_byte (Bitmap.buffer (bitmap glyph)) ->
  bpp = 1 \/ bpp = 2 \/ bpp = 4 \/ bpp = 8 ->
  (is_byte (width g) /\ is_byte (rows g) ->
   exists bs, to_bytes g bpp = Ok bs
              /\ len bs = 5 + packed_length bpp (width g) (rows g))
  /\ (~ (is_byte (width g) /\ is_byte (rows g)) ->
      exists e, to_bytes g bpp = Raise e).
Proof.
  intros H Hbytes Hbpp.
  destruct (from_face_well_formed _ _ _ _ _ _ H) as (Hlen & Ha & Hbx & Hby & Hb).
  specialize (Hb Hbytes). split.
  - intros [Hw Hr].
    destruct (to_bytes_well_formed g bpp Hbpp) as (packed & Hd & Hl & _);
      try assumption.
    { unfold header. repeat (apply Forall_cons; [assumption|]). apply Forall_nil. }
    eexists. split; [exact Hd|].
    unfold len in *. rewrite length_app, length_map, Nat2Z.inj_add, Hl.
    reflexivity.
  - intros Hn. destruct (to_bytes g bpp) as [bs|e] eqn:E; [|exists e; reflexivity].
    exfalso. apply Hn. rewrite to_bytes_unfold in E.
    assert (Hh : exists l, bytes (header g ++ l) = Ok bs).
    { destruct (buf g).
      - exists []. rewrite app_nil_r. exact E.
      - destruct (process_bitmap_buffer _ _ _ _); [|discriminate E].
        eexists. exact E. }
    destruct Hh as [l Hh]. apply bytes_inv in Hh. destruct Hh as [_ Hh].
    unfold header in Hh. inversion Hh as [|? ? H1 Hh']; subst.
    inversion Hh' as [|? ? H2 _]; subst. split; assumption.
Qed.

Lemma X8_extraction_then_serialization_witness :
  (is_byte (width (demo_glyph [103] false))
   /\ is_byte (rows (demo_glyph [103] false)) ->
   exists bs, to_bytes (demo_glyph [103] false) 4 = Ok bs
              /\ len bs = 5 + packed_length 4 (width (demo_glyph [103] false))
                                            (rows (demo_glyph [103] false)))
  /\ (~ (is_byte (width (demo_glyph [103] false))
         /\ is_byte (rows (demo_glyph [103] false))) ->
      exists e, to_bytes (demo_glyph [103] false) 4 = Raise e).
Proof.
  apply (X8_extraction_then_serialization (demo_face [103]) [103] 0 false []).
  - vm_compute. reflexivity.
  - apply Forall_forall. intros x Hx. apply repeat_spec in Hx. subst x.
    unfold is_byte. lia.
  - right. right. left. reflexivity.
Defined.

(** * The inverse-colour serialization *)

Lemma is_byte_test_invert (x : Z) :
  (0 <=? invert x) && (invert x <? 256) = (0 <=? x) && (x <? 256).
Proof.
  apply eq_true_iff_eq. rewrite !is_byte_test. split.
  - intros H. rewrite <- (invert_involutive x). apply invert_byte, H.
  - apply invert_byte.
Qed.

Lemma bytes_invert_tail (a b c d e : Z) (l : list Z) :
  bytes ([a; b; c; d; e] ++ map invert l)
  = result_map invert_data (bytes ([a; b; c; d; e] ++ l)).
Proof.
  unfold bytes. rewrite !forallb_app.
  replace (forallb _ (map invert l))
    with (forallb (fun x => (0 <=? x) && (x <? 256)) l).
  - destruct (forallb _ [a; b; c; d; e] && forallb _ l); reflexivity.
  - induction l as [|x l IH]; [reflexivity|].
    cbn [map forallb]. rewrite is_byte_test_invert, IH. reflexivity.
Qed.

Lemma to_bytes_inverse (g : Glyph) (bpp : Z) :
  to_bytes (with_inverse_colors g true) bpp
  = result_map invert_data (to_bytes (with_inverse_colors g false) bpp).
Proof.
  rewrite !to_bytes_unfold. unfold header.
  cbn [buf width rows advance bearingX bearingY with_inverse_colors].
  destruct (buf g) as [|p ps].
  - rewrite <- (app_nil_r [width g; rows g; advance g; bearingX g; bearingY g]).
    apply (bytes_invert_tail _ _ _ _ _ []).
  - destruct (process_bitmap_buffer _ _ _ _) as [packed|e]; [|reflexivity].
    replace (map (process_byte (with_inverse_colors g true)) packed)
      with (map invert packed) by (apply map_ext; reflexivity).
    replace (map (process_byte (with_inverse_colors g false)) packed)
      with packed by (symmetry; apply map_id).
    apply bytes_invert_tail.
Qed.

Lemma invert_data_involutive (out : list Z) : invert_data (invert_data out) = out.
Proof.
  unfold invert_data.
  do 5 (destruct out as [|? out]; [reflexivity|]).
  cbn [firstn skipn app]. do 5 f_equal.
  rewrite map_map. rewrite <- (map_id out) at 2.
  apply map_ext. exact invert_involutive.
Qed.

(** X9: serializing a glyph with [inverse_colors] set gives the
    serialization of the same glyph without it, with every byte after the
    five header bytes XORed with 0xFF; it raises exactly when the other one
    does, and the same exception.  Inverting the data bytes again gives the
    first serialization back. *)
Theorem X9_inverse_serialization (g : Glyph) (bpp : Z) :
  to_bytes (with_inverse_colors g true) bpp
  = result_map invert_data (to_bytes (with_inverse_colors g false) bpp)
  /\ to_bytes (with_inverse_colors g false) bpp
     = result_map invert_data (to_bytes (with_inverse_colors g true) bpp).
Proof.
  split; [apply to_bytes_inverse|].
  rewrite to_bytes_inverse.
  destruct (to_bytes (with_inverse_colors g false) bpp) as [out|e];
    [|reflexivity].
  cbn [result_map]. rewrite invert_data_involutive. reflexivity.
Qed.

(** * The packer on buffers that are not well-formed *)

Lemma for_each_ext {X S} (f g : X -> S -> result S) (xs : list X) :
  (forall x s, In x xs -> f x s = g x s) ->
  forall s, for_each xs f s = for_each xs g s.
Proof.
  induction xs as [|x xs IH]; intros H s; [reflexivity|].
  cbn [for_each]. rewrite (H x s) by (left; reflexivity).
  destruct (g x s) as [s'|e]; [|reflexivity].
  cbn [rbind]. apply IH. intros y t Hy. apply H. right. exact Hy.
Qed.

Lemma for_each_returns {X S} (body : X -> S -> result S) (xs : list X) :
  (forall x s, In x xs -> exists s', body x s = Ok s') ->
  forall s, exists s', for_each xs body s = Ok s'.
Proof.
  induction xs as [|x xs IH]; intros H s; [exists s; reflexivity|].
  cbn [for_each]. destruct (H x s ltac:(left; reflexivity)) as [s' ->].
  cbn [rbind]. apply IH. intros y t Hy. apply H. right. exact Hy.
Qed.

Lemma for_each_raise_inv {X S} (body : X -> S -> result S) (xs : list X) e :
  forall s, for_each xs body s = Raise e ->
            exists x s', In x xs /\ body x s' = Raise e.
Proof.
  induction xs as [|x xs IH]; intros s H; [discriminate H|].
  cbn [for_each] in H. destruct (body x s) as [s'|e'] eqn:E.
  - cbn [rbind] in H. destruct (IH s' H) as (y & t & Hy & Ht).
    exists y, t. split; [right; exact Hy | exact Ht].
  - cbn [rbind] in H. injection H as ->.
    exists x, s. split; [left; reflexivity | exact E].
Qed.

Lemma for_each_raises {X S} (body : X -> S -> result S) (xs : list X) e :
  (forall x s, In x xs -> (exists s', body x s = Ok s') \/ body x s = Raise e) ->
  (exists x, In x xs /\ forall s, body x s = Raise e) ->
  forall s, for_each xs body s = Raise e.
Proof.
  induction xs as [|x xs IH]; intros H [y [Hy Hraise]] s; [destruct Hy|].
  cbn [for_each].
  destruct (H x s ltac:(left; reflexivity)) as [[s' E] | E]; rewrite E;
    [|reflexivity].
  cbn [rbind]. destruct Hy as [<- | Hy].
  - rewrite Hraise in E. discriminate E.
  - apply IH.
    + intros z t Hz. apply H. right. exact Hz.
    + exists y. split; assumption.
Qed.

Lemma item_raises (l : list Z) (i : Z) (e : exn) :
  item l i = Raise e -> e = IndexError.
Proof.
  unfold item. destruct (_ && _); [discriminate|]. intros [= <-]. reflexivity.
Qed.

Lemma pack_bpp4_row_even (buf : list Z) (w y : Z) (res : list Z) :
  Z.land w 1 = 0 -> exists res', pack_bpp4_row buf w y res = Ok res'.
Proof.
  intros H. unfold pack_bpp4_row. rewrite H. cbn [Z.eqb negb].
  eexists. reflexivity.
Qed.

Lemma pack_bpp4_row_raises (buf : list Z) (w y : Z) (res : list Z) (e : exn) :
  pack_bpp4_row buf w y res = Raise e -> e = IndexError /\ Z.land w 1 <> 0.
Proof.
  unfold pack_bpp4_row. destruct (Z.land w 1 =? 0) eqn:E; cbn [negb].
  - discriminate.
  - apply Z.eqb_neq in E.
    destruct (item _ (-1)) as [x|e'] eqn:Ei; cbn [rbind]; [discriminate|].
    intros [= <-]. split; [apply (item_raises _ _ _ Ei) | exact E].
Qed.

Lemma pack_bpp4_row_odd (buf : list Z) (w y : Z) (res : list Z) :
  Z.land w 1 <> 0 ->
  (pixel_row buf w y <> [] -> exists res', pack_bpp4_row buf w y res = Ok res')
  /\ (pixel_row buf w y = [] -> pack_bpp4_row buf w y res = Raise IndexError).
Proof.
  intros H. apply Z.eqb_neq in H. unfold pack_bpp4_row. rewrite H. cbn [negb].
  fold (pixel_row buf w y). split.
  - intros Hne. rewrite item_last by assumption. cbn [rbind]. eexists. reflexivity.
  - intros ->. reflexivity.
Qed.

Lemma land_1_mod (w : Z) : Z.land w 1 = w mod 2.
Proof. change 1 with (Z.ones 1). rewrite Z.land_ones by lia. reflexivity. Qed.

Lemma pixel_row_empty (buf : list Z) (w y : Z) :
  0 < w -> 0 <= y -> (pixel_row buf w y = [] <-> len buf <= y * w).
Proof.
  intros Hw Hy. unfold pixel_row, slice, slice_bound.
  pose proof (len_nonneg buf) as Hn.
  destruct (y * w <? 0) eqn:E1; [apply Z.ltb_lt in E1; nia|].
  destruct ((y + 1) * w <? 0) eqn:E2; [apply Z.ltb_lt in E2; nia|].
  split.
  - intros H. apply (f_equal (@length Z)) in H.
    rewrite length_firstn, length_skipn in H. cbn [length] in H.
    unfold len in *. lia.
  - intros H. rewrite (Z.min_r (y * w)) by lia.
    rewrite skipn_all2 by (unfold len in *; lia). apply firstn_nil.
Qed.

(** X10: at four bits per pixel the packer checks the buffer against
    [width] and [height] only by accident.  With an even width it never
    raises, whatever the buffer; with an odd width it returns as soon as the
    buffer reaches into the last row, and raises [IndexError] when the last
    row is missing altogether. *)
Theorem X10_bpp4_short_buffer (buf : list Z) (w h : Z) :
  0 < w -> 0 < h ->
  (w mod 2 = 0 -> exists out, process_bitmap_buffer buf 4 w h = Ok out)
  /\ (w mod 2 = 1 -> (h - 1) * w < len buf ->
      exists out, process_bitmap_buffer buf 4 w h = Ok out)
  /\ (w mod 2 = 1 -> len buf <= (h - 1) * w ->
      process_bitmap_buffer buf 4 w h = Raise IndexError).
Proof.
  intros Hw Hh. unfold process_bitmap_buffer.
  change (4 =? 1) with false. change (4 =? 2) with false.
  change (4 =? 4) with true. cbv iota.
  split; [|split].
  - intros Heven. apply for_each_returns. intros y s _.
    apply pack_bpp4_row_even. rewrite land_1_mod. exact Heven.
  - intros Hodd Hlen. apply for_each_returns. intros y s Hy.
    apply in_range_by_1 in Hy.
    apply pack_bpp4_row_odd; [rewrite land_1_mod; lia|].
    rewrite pixel_row_empty by lia. nia.
  - intros Hodd Hlen. apply for_each_raises.
    + intros y s Hy.
      destruct (pack_bpp4_row buf w y s) as [s'|e] eqn:E.
      * left. exists s'. reflexivity.
      * right. apply pack_bpp4_row_raises in E. destruct E as [-> _].
        reflexivity.
    + exists (h - 1). split; [apply in_range_by_1; lia|].
      intros s. apply pack_bpp4_row_odd; [rewrite land_1_mod; lia|].
      apply pixel_row_empty; lia.
Qed.

Lemma X10_bpp4_short_buffer_witness :
  (3 mod 2 = 0 -> exists out, process_bitmap_buffer [1; 2; 3; 4] 4 3 2 = Ok out)
  /\ (3 mod 2 = 1 -> (2 - 1) * 3 < len [1; 2; 3; 4] ->
      exists out, process_bitmap_buffer [1; 2; 3; 4] 4 3 2 = Ok out)
  /\ (3 mod 2 = 1 -> len [1; 2; 3; 4] <= (2 - 1) * 3 ->
      process_bitmap_buffer [1; 2; 3; 4] 4 3 2 = Raise IndexError).
Proof.
  apply (X10_bpp4_short_buffer [1; 2; 3; 4] 3 2); lia.
Defined.

Lemma slice_firstn {A} (l : list A) (n : nat) (i j : Z) :
  0 <= i <= j -> j <= Z.of_nat n ->
  slice (firstn n l) i j = slice l i j.
Proof.
  intros Hij Hj. destruct (Nat.le_gt_cases (length l) n) as [Hle | Hgt].
  - rewrite firstn_all2 by assumption. reflexivity.
  - rewrite !slice_inside; try assumption.
    + rewrite skipn_firstn_comm, firstn_firstn. f_equal. lia.
    + unfold len. lia.
    + unfold len. rewrite length_firstn. lia.
Qed.

(** X11: at four bits per pixel the packer reads the first
    [width * height] pixels of the buffer and nothing after them. *)
Theorem X11_bpp4_ignores_excess (buf : list Z) (w h : Z) :
  0 <= w -> 0 <= h ->
  process_bitmap_buffer buf 4 w h
  = process_bitmap_buffer (firstn (Z.to_nat (w * h)) buf) 4 w h.
Proof.
  intros Hw Hh. unfold process_bitmap_buffer.
  change (4 =? 1) with false. change (4 =? 2) with false.
  change (4 =? 4) with true. cbv iota.
  apply for_each_ext. intros y s Hy. apply in_range_by_1 in Hy.
  unfold pack_bpp4_row. rewrite slice_firstn by nia. reflexivity.
Qed.

Lemma X11_bpp4_ignores_excess_witness :
  process_bitmap_buffer [0xF0; 0x00; 0xA0; 0xFF; 0xFF] 4 3 1
  = process_bitmap_buffer
      (firstn (Z.to_nat (3 * 1)) [0xF0; 0x00; 0xA0; 0xFF; 0xFF]) 4 3 1.
Proof.
  apply (X11_bpp4_ignores_excess [0xF0; 0x00; 0xA0; 0xFF; 0xFF] 3 1); lia.
Defined.

(** ** One and two bits per pixel *)

Lemma land_low_byte (a m : Z) :
  Z.land 255 m = m -> Z.land (a mod 256) m = Z.land a m.
Proof.
  intros Hm. change 256 with (2 ^ 8). rewrite <- Z.land_ones by lia.
  rewrite <- Z.land_assoc. change (Z.ones 8) with 255. rewrite Hm. reflexivity.
Qed.

Lemma pack_bpp1_low_byte (c : list Z) :
  pack_bpp1 (map (fun x => x mod 256) c) = pack_bpp1 c.
Proof.
  do 9 (destruct c as [|? c]; try reflexivity).
  cbn [map pack_bpp1]. rewrite !(land_low_byte _ 0x80) by reflexivity.
  reflexivity.
Qed.

Lemma pack_bpp2_low_byte (c : list Z) :
  pack_bpp2 (map (fun x => x mod 256) c) = pack_bpp2 c.
Proof.
  do 5 (destruct c as [|? c]; try reflexivity).
  cbn [map pack_bpp2]. rewrite !(land_low_byte _ 0xC0) by reflexivity.
  reflexivity.
Qed.

Lemma Forall_low_byte (c : list Z) :
  Forall is_byte (map (fun x => x mod 256) c).
Proof.
  apply Forall_forall. intros x Hx. apply in_map_iff in Hx.
  destruct Hx as (a & <- & _). unfold is_byte. apply Z.mod_pos_bound. lia.
Qed.

Lemma pad_to_map (f : Z -> Z) (k : Z) (buf : list Z) :
  f 0 = 0 -> pad_to k (map f buf) = map f (pad_to k buf).
Proof.
  intros Hf. unfold pad_to, len. rewrite length_map.
  destruct (negb _); [|reflexivity].
  rewrite map_app, map_repeat, Hf. reflexivity.
Qed.

(** What the packers of one and two bits per pixel return on any buffer. *)
Lemma linear_any (k : nat) (bpp : Z) (f : list Z -> result Z) (buf : list Z) :
  (0 < k)%nat ->
  (forall c, length c = k -> f c = Ok (byte_of f c)) ->
  (forall c, f (map (fun x => x mod 256) c) = f c) ->
  (forall c, length c = k -> Forall is_byte c -> is_byte (byte_of f c)) ->
  let out := map (byte_of f) (groups k (pad_to (Z.of_nat k) buf)) in
  comprehension f (chunks (Z.of_nat k) (pad_to (Z.of_nat k) buf)) = Ok out
  /\ len out = ceil_div (len buf) (Z.of_nat k)
  /\ Forall is_byte out
  /\ comprehension f (chunks (Z.of_nat k)
                        (pad_to (Z.of_nat k) (map (fun x => x mod 256) buf)))
     = Ok out.
Proof.
  intros Hk Htotal Hlow Hbyte out.
  assert (E : forall c, byte_of f (map (fun x => x mod 256) c) = byte_of f c).
  { intros c. unfold byte_of. rewrite Hlow. reflexivity. }
  split; [apply packed_linear; assumption|].
  split; [apply packed_linear_length; assumption|].
  split.
  - apply Forall_forall. intros b Hb. apply in_map_iff in Hb.
    destruct Hb as (c & <- & Hc).
    destruct (groups_spec k _ (pad_to (Z.of_nat k) buf) Hk (pad_to_length k buf Hk))
      as (_ & _ & _ & Hlen).
    rewrite <- E. apply Hbyte; [|apply Forall_low_byte].
    rewrite length_map. apply Hlen, Hc.
  - rewrite packed_linear by assumption. f_equal. subst out.
    rewrite pad_to_map by reflexivity. rewrite groups_map, map_map.
    apply map_ext. exact E.
Qed.

(** X12: at one and at two bits per pixel the packer returns on every
    buffer: it reads neither [width] nor [height], pads the buffer to whole
    groups of 8 or 4 pixels, writes one byte per group, and reads only the
    low byte of each pixel. *)
Theorem X12_linear_packers_total (buf : list Z) (bpp w h : Z) :
  bpp = 1 \/ bpp = 2 ->
  exists out,
    process_bitmap_buffer buf bpp w h = Ok out
    /\ len out = ceil_div (len buf) (8 / bpp)
    /\ Forall is_byte out
    /\ forall w' h',
         process_bitmap_buffer (map (fun x => x mod 256) buf) bpp w' h' = Ok out.
Proof.
  intros [-> | ->]; unfold process_bitmap_buffer.
  - change (1 =? 1) with true. cbv iota. change (8 / 1) with (Z.of_nat 8).
    change 8 with (Z.of_nat 8).
    destruct (linear_any 8 1 pack_bpp1 buf) as (H1 & H2 & H3 & H4).
    + lia.
    + apply pack_bpp1_total.
    + apply pack_bpp1_low_byte.
    + intros c Hc Hb. apply pack_bpp1_byte; assumption.
    + eexists. split; [exact H1|]. split; [exact H2|]. split; [exact H3|].
      intros _ _. exact H4.
  - change (2 =? 1) with false. change (2 =? 2) with true. cbv iota.
    change (8 / 2) with (Z.of_nat 4). change 4 with (Z.of_nat 4).
    destruct (linear_any 4 2 pack_bpp2 buf) as (H1 & H2 & H3 & H4).
    + lia.
    + apply pack_bpp2_total.
    + apply pack_bpp2_low_byte.
    + intros c Hc Hb. apply pack_bpp2_byte; assumption.
    + eexists. split; [exact H1|]. split; [exact H2|]. split; [exact H3|].
      intros _ _. exact H4.
Qed.

Lemma X12_linear_packers_total_witness :
  exists out,
    process_bitmap_buffer [0xFF; 0x17F; -1] 1 7 9 = Ok out
    /\ len out = ceil_div (len [0xFF; 0x17F; -1]) (8 / 1)
    /\ Forall is_byte out
    /\ forall w' h',
         process_bitmap_buffer (map (fun x => x mod 256) [0xFF; 0x17F; -1]) 1 w' h'
         = Ok out.
Proof.
  apply (X12_linear_packers_total [0xFF; 0x17F; -1] 1 7 9).
  left. reflexivity.
Defined.

(** X13: the only exceptions [to_bytes] raises are the [ValueError] of
    [bytes] on a number outside 0..255, the [ValueError] of the packer on a
    depth other than 1, 2, 4 and 8, and the [IndexError] of the packer at
    four bits per pixel with an odd width; the last two need a glyph with
    pixels.  The unpacking of the pixel groups never fails. *)
Theorem X13_to_bytes_errors (g : Glyph) (bpp : Z) (e : exn) :
  to_bytes g bpp = Raise e ->
  e = ValueError BytesRange
  \/ (buf g <> []
      /\ ((e = ValueError UnsupportedBpp
           /\ bpp <> 1 /\ bpp <> 2 /\ bpp <> 4 /\ bpp <> 8)
          \/ (e = IndexError /\ bpp = 4 /\ width g mod 2 = 1))).
Proof.
  rewrite to_bytes_unfold.
  assert (Hbytes : forall l, bytes l = Raise e -> e = ValueError BytesRange).
  { intros l. unfold bytes. destruct (forallb _ l); [discriminate|].
    intros [= <-]. reflexivity. }
  destruct (buf g) as [|p ps] eqn:Ebuf; [intros H; left; apply (Hbytes _ H)|].
  rewrite <- Ebuf.
  destruct (process_bitmap_buffer _ _ _ _) as [packed|e'] eqn:Ep;
    [intros H; left; apply (Hbytes _ H)|].
  intros [= ->]. right. split; [rewrite Ebuf; discriminate|].
  unfold process_bitmap_buffer in Ep.
  destruct (bpp =? 1) eqn:E1.
  { apply Z.eqb_eq in E1. subst bpp. change 8 with (Z.of_nat 8) in Ep.
    rewrite packed_linear in Ep by (lia || apply pack_bpp1_total).
    discriminate Ep. }
  destruct (bpp =? 2) eqn:E2.
  { apply Z.eqb_eq in E2. subst bpp. change 4 with (Z.of_nat 4) in Ep.
    rewrite packed_linear in Ep by (lia || apply pack_bpp2_total).
    discriminate Ep. }
  destruct (bpp =? 4) eqn:E4.
  { apply Z.eqb_eq in E4. subst bpp. right.
    apply for_each_raise_inv in Ep. destruct Ep as (y & s & _ & Ep).
    apply pack_bpp4_row_raises in Ep. destruct Ep as [-> Hodd].
    rewrite land_1_mod in Hodd.
    pose proof (Z.mod_pos_bound (width g) 2 ltac:(lia)).
    repeat split; lia. }
  destruct (bpp =? 8) eqn:E8; [discriminate Ep|].
  injection Ep as <-. left.
  apply Z.eqb_neq in E1, E2, E4, E8. repeat split; assumption.
Qed.

Lemma X13_to_bytes_errors_witness :
  ValueError UnsupportedBpp = ValueError BytesRange
  \/ (buf (mkGlyph [65] 1 1 1 0 1 [0xFF] 256 false) <> []
      /\ ((ValueError UnsupportedBpp = ValueError UnsupportedBpp
           /\ 3 <> 1 /\ 3 <> 2 /\ 3 <> 4 /\ 3 <> 8)
          \/ (ValueError UnsupportedBpp = IndexError /\ 3 = 4
              /\ width (mkGlyph [65] 1 1 1 0 1 [0xFF] 256 false) mod 2 = 1))).
Proof.
  apply (X13_to_bytes_errors (mkGlyph [65] 1 1 1 0 1 [0xFF] 256 false) 3).
  reflexivity.
Defined.

(** * The generated tables *)

Lemma glyph_bytes_loop_inv (self : FaceProcessor) (codes : list Z) :
  forall (acc : list (Z * list Z)) out glyphs,
    io_for_each codes
      (fun i glyphs =>
         let c := [i] in
         if islower i && negb (gen_normal self) then ret glyphs
         else
           (glyph <- from_face (face self c) c (shaveX self) false ;;
            arr_bytes <- lift (to_bytes glyph (bpp self)) ;;
            ret (glyphs ++ [(i, arr_bytes)]))%io)
      acc
    = (out, Ok glyphs) ->
    exists gs bss,
      Forall2 (fun i g => snd (from_face (face self [i]) [i] (shaveX self) false)
                          = Ok g)
              (filter (fun i => negb (skipped self i)) codes) gs
      /\ Forall2 (fun g bs => to_bytes g (bpp self) = Ok bs) gs bss
      /\ glyphs = acc ++ combine (filter (fun i => negb (skipped self i)) codes) bss.
Proof.
  induction codes as [|i codes IH]; intros acc out glyphs H.
  - injection H as _ <-. exists [], []. rewrite app_nil_r.
    repeat split; constructor.
  - cbn [io_for_each filter] in *. cbv zeta in H.
    change (skipped self i) with (islower i && negb (gen_normal self)).
    destruct (islower i && negb (gen_normal self)); cbn [negb].
    + rewrite bind_ret_l in H. apply (IH _ _ _ H).
    + apply bind_ok_inv in H. destruct H as (o1 & acc' & o2 & Hbody & H & ->).
      apply bind_ok_inv in Hbody. destruct Hbody as (o3 & g & o4 & Hg & Hbody & ->).
      apply bind_ok_inv in Hbody. destruct Hbody as (o5 & bs & o6 & Hb & Hret & ->).
      injection Hb as _ Hb. injection Hret as _ <-.
      destruct (IH _ _ _ H) as (gs & bss & H1 & H2 & ->).
      exists (g :: gs), (bs :: bss). split; [|split].
      * constructor; [rewrite Hg; reflexivity | exact H1].
      * constructor; assumption.
      * cbn [combine]. rewrite <- app_assoc. reflexivity.
Qed.

Lemma char_definition_loop_inv (self : FaceProcessor) (codes : list Z) :
  forall (a b : Z) (defs : list (Z * list Z)) out s' defs',
    io_for_each codes
      (fun i '(self, defs) =>
         if islower i && negb (gen_normal self) then ret (self, defs)
         else
           ('(self, numbers) <- _write_char_definition self [i] ;;
            ret (self, defs ++ [(i, numbers)]))%io)
      (set_extent self a b, defs)
    = (out, Ok (s', defs')) ->
    exists gs bss,
      Forall2 (fun i g => snd (from_face (face self [i]) [i] (shaveX self) false)
                          = Ok g)
              (filter (fun i => negb (skipped self i)) codes) gs
      /\ Forall2 (fun g bs => to_bytes g (bpp self) = Ok bs) gs bss
      /\ s' = set_extent self
                (fold_left (fun m g => Z.min m (bearingY g - rows g)) gs a)
                (fold_left (fun m g => Z.max m (bearingY g)) gs b)
      /\ defs' = defs ++ combine (filter (fun i => negb (skipped self i)) codes) bss.
Proof.
  induction codes as [|i codes IH]; intros a b defs out s' defs' H.
  - injection H as _ <- <-. exists [], []. rewrite app_nil_r.
    repeat split; constructor.
  - cbn [io_for_each filter] in *.
    change (gen_normal (set_extent self a b)) with (gen_normal self) in H.
    change (skipped self i) with (islower i && negb (gen_normal self)).
    destruct (islower i && negb (gen_normal self)); cbn [negb].
    + rewrite bind_ret_l in H. apply (IH _ _ _ _ _ _ H).
    + apply bind_ok_inv in H. destruct H as (o1 & [s1 defs1] & o2 & Hbody & H & ->).
      apply bind_ok_inv in Hbody.
      destruct Hbody as (o3 & [s2 numbers] & o4 & Hdef & Hret & ->).
      injection Hret as _ <- <-.
      unfold _write_char_definition in Hdef.
      change (face (set_extent self a b)) with (face self) in Hdef.
      change (shaveX (set_extent self a b)) with (shaveX self) in Hdef.
      change (bpp (set_extent self a b)) with (bpp self) in Hdef.
      apply bind_ok_inv in Hdef. destruct Hdef as (o5 & g & o6 & Hg & Hdef & ->).
      apply bind_ok_inv in Hdef. destruct Hdef as (o7 & [] & o8 & _ & Hdef & ->).
      apply bind_ok_inv in Hdef. destruct Hdef as (o9 & bs & o10 & Hb & Hret & ->).
      injection Hb as _ Hb. injection Hret as _ <- <-.
      rewrite update_extent_set in H.
      destruct (IH _ _ _ _ _ _ H) as (gs & bss & H1 & H2 & -> & ->).
      exists (g :: gs), (bs :: bss). split; [|split; [|split]].
      * constructor; [rewrite Hg; reflexivity | exact H1].
      * constructor; assumption.
      * reflexivity.
      * cbn [combine]. rewrite <- app_assoc. reflexivity.
Qed.

(** Everything a successful [write_rust_file] tells. *)
Lemma write_rust_file_inv (self : FaceProcessor) out self' data :
  write_rust_file self = (out, Ok (self', data)) ->
  exists gs bss gnp,
    Forall2 (fun i g => snd (from_face (face self [i]) [i] (shaveX self) false)
                        = Ok g)
            (variant_codes (gen_normal self)) gs
    /\ Forall2 (fun g bs => to_bytes g (bpp self) = Ok bs) gs bss
    /\ snd (from_face (face self question_mark) question_mark (shaveX self) true)
       = Ok gnp
    /\ to_bytes gnp (bpp self) = Ok (nonprintable data)
    /\ glyphs data = combine (variant_codes (gen_normal self)) bss
    /\ let fontYMin := fold_left (fun m g => Z.min m (bearingY g - rows g)) gs 0 in
       let fontYMax := fold_left (fun m g => Z.max m (bearingY g)) gs 0 in
       self' = set_extent self fontYMin fontYMax
       /\ font_info data
          = (if gen_normal self
             then Some (mkFontInfo false (font_idx self) (size self)
                          (fontYMax - fontYMin) (- fontYMin))
             else None)
       /\ font_info_upper data
          = (if gen_upper self
             then Some (mkFontInfo true (font_idx_upper self) (size self)
                          (fontYMax - fontYMin) (- fontYMin))
             else None)
       /\ (gen_normal self = true -> font_idx self <> None)
       /\ (gen_upper self = true -> font_idx_upper self <> None).
Proof.
  intros H. unfold write_rust_file in H.
  apply bind_ok_inv in H. destruct H as (o1 & glyphs & o2 & Hloop & H & ->).
  apply glyph_bytes_loop_inv in Hloop. destruct Hloop as (gs & bss & Hgs & Hbss & ->).
  apply bind_ok_inv in H. destruct H as (o3 & gnp & o4 & Hnp & H & ->).
  apply bind_ok_inv in H. destruct H as (o5 & bnp & o6 & Hbnp & H & ->).
  injection Hbnp as _ Hbnp. cbv zeta in H.
  destruct (extent_loop self _ gs 0 0 Hgs) as [ox Hx].
  apply bind_ok_inv in H. destruct H as (o7 & s2 & o8 & Hloop2 & H & ->).
  pose proof (eq_trans (eq_sym Hx) Hloop2) as E. injection E as _ <-.
  cbn [gen_normal gen_upper font_idx font_idx_upper size font_ymin font_ymax
       set_extent] in H.
  apply bind_ok_inv in H. destruct H as (o9 & fi & o10 & Hfi & H & ->).
  apply bind_ok_inv in H. destruct H as (o11 & fiu & o12 & Hfiu & H & ->).
  unfold ret in H.
  remember (mkRustData _ _ _ _) as d eqn:Ed in H.
  remember (set_extent _ _ _) as s eqn:Es in H.
  injection H as _ <- <-. subst s d.
  cbn [nonprintable glyphs font_info font_info_upper app].
  exists gs, bss, gnp.
  split; [exact Hgs|]. split; [exact Hbss|].
  split; [rewrite Hnp; reflexivity|].
  split; [exact Hbnp|]. split; [reflexivity|].
  cbv zeta. split; [reflexivity|].
  assert (Hfi' : fi = (if gen_normal self
                       then Some (mkFontInfo false (font_idx self) (size self)
                                    (fold_left (fun m g => Z.max m (bearingY g)) gs 0
                                     - fold_left (fun m g => Z.min m (bearingY g - rows g)) gs 0)
                                    (- fold_left (fun m g => Z.min m (bearingY g - rows g)) gs 0))
                       else None)
                 /\ (gen_normal self = true -> font_idx self <> None)).
  { destruct (gen_normal self); [destruct (font_idx self)|].
    - injection Hfi as _ <-. split; [reflexivity | discriminate].
    - discriminate Hfi.
    - injection Hfi as _ <-. split; [reflexivity | discriminate]. }
  assert (Hfiu' : fiu = (if gen_upper self
                         then Some (mkFontInfo true (font_idx_upper self) (size self)
                                      (fold_left (fun m g => Z.max m (bearingY g)) gs 0
                                       - fold_left (fun m g => Z.min m (bearingY g - rows g)) gs 0)
                                      (- fold_left (fun m g => Z.min m (bearingY g - rows g)) gs 0))
                         else None)
                  /\ (gen_upper self = true -> font_idx_upper self <> None)).
  { destruct (gen_upper self); [destruct (font_idx_upper self)|].
    - injection Hfiu as _ <-. split; [reflexivity | discriminate].
    - discriminate Hfiu.
    - injection Hfiu as _ <-. split; [reflexivity | discriminate]. }
  destruct Hfi' as [Efi Hidx]. destruct Hfiu' as [Efiu Hidxu].
  split; [exact Efi|]. split; [exact Efiu|]. split; assumption.
Qed.

Lemma ret_inj {A} (a b : A) (o : list line) : ret a = (o, Ok b) -> a = b.
Proof. intros [= _ H]. exact H. Qed.

Lemma pair_inj {A B} (a a' : A) (b b' : B) :
  (a, b) = (a', b') -> a = a' /\ b = b'.
Proof. intros [= -> ->]. split; reflexivity. Qed.

(** Everything a successful [_write_c_file_content] tells. *)
Lemma write_c_file_content_inv (self : FaceProcessor) out self' defs np infos :
  _write_c_file_content self = (out, Ok (self', (defs, np, infos))) ->
  exists gs bss gnp,
    Forall2 (fun i g => snd (from_face (face self [i]) [i] (shaveX self) false)
                        = Ok g)
            (variant_codes (gen_normal self)) gs
    /\ Forall2 (fun g bs => to_bytes g (bpp self) = Ok bs) gs bss
    /\ snd (from_face (face self question_mark) question_mark (shaveX self) true)
       = Ok gnp
    /\ to_bytes gnp (bpp self) = Ok np
    /\ defs = combine (variant_codes (gen_normal self)) bss
    /\ self' = set_extent self
                 (fold_left (fun m g => Z.min m (bearingY g - rows g)) gs
                            (font_ymin self))
                 (fold_left (fun m g => Z.max m (bearingY g)) gs (font_ymax self))
    /\ infos
       = (if gen_normal self then [_write_font_info_structure self' false] else [])
         ++ (if gen_upper self then [_write_font_info_structure self' true] else []).
Proof.
  intros H. unfold _write_c_file_content in H.
  apply bind_ok_inv in H. destruct H as (o1 & [s1 defs1] & o2 & Hloop & H & ->).
  rewrite <- (set_extent_same self) in Hloop.
  apply char_definition_loop_inv in Hloop.
  destruct Hloop as (gs & bss & Hgs & Hbss & -> & ->).
  cbv beta iota in H.
  cbn [face shaveX bpp gen_normal gen_upper set_extent] in H.
  apply bind_ok_inv in H. destruct H as (o3 & gnp & o4 & Hnp & H & ->).
  apply bind_ok_inv in H. destruct H as (o5 & bnp & o6 & Hbnp & H & ->).
  injection Hbnp as _ Hbnp.
  apply ret_inj, pair_inj in H. destruct H as [<- H].
  apply pair_inj in H. destruct H as [H <-].
  apply pair_inj in H. destruct H as [<- <-].
  exists gs, bss, gnp.
  split; [exact Hgs|]. split; [exact Hbss|].
  split; [rewrite Hnp; reflexivity|].
  repeat split; assumption.
Qed.

Lemma write_rust_file_set_extent (self : FaceProcessor) (a b : Z) :
  write_rust_file (set_extent self a b) = write_rust_file self.
Proof. reflexivity. Qed.

(** What [write_rust_file] returns when every glyph extracts and
    serializes. *)
Lemma write_rust_file_returns (self : FaceProcessor) (gs : list Glyph)
    (bss : list (list Z)) (gnp : Glyph) (bnp : list Z) :
  Forall2 (fun i g => snd (from_face (face self [i]) [i] (shaveX self) false)
                      = Ok g)
          (variant_codes (gen_normal self)) gs ->
  Forall2 (fun g bs => to_bytes g (bpp self) = Ok bs) gs bss ->
  snd (from_face (face self question_mark) question_mark (shaveX self) true)
  = Ok gnp ->
  to_bytes gnp (bpp self) = Ok bnp ->
  (gen_normal self = true -> font_idx self <> None) ->
  (gen_upper self = true -> font_idx_upper self <> None) ->
  let fontYMin := fold_left (fun m g => Z.min m (bearingY g - rows g)) gs 0 in
  let fontYMax := fold_left (fun m g => Z.max m (bearingY g)) gs 0 in
  exists out fi fiu,
    write_rust_file self
    = (out, Ok (set_extent self fontYMin fontYMax,
                mkRustData (combine (variant_codes (gen_normal self)) bss)
                           bnp fi fiu)).
Proof.
  intros Hgs Hbss Hnp Hbnp Hidx Hidxu fontYMin fontYMax.
  apply io_ok_of_snd in Hnp. destruct Hnp as [onp Hnp].
  destruct (glyph_bytes_loop self _ gs bss [] Hgs Hbss) as [o1 H1].
  destruct (extent_loop self _ gs 0 0 Hgs) as [o2 H2].
  fold fontYMin fontYMax in H2.
  destruct (font_info_entry (gen_normal self) (font_idx self) FontIdxUnset
              false (size self) fontYMin fontYMax Hidx) as (fi & Hfi & _).
  destruct (font_info_entry (gen_upper self) (font_idx_upper self)
              FontIdxUpperUnset true (size self) fontYMin fontYMax Hidxu)
    as (fiu & Hfiu & _).
  exists (o1 ++ onp ++ [] ++ o2 ++ [] ++ [] ++ []), fi, fiu.
  unfold write_rust_file.
  eapply bind_ok; [exact H1|].
  eapply bind_ok; [exact Hnp|].
  eapply bind_ok; [rewrite Hbnp; reflexivity|].
  eapply bind_ok; [exact H2|].
  eapply bind_ok; [exact Hfi|].
  eapply bind_ok; [exact Hfiu|].
  reflexivity.
Qed.

Lemma map_fst_combine {A B} (xs : list A) (ys : list B) :
  length xs = length ys -> map fst (combine xs ys) = xs.
Proof.
  revert ys. induction xs as [|x xs IH]; intros [|y ys] H;
    try discriminate H; [reflexivity|].
  cbn [combine map fst]. f_equal. apply IH. injection H as H. exact H.
Qed.

Lemma Forall2_chain_length {A B C} (R : A -> B -> Prop) (Q : B -> C -> Prop)
    xs ys zs :
  Forall2 R xs ys -> Forall2 Q ys zs -> length xs = length zs.
Proof.
  intros H1 H2. apply Forall2_length in H1, H2. congruence.
Qed.

Lemma in_combine_chain {A B C} (R : A -> B -> Prop) (Q : B -> C -> Prop)
    xs ys zs :
  Forall2 R xs ys -> Forall2 Q ys zs ->
  forall x z, In (x, z) (combine xs zs) -> exists y, R x y /\ Q y z.
Proof.
  intros H1. revert zs. induction H1 as [|x y xs ys Hxy _ IH]; intros zs H2 a c Hin.
  - destruct Hin.
  - inversion H2 as [|? z ? zs' Hyz Hrest]; subst.
    destruct Hin as [[= <- <-] | Hin].
    + exists y. split; assumption.
    + apply (IH _ Hrest _ _ Hin).
Qed.

Lemma combine_chain_in {A B C} (R : A -> B -> Prop) (Q : B -> C -> Prop)
    xs ys zs :
  Forall2 R xs ys -> Forall2 Q ys zs ->
  forall x, In x xs -> exists y z, R x y /\ Q y z /\ In (x, z) (combine xs zs).
Proof.
  intros H1. revert zs. induction H1 as [|x y xs ys Hxy _ IH]; intros zs H2 a Hin.
  - destruct Hin.
  - inversion H2 as [|? z ? zs' Hyz Hrest]; subst.
    destruct Hin as [<- | Hin].
    + exists y, z. repeat split; try assumption. left. reflexivity.
    + destruct (IH _ Hrest _ Hin) as (y' & z' & Hr & Hq & Hi).
      exists y', z'. repeat split; try assumption. right. exact Hi.
Qed.

Lemma variant_codes_length (gen : bool) :
  len (variant_codes gen) = if gen then 95 else 69.
Proof. destruct gen; reflexivity. Qed.

Lemma question_mark_generated (gen : bool) : In 63 (variant_codes gen).
Proof.
  unfold variant_codes. apply filter_In. split; [|reflexivity].
  apply in_range_by_1. unfold MIN_GLYPH, MAX_GLYPH. lia.
Qed.

(** The bytes of the inverse glyph of a character against the bytes of its
    glyph. *)
Lemma inverse_glyph_bytes (glyph : GlyphSlot) (c : str) (shaveX bpp : Z)
    (g gnp : Glyph) (bs np : list Z) :
  snd (from_face glyph c shaveX false) = Ok g ->
  to_bytes g bpp = Ok bs ->
  snd (from_face glyph c shaveX true) = Ok gnp ->
  to_bytes gnp bpp = Ok np ->
  np = invert_data bs.
Proof.
  intros Hg Hbs Hnp Hbnp.
  assert (Eg : g = with_inverse_colors g false).
  { pose proof (from_face_flag glyph c shaveX false) as E.
    apply (f_equal snd) in E. unfold io_map in E. cbn [snd] in E.
    rewrite Hg in E. injection E as E. exact E. }
  assert (Enp : gnp = with_inverse_colors g true).
  { pose proof (from_face_flag glyph c shaveX true) as E.
    apply (f_equal snd) in E. unfold io_map in E. cbn [snd] in E.
    rewrite Hg, Hnp in E. injection E as E. exact E. }
  rewrite Enp, to_bytes_inverse, <- Eg, Hbs in Hbnp.
  injection Hbnp as <-. reflexivity.
Qed.

Lemma table_entries (self : FaceProcessor) (gs : list Glyph)
    (bss : list (list Z)) :
  Forall2 (fun i g => snd (from_face (face self [i]) [i] (shaveX self) false)
                      = Ok g)
          (variant_codes (gen_normal self)) gs ->
  Forall2 (fun g bs => to_bytes g (bpp self) = Ok bs) gs bss ->
  let table := combine (variant_codes (gen_normal self)) bss in
  map fst table = variant_codes (gen_normal self)
  /\ len table = (if gen_normal self then 95 else 69)
  /\ (forall i bs, In (i, bs) table ->
        exists o g,
          from_face (face self [i]) [i] (shaveX self) false = (o, Ok g)
          /\ to_bytes g (bpp self) = Ok bs)
  /\ (forall gnp np,
        snd (from_face (face self question_mark) question_mark (shaveX self) true)
        = Ok gnp ->
        to_bytes gnp (bpp self) = Ok np ->
        exists bs, In (63, bs) table /\ np = invert_data bs).
Proof.
  intros Hgs Hbss table.
  pose proof (Forall2_chain_length _ _ _ _ _ Hgs Hbss) as Hlen.
  assert (Hfst : map fst table = variant_codes (gen_normal self))
    by (apply map_fst_combine, Hlen).
  split; [exact Hfst|]. split; [|split].
  - rewrite <- (variant_codes_length (gen_normal self)), <- Hfst.
    unfold len. rewrite length_map. reflexivity.
  - intros i bs Hin.
    destruct (in_combine_chain _ _ _ _ _ Hgs Hbss i bs Hin) as (g & Hg & Hb).
    apply io_ok_of_snd in Hg. destruct Hg as [o Hg].
    exists o, g. split; assumption.
  - intros gnp np Hnp Hbnp.
    destruct (combine_chain_in _ _ _ _ _ Hgs Hbss 63
                (question_mark_generated _)) as (g & bs & Hg & Hb & Hin).
    exists bs. split; [exact Hin|].
    apply (inverse_glyph_bytes _ _ _ _ _ _ _ _ Hg Hb Hnp Hbnp).
Qed.

(** X14: when [write_rust_file] returns, the glyph table holds one entry
    for every code point of the variant, in increasing order (95 entries, or
    69 without the lowercase letters); each entry is the serialization of
    the glyph extracted for its code point; the nonprintable glyph is the
    entry of the question mark with the bytes after its header inverted;
    and nothing of the processor changed but the vertical extent. *)
Theorem X14_rust_glyph_table (self : FaceProcessor) (out : list line)
    (self' : FaceProcessor) (data : RustData) :
  write_rust_file self = (out, Ok (self', data)) ->
  map fst (glyphs data) = variant_codes (gen_normal self)
  /\ len (glyphs data) = (if gen_normal self then 95 else 69)
  /\ (forall i bs, In (i, bs) (glyphs data) ->
        exists o g,
          from_face (face self [i]) [i] (shaveX self) false = (o, Ok g)
          /\ to_bytes g (bpp self) = Ok bs)
  /\ (exists bs, In (63, bs) (glyphs data) /\ nonprintable data = invert_data bs)
  /\ self' = set_extent self (font_ymin self') (font_ymax self').
Proof.
  intros H. apply write_rust_file_inv in H.
  destruct H as (gs & bss & gnp & Hgs & Hbss & Hnp & Hbnp & -> & H).
  cbv zeta in H. destruct H as (-> & _).
  destruct (table_entries self gs bss Hgs Hbss) as (H1 & H2 & H3 & H4).
  split; [exact H1|]. split; [exact H2|]. split; [exact H3|].
  split; [apply (H4 gnp _ Hnp Hbnp) | reflexivity].
Qed.

Lemma X14_rust_glyph_table_witness :
  map fst (glyphs (snd demo_rust)) = variant_codes (gen_normal demo_processor)
  /\ len (glyphs (snd demo_rust)) = (if gen_normal demo_processor then 95 else 69)
  /\ (forall i bs, In (i, bs) (glyphs (snd demo_rust)) ->
        exists o g,
          from_face (face demo_processor [i]) [i] (shaveX demo_processor) false
          = (o, Ok g)
          /\ to_bytes g (bpp demo_processor) = Ok bs)
  /\ (exists bs, In (63, bs) (glyphs (snd demo_rust))
                 /\ nonprintable (snd demo_rust) = invert_data bs)
  /\ fst demo_rust
     = set_extent demo_processor (font_ymin (fst demo_rust))
                  (font_ymax (fst demo_rust)).
Proof.
  apply (X14_rust_glyph_table demo_processor
           (fst (write_rust_file demo_processor))).
  vm_compute. reflexivity.
Defined.

(** X15: the font info that [write_rust_file] returns.  An entry is present
    exactly for the variants that are generated, which therefore have their
    translation blob index set; every entry has the size of the font as its
    height, [baseline = -fontYMin] and [max_height = fontYMax - fontYMin]
    of the extent left in the processor, and so
    [0 <= baseline <= max_height]. *)
Theorem X15_rust_font_info (self : FaceProcessor) (out : list line)
    (self' : FaceProcessor) (data : RustData) :
  write_rust_file self = (out, Ok (self', data)) ->
  font_ymin self' <= 0 <= font_ymax self'
  /\ (font_info data = None <-> gen_normal self = false)
  /\ (font_info_upper data = None <-> gen_upper self = false)
  /\ (forall fi, font_info data = Some fi ->
        is_upper fi = false
        /\ translation_blob_idx fi = font_idx self /\ font_idx self <> None)
  /\ (forall fi, font_info_upper data = Some fi ->
        is_upper fi = true
        /\ translation_blob_idx fi = font_idx_upper self
        /\ font_idx_upper self <> None)
  /\ (forall fi, font_info data = Some fi \/ font_info_upper data = Some fi ->
        height fi = size self
        /\ baseline fi = - font_ymin self'
        /\ max_height fi = font_ymax self' - font_ymin self'
        /\ 0 <= baseline fi <= max_height fi).
Proof.
  intros H. apply write_rust_file_inv in H.
  destruct H as (gs & bss & gnp & _ & _ & _ & _ & _ & H).
  cbv zeta in H. destruct H as (-> & Hfi & Hfiu & Hidx & Hidxu).
  cbn [font_ymin font_ymax set_extent].
  destruct (fold_min_spec (fun g => bearingY g - rows g) gs 0) as (Hmin & _).
  destruct (fold_max_spec bearingY gs 0) as (Hmax & _).
  cbv zeta in Hmin, Hmax.
  set (fontYMin := fold_left (fun m g => Z.min m (bearingY g - rows g)) gs 0) in *.
  set (fontYMax := fold_left (fun m g => Z.max m (bearingY g)) gs 0) in *.
  rewrite Hfi, Hfiu.
  split; [lia|]. split; [|split; [|split; [|split]]].
  - destruct (gen_normal self); split; congruence.
  - destruct (gen_upper self); split; congruence.
  - intros fi E. destruct (gen_normal self); [|discriminate E].
    injection E as <-. cbn. auto.
  - intros fi E. destruct (gen_upper self); [|discriminate E].
    injection E as <-. cbn. auto.
  - intros fi [E | E];
      [destruct (gen_normal self) | destruct (gen_upper self)];
      try discriminate E; injection E as <-; cbn; repeat split; lia.
Qed.

Lemma X15_rust_font_info_witness :
  font_ymin (fst demo_rust) <= 0 <= font_ymax (fst demo_rust)
  /\ (font_info (snd demo_rust) = None <-> gen_normal demo_processor = false)
  /\ (font_info_upper (snd demo_rust) = None <-> gen_upper demo_processor = false)
  /\ (forall fi, font_info (snd demo_rust) = Some fi ->
        is_upper fi = false
        /\ translation_blob_idx fi = font_idx demo_processor
        /\ font_idx demo_processor <> None)
  /\ (forall fi, font_info_upper (snd demo_rust) = Some fi ->
        is_upper fi = true
        /\ translation_blob_idx fi = font_idx_upper demo_processor
        /\ font_idx_upper demo_processor <> None)
  /\ (forall fi, font_info (snd demo_rust) = Some fi
                 \/ font_info_upper (snd demo_rust) = Some fi ->
        height fi = size demo_processor
        /\ baseline fi = - font_ymin (fst demo_rust)
        /\ max_height fi = font_ymax (fst demo_rust) - font_ymin (fst demo_rust)
        /\ 0 <= baseline fi <= max_height fi).
Proof.
  apply (X15_rust_font_info demo_processor
           (fst (write_rust_file demo_processor))).
  vm_compute. reflexivity.
Defined.

Lemma fold_min_le (f : Glyph -> Z) (gs : list Glyph) (a : Z) :
  fold_left (fun m g => Z.min m (f g)) gs a <= a.
Proof. apply (fold_min_spec f gs a). Qed.

Lemma fold_max_ge (f : Glyph -> Z) (gs : list Glyph) (a : Z) :
  a <= fold_left (fun m g => Z.max m (f g)) gs a.
Proof. apply (fold_max_spec f gs a). Qed.

(** X16: when [_write_c_file_content] returns, the glyph definitions are
    those of the variant's code points, in increasing order, each the
    serialization of the glyph extracted for its code point, and the
    nonprintable glyph is the question mark's with the data inverted.  The
    vertical extent is not reset: it can only grow from what the processor
    held.  One font info structure is written per generated variant, the
    normal one first, each with the size of the font as its height, with
    [baseline = -fontYMin] and [max_height = fontYMax - fontYMin], and with
    no translation blob index. *)
Theorem X16_c_file_content (self : FaceProcessor) (out : list line)
    (self' : FaceProcessor) (defs : list (Z * list Z)) (np : list Z)
    (infos : list FontInfo) :
  _write_c_file_content self = (out, Ok (self', (defs, np, infos))) ->
  map fst defs = variant_codes (gen_normal self)
  /\ (forall i bs, In (i, bs) defs ->
        exists o g,
          from_face (face self [i]) [i] (shaveX self) false = (o, Ok g)
          /\ to_bytes g (bpp self) = Ok bs)
  /\ (exists bs, In (63, bs) defs /\ np = invert_data bs)
  /\ font_ymin self' <= font_ymin self
  /\ font_ymax self <= font_ymax self'
  /\ self' = set_extent self (font_ymin self') (font_ymax self')
  /\ map is_upper infos
     = (if gen_normal self then [false] else [])
       ++ (if gen_upper self then [true] else [])
  /\ (forall fi, In fi infos ->
        translation_blob_idx fi = None
        /\ height fi = size self
        /\ baseline fi = - font_ymin self'
        /\ max_height fi = font_ymax self' - font_ymin self').
Proof.
  intros H. apply write_c_file_content_inv in H.
  destruct H as (gs & bss & gnp & Hgs & Hbss & Hnp & Hbnp & -> & -> & ->).
  destruct (table_entries self gs bss Hgs Hbss) as (H1 & _ & H3 & H4).
  cbn [font_ymin font_ymax set_extent].
  split; [exact H1|]. split; [exact H3|].
  split; [apply (H4 gnp _ Hnp Hbnp)|].
  split; [apply fold_min_le|]. split; [apply fold_max_ge|].
  split; [reflexivity|]. split.
  - destruct (gen_normal self), (gen_upper self); reflexivity.
  - intros fi Hin. apply in_app_or in Hin.
    destruct Hin as [Hin | Hin];
      [destruct (gen_normal self) | destruct (gen_upper self)];
      cbn in Hin; try contradiction;
      destruct Hin as [<- | []]; repeat split.
Qed.

Lemma X16_c_file_content_witness :
  map fst (fst (fst (snd demo_c))) = variant_codes (gen_normal demo_processor)
  /\ (forall i bs, In (i, bs) (fst (fst (snd demo_c))) ->
        exists o g,
          from_face (face demo_processor [i]) [i] (shaveX demo_processor) false
          = (o, Ok g)
          /\ to_bytes g (bpp demo_processor) = Ok bs)
  /\ (exists bs, In (63, bs) (fst (fst (snd demo_c)))
                 /\ snd (fst (snd demo_c)) = invert_data bs)
  /\ font_ymin (fst demo_c) <= font_ymin demo_processor
  /\ font_ymax demo_processor <= font_ymax (fst demo_c)
  /\ fst demo_c
     = set_extent demo_processor (font_ymin (fst demo_c)) (font_ymax (fst demo_c))
  /\ map is_upper (snd (snd demo_c))
     = (if gen_normal demo_processor then [false] else [])
       ++ (if gen_upper demo_processor then [true] else [])
  /\ (forall fi, In fi (snd (snd demo_c)) ->
        translation_blob_idx fi = None
        /\ height fi = size demo_processor
        /\ baseline fi = - font_ymin (fst demo_c)
        /\ max_height fi = font_ymax (fst demo_c) - font_ymin (fst demo_c)).
Proof.
  apply (X16_c_file_content demo_processor
           (fst (_write_c_file_content demo_processor))).
  vm_compute. reflexivity.
Defined.

(** X17: writing the C file first and the Rust file after it, as
    [write_files] does, gives the Rust file that would have been written
    alone: [write_rust_file] does not read the extent the C path left.  When
    the C path returned and the translation blob indexes of the generated
    variants are set, [write_rust_file] returns, with the glyph bytes and the
    nonprintable glyph of the C file, and, when the C path started from the
    zero extent of a new processor, with the same extent. *)
Theorem X17_c_then_rust (self : FaceProcessor) (o : list line)
    (self1 : FaceProcessor) (defs : list (Z * list Z)) (np : list Z)
    (infos : list FontInfo) :
  _write_c_file_content self = (o, Ok (self1, (defs, np, infos))) ->
  (gen_normal self = true -> font_idx self <> None) ->
  (gen_upper self = true -> font_idx_upper self <> None) ->
  write_rust_file self1 = write_rust_file self
  /\ exists out s2 data,
       write_rust_file self1 = (out, Ok (s2, data))
       /\ glyphs data = defs
       /\ nonprintable data = np
       /\ (font_ymin self = 0 -> font_ymax self = 0 -> s2 = self1).
Proof.
  intros H Hidx Hidxu. apply write_c_file_content_inv in H.
  destruct H as (gs & bss & gnp & Hgs & Hbss & Hnp & Hbnp & -> & -> & _).
  rewrite write_rust_file_set_extent. split; [reflexivity|].
  destruct (write_rust_file_returns self gs bss gnp np Hgs Hbss Hnp Hbnp
              Hidx Hidxu) as (out & fi & fiu & E).
  cbv zeta in E. rewrite E.
  eexists. eexists. eexists. split; [reflexivity|].
  cbn [glyphs nonprintable].
  split; [reflexivity|]. split; [reflexivity|].
  intros -> ->. reflexivity.
Qed.

Lemma X17_c_then_rust_witness :
  write_rust_file (fst demo_c) = write_rust_file demo_processor
  /\ exists out s2 data,
       write_rust_file (fst demo_c) = (out, Ok (s2, data))
       /\ glyphs data = fst (fst (snd demo_c))
       /\ nonprintable data = snd (fst (snd demo_c))
       /\ (font_ymin demo_processor = 0 -> font_ymax demo_processor = 0 ->
           s2 = fst demo_c).
Proof.
  apply (X17_c_then_rust demo_processor
           (fst (_write_c_file_content demo_processor))
           (fst demo_c) (fst (fst (snd demo_c))) (snd (fst (snd demo_c)))
           (snd (snd demo_c))).
  - vm_compute. reflexivity.
  - intros _. discriminate.
  - intros H. discriminate H.
Defined.

(** X18: whenever [write_rust_file] returns, [_write_c_file_content]
    returns as well, with the same glyph bytes and the same nonprintable
    glyph: the C path makes the same calls and has no check of its own. *)
Theorem X18_rust_implies_c (self : FaceProcessor) (out : list line)
    (s2 : FaceProcessor) (data : RustData) :
  write_rust_file self = (out, Ok (s2, data)) ->
  exists o self1 infos,
    _write_c_file_content self
    = (o, Ok (self1, (glyphs data, nonprintable data, infos))).
Proof.
  intros H. apply write_rust_file_inv in H.
  destruct H as (gs & bss & gnp & Hgs & Hbss & Hnp & Hbnp & -> & _).
  apply io_ok_of_snd in Hnp. destruct Hnp as [onp Hnp].
  destruct (char_definition_loop self _ gs bss (font_ymin self) (font_ymax self)
              [] Hgs Hbss) as [o1 H1].
  rewrite set_extent_same in H1.
  eexists. eexists. eexists.
  unfold _write_c_file_content.
  eapply bind_ok; [exact H1|].
  cbv beta iota.
  eapply bind_ok; [exact Hnp|].
  eapply bind_ok; [cbn [bpp set_extent]; rewrite Hbnp; reflexivity|].
  reflexivity.
Qed.

Lemma X18_rust_implies_c_witness :
  exists o self1 infos,
    _write_c_file_content demo_processor
    = (o, Ok (self1, (glyphs (snd demo_rust), nonprintable (snd demo_rust), infos))).
Proof.
  apply (X18_rust_implies_c demo_processor
           (fst (write_rust_file demo_processor)) (fst demo_rust)).
  vm_compute. reflexivity.
Defined.

(** * The arrays of glyph references *)

Lemma fold_left_upper (xs : list Z) (acc : list Z) :
  fold_left (fun arr i => if islower i then arr ++ [upper i] else arr ++ [i])
            xs acc
  = acc ++ map (fun i => if islower i then upper i else i) xs.
Proof.
  revert acc. induction xs as [|x xs IH]; intros acc; cbn [fold_left map].
  - rewrite app_nil_r. reflexivity.
  - rewrite IH. destruct (islower x); rewrite <- app_assoc; reflexivity.
Qed.

Lemma glyph_array_upper_map (self : FaceProcessor) :
  glyph_array_upper self
  = if gen_upper self
    then map (fun i => if islower i then upper i else i)
             (range MIN_GLYPH (MAX_GLYPH + 1) 1)
    else [].
Proof.
  unfold glyph_array_upper. destruct (gen_upper self); [|reflexivity].
  apply fold_left_upper.
Qed.

Lemma range_nth (start stop : Z) (k : nat) :
  (k < Z.to_nat (stop - start))%nat ->
  nth k (range start stop 1) 0 = start + Z.of_nat k.
Proof.
  intros Hk. rewrite range_by_1.
  set (f := fun q : nat => start + Z.of_nat q).
  rewrite (nth_indep _ 0 (f 0%nat)) by (rewrite length_map, length_seq; exact Hk).
  rewrite map_nth, seq_nth by exact Hk. reflexivity.
Qed.

Lemma referenced_codes_defined (gn gu : bool) :
  forallb (fun i => existsb (Z.eqb i) (variant_codes gn))
          ((if gn then range MIN_GLYPH (MAX_GLYPH + 1) 1 else [])
           ++ (if gu
               then map (fun i => if islower i then upper i else i)
                        (range MIN_GLYPH (MAX_GLYPH + 1) 1)
               else []))
  = true.
Proof. destruct gn, gu; vm_compute; reflexivity. Qed.

Lemma glyph_arrays_defined (self : FaceProcessor) (i : Z) :
  In i (glyph_array self) \/ In i (glyph_array_upper self) ->
  In i (variant_codes (gen_normal self)).
Proof.
  intros H.
  pose proof (referenced_codes_defined (gen_normal self) (gen_upper self)) as E.
  rewrite forallb_forall in E.
  assert (Hin : In i ((if gen_normal self
                       then range MIN_GLYPH (MAX_GLYPH + 1) 1 else [])
                      ++ (if gen_upper self
                          then map (fun i => if islower i then upper i else i)
                                   (range MIN_GLYPH (MAX_GLYPH + 1) 1)
                          else []))).
  { apply in_or_app. rewrite glyph_array_upper_map in H. exact H. }
  apply E in Hin. apply existsb_exists in Hin.
  destruct Hin as (j & Hj & Eij). apply Z.eqb_eq in Eij. subst j. exact Hj.
Qed.

(** X19: the two arrays of glyph references.  The array of a generated
    variant has [MAX_GLYPH + 1 - MIN_GLYPH] entries, one per printable code
    point [i], at index [i - MIN_GLYPH]; in the normal array the entry
    refers to the glyph of [i]; in the upper array it refers to the glyph
    of the capital letter when [i] is a lowercase letter, and to the glyph
    of [i] otherwise, so that it never refers to a lowercase glyph.  The
    array of a variant that is not generated is empty. *)
Theorem X19_glyph_arrays (self : FaceProcessor) :
  len (glyph_array self)
  = (if gen_normal self then MAX_GLYPH + 1 - MIN_GLYPH else 0)
  /\ len (glyph_array_upper self)
     = (if gen_upper self then MAX_GLYPH + 1 - MIN_GLYPH else 0)
  /\ (forall i, MIN_GLYPH <= i <= MAX_GLYPH ->
        (gen_normal self = true ->
         nth (Z.to_nat (i - MIN_GLYPH)) (glyph_array self) 0 = i)
        /\ (gen_upper self = true ->
            nth (Z.to_nat (i - MIN_GLYPH)) (glyph_array_upper self) 0
            = (if islower i then i - 32 else i)))
  /\ (forall i, In i (glyph_array_upper self) -> islower i = false).
Proof.
  rewrite glyph_array_upper_map. unfold glyph_array.
  split; [|split; [|split]].
  - destruct (gen_normal self); reflexivity.
  - destruct (gen_upper self); reflexivity.
  - intros i Hi. unfold MIN_GLYPH, MAX_GLYPH in *. split; intros ->.
    + rewrite range_nth by lia. lia.
    + set (f := fun i => if islower i then upper i else i).
      rewrite (nth_indep _ 0 (f 0))
        by (rewrite length_map, range_by_1_length; lia).
      rewrite map_nth, range_nth by lia.
      unfold f, upper. replace (32 + Z.of_nat (Z.to_nat (i - 32))) with i by lia.
      reflexivity.
  - intros i Hin. destruct (gen_upper self); [|destruct Hin].
    apply in_map_iff in Hin. destruct Hin as (j & <- & Hj).
    apply in_range_by_1 in Hj. unfold MIN_GLYPH, MAX_GLYPH in Hj.
    unfold islower, upper.
    destruct ((97 <=? j) && (j <=? 122)) eqn:E.
    + apply andb_prop in E. destruct E as [E1 E2].
      apply Z.leb_le in E1, E2. apply andb_false_iff. left.
      apply Z.leb_gt. lia.
    + exact E.
Qed.

(** X20: no dangling reference.  Every glyph that an entry of the two
    arrays refers to is defined: when [write_rust_file] returns, it is in
    the glyph table, and when [_write_c_file_content] returns, it is among
    the definitions written. *)
Theorem X20_no_dangling_reference (self : FaceProcessor) (i : Z) :
  In i (glyph_array self) \/ In i (glyph_array_upper self) ->
  (forall out self' data,
     write_rust_file self = (out, Ok (self', data)) ->
     exists bs, In (i, bs) (glyphs data))
  /\ (forall out self' defs np infos,
        _write_c_file_content self = (out, Ok (self', (defs, np, infos))) ->
        exists bs, In (i, bs) defs).
Proof.
  intros Hi. apply glyph_arrays_defined in Hi. split.
  - intros out self' data H. apply write_rust_file_inv in H.
    destruct H as (gs & bss & gnp & Hgs & Hbss & _ & _ & -> & _).
    destruct (combine_chain_in _ _ _ _ _ Hgs Hbss i Hi) as (g & bs & _ & _ & Hin).
    exists bs. exact Hin.
  - intros out self' defs np infos H. apply write_c_file_content_inv in H.
    destruct H as (gs & bss & gnp & Hgs & Hbss & _ & _ & -> & _).
    destruct (combine_chain_in _ _ _ _ _ Hgs Hbss i Hi) as (g & bs & _ & _ & Hin).
    exists bs. exact Hin.
Qed.

Lemma X20_no_dangling_reference_witness :
  (forall out self' data,
     write_rust_file demo_processor = (out, Ok (self', data)) ->
     exists bs, In (103, bs) (glyphs data))
  /\ (forall out self' defs np infos,
        _write_c_file_content demo_processor
        = (out, Ok (self', (defs, np, infos))) ->
        exists bs, In (103, bs) defs).
Proof.
  apply (X20_no_dangling_reference demo_processor 103).
  left. vm_compute. do 71 right. left. reflexivity.
Defined.

(** * What extraction prints *)

(** X21: what [from_face] prints when it returns: the line about
    normalizing bearingY exactly when the rasterizer's bearingY is negative,
    then the line about removed columns exactly when pixel columns were
    dropped, with their number; nothing else. *)
Theorem X21_extraction_log (glyph : GlyphSlot) (c : str) (shaveX : Z)
    (inv : bool) (out : list line) (g : Glyph) :
  from_face glyph c shaveX inv = (out, Ok g) ->
  let by0 := Metrics.horiBearingY (metrics glyph) / 64 in
  let dropped := Bitmap.width (bitmap glyph) - width g in
  out = (if by0 <? 0 then [Normalizing_bearingY by0 c] else [])
        ++ (if dropped >? 0 then [Removed_columns c dropped] else []).
Proof.
  intros H by0 dropped. apply from_face_ok_consistent in H. destruct H as [_ H].
  unfold normalize in H. fold by0 in H.
  destruct (discard_left_space _ _ shaveX) as [[adv bx] rl].
  unfold fold_negative_bearingX in H.
  destruct (bx <? 0); [destruct (str_in c MODIFY_BEARING_X)|];
    try discriminate H; rewrite bind_ret_l in H;
    (destruct ((_ >=? 0) && (_ <=? 255)); [|discriminate H]);
    rewrite bind_assert_true in H;
    (destruct ((_ >=? 0) && (_ <=? 255)); [|discriminate H]);
    rewrite bind_assert_true in H;
    unfold normalize_bearingY, discard_left_pixels in H;
    destruct (by0 <? 0) eqn:Eby;
    destruct ((rl >? 0) && (Bitmap.width (bitmap glyph) >? 0)) eqn:Erl;
    unfold assert in H;
    repeat (cbn [bind ret raise print lift app fst snd] in H;
            match type of H with
            | context [if ?b then _ else _] => destruct b eqn:?
            | context [drop_left_columns ?a ?b ?c] =>
                destruct (drop_left_columns a b c)
            end);
    cbn [bind ret raise print lift app fst snd] in H;
    try discriminate H;
    apply pair_inj in H; destruct H as [<- H]; injection H as <-;
    subst dropped; cbn [width];
    try (replace (Bitmap.width (bitmap glyph)
                  - (Bitmap.width (bitmap glyph) - rl)) with rl by lia;
         apply andb_prop in Erl; destruct Erl as [-> _]; reflexivity);
    rewrite Z.sub_diag; reflexivity.
Qed.

Lemma X21_extraction_log_witness :
  let glyph :=
    mkGlyphSlot (Bitmap.mk 3 2 3 [1; 2; 3; 4; 5; 6] 256)
                (Metrics.mk 192 128 640 0 (-64)) in
  let by0 := Metrics.horiBearingY (metrics glyph) / 64 in
  let dropped := Bitmap.width (bitmap glyph) - width (mkGlyph [66] 2 2 9 0 0 [2; 3; 5; 6] 256 false) in
  [Normalizing_bearingY (-1) [66]; Removed_columns [66] 1]
  = (if by0 <? 0 then [Normalizing_bearingY by0 [66]] else [])
    ++ (if dropped >? 0 then [Removed_columns [66] dropped] else []).
Proof.
  apply (X21_extraction_log
           (mkGlyphSlot (Bitmap.mk 3 2 3 [1; 2; 3; 4; 5; 6] 256)
                        (Metrics.mk 192 128 640 0 (-64)))
           [66] 1 false).
  vm_compute. reflexivity.
Defined.

(** * A processor as the constructor leaves it *)

(** X22: the constructor raises [ValueError], before it prints anything,
    exactly when neither variant is selected; a processor it returns has a
    zero extent and at least one variant, so that [write_rust_file], when it
    returns on it, returns at least one font info, and
    [_write_c_file_content] writes at least one. *)
Theorem X22_constructed_processor (sz depth shave : Z) (gn gu : bool)
    (idx idxu : option Z) (f : str -> GlyphSlot) :
  (gn = false /\ gu = false ->
   init sz depth shave gn gu idx idxu f = ([], Raise (ValueError NoVariantSelected)))
  /\ (gn = true \/ gu = true ->
      exists p,
        init sz depth shave gn gu idx idxu f = ([Processing sz], Ok p)
        /\ font_ymin p = 0 /\ font_ymax p = 0
        /\ (forall out s data,
              write_rust_file p = (out, Ok (s, data)) ->
              font_info data <> None \/ font_info_upper data <> None)
        /\ (forall out s defs np infos,
              _write_c_file_content p = (out, Ok (s, (defs, np, infos))) ->
              infos <> [])).
Proof.
  split.
  - intros [-> ->]. reflexivity.
  - intros Hsel. eexists. split; [|split; [|split; [|split]]].
    + unfold init. destruct Hsel as [-> | ->]; [|destruct gn]; reflexivity.
    + reflexivity.
    + reflexivity.
    + intros out s data H. apply write_rust_file_inv in H.
      destruct H as (gs & bss & gnp & _ & _ & _ & _ & _ & H).
      cbv zeta in H. destruct H as (_ & -> & -> & _).
      cbn [gen_normal gen_upper].
      destruct Hsel as [-> | ->]; [left | right]; discriminate.
    + intros out s defs np infos H. apply write_c_file_content_inv in H.
      destruct H as (gs & bss & gnp & _ & _ & _ & _ & _ & _ & ->).
      cbn [gen_normal gen_upper].
      destruct Hsel as [-> | ->]; [|destruct gn]; discriminate.
Qed.

Lemma X22_constructed_processor_witness :
  (true = false /\ false = false ->
   init 8 4 0 true false (Some 1) None demo_face
   = ([], Raise (ValueError NoVariantSelected)))
  /\ (true = true \/ false = true ->
      exists p,
        init 8 4 0 true false (Some 1) None demo_face = ([Processing 8], Ok p)
        /\ font_ymin p = 0 /\ font_ymax p = 0
        /\ (forall out s data,
              write_rust_file p = (out, Ok (s, data)) ->
              font_info data <> None \/ font_info_upper data <> None)
        /\ (forall out s defs np infos,
              _write_c_file_content p = (out, Ok (s, (defs, np, infos))) ->
              infos <> [])).
Proof.
  apply (X22_constructed_processor 8 4 0 true false (Some 1) None demo_face).
Defined.

(** * The character widths *)

Lemma str_eqb_eq (a b : str) : str_eqb a b = true <-> a = b.
Proof.
  revert b. induction a as [|x a IH]; intros [|y b]; cbn [str_eqb];
    try (split; [discriminate | discriminate]); [split; reflexivity|].
  rewrite andb_true_iff, Z.eqb_eq, IH. split.
  - intros [-> ->]. reflexivity.
  - intros [= -> ->]. split; reflexivity.
Qed.

Lemma str_ltb_irrefl (a : str) : str_ltb a a = false.
Proof.
  induction a as [|x a IH]; [reflexivity|].
  cbn [str_ltb]. rewrite Z.ltb_irrefl, Z.eqb_refl, IH. reflexivity.
Qed.

Lemma str_ltb_trans (a b c : str) :
  str_ltb a b = true -> str_ltb b c = true -> str_ltb a c = true.
Proof.
  revert b c. induction a as [|x a IH]; intros [|y b] [|z c]; cbn [str_ltb];
    try discriminate; try reflexivity.
  rewrite !orb_true_iff, !andb_true_iff, !Z.ltb_lt, !Z.eqb_eq.
  intros [H1 | [-> H1]] [H2 | [-> H2]].
  - left. lia.
  - left. exact H1.
  - left. exact H2.
  - right. split; [reflexivity|]. apply (IH b c H1 H2).
Qed.

Lemma str_ltb_total (a b : str) :
  str_eqb a b = false -> str_ltb a b = false -> str_ltb b a = true.
Proof.
  revert b. induction a as [|x a IH]; intros [|y b]; cbn [str_eqb str_ltb];
    try discriminate; try reflexivity.
  intros He Hl. apply andb_false_iff in He. apply orb_false_iff in Hl.
  destruct Hl as [Hl1 Hl2]. apply Z.ltb_ge in Hl1. apply orb_true_iff.
  destruct (Z.eq_dec x y) as [-> | Hne].
  - right. rewrite Z.eqb_refl in *. cbn [andb] in *. apply IH.
    + destruct He as [He | He]; [discriminate He | exact He].
    + exact Hl2.
  - left. apply Z.ltb_lt. lia.
Qed.

Lemma set_add_in (c : str) (chars : list str) (x : str) :
  In x (set_add c chars) <-> x = c \/ In x chars.
Proof.
  induction chars as [|d chars IH]; cbn [set_add].
  - cbn. intuition congruence.
  - destruct (str_eqb c d) eqn:E.
    + apply str_eqb_eq in E. subst d. cbn. intuition congruence.
    + destruct (str_ltb c d).
      * cbn. intuition congruence.
      * cbn [In]. rewrite IH. intuition congruence.
Qed.

Lemma set_add_sorted (c : str) (chars : list str) :
  StronglySorted str_lt chars -> StronglySorted str_lt (set_add c chars).
Proof.
  induction chars as [|d chars IH]; intros H; cbn [set_add].
  - constructor; constructor.
  - apply StronglySorted_inv in H. destruct H as [Hs Hd].
    destruct (str_eqb c d) eqn:E; [constructor; assumption|].
    destruct (str_ltb c d) eqn:L.
    + constructor; [constructor; assumption|].
      constructor; [exact L|].
      rewrite Forall_forall in *. intros x Hx.
      apply (str_ltb_trans c d x L), Hd, Hx.
    + constructor; [apply IH, Hs|].
      apply Forall_forall. intros x Hx. apply set_add_in in Hx.
      destruct Hx as [-> | Hx].
      * apply str_ltb_total; [|exact L]. exact E.
      * rewrite Forall_forall in Hd. apply Hd, Hx.
Qed.

Lemma sorted_NoDup (l : list str) : StronglySorted str_lt l -> NoDup l.
Proof.
  induction l as [|a l IH]; intros H; constructor;
    apply StronglySorted_inv in H; destruct H as [Hs Ha].
  - intros Hin. rewrite Forall_forall in Ha. specialize (Ha a Hin).
    unfold str_lt in Ha. rewrite str_ltb_irrefl in Ha. discriminate Ha.
  - apply IH, Hs.
Qed.

Lemma fold_set_add {X} (f : X -> str) (xs : list X) (acc : list str) :
  let chars := fold_left (fun chars x => set_add (f x) chars) xs acc in
  (StronglySorted str_lt acc -> StronglySorted str_lt chars)
  /\ forall c, In c chars <-> (exists x, In x xs /\ c = f x) \/ In c acc.
Proof.
  revert acc. induction xs as [|x xs IH]; intros acc; cbn [fold_left].
  - split; [auto|]. intros c. split; [auto|]. intros [(x & [] & _) | H]. exact H.
  - destruct (IH (set_add (f x) acc)) as [H1 H2]. cbv zeta in *. split.
    + intros Hs. apply H1, set_add_sorted, Hs.
    + intros c. rewrite H2, set_add_in. split.
      * intros [(y & Hy & ->) | [-> | H]].
        -- left. exists y. split; [right; exact Hy | reflexivity].
        -- left. exists x. split; [left; reflexivity | reflexivity].
        -- right. exact H.
      * intros [(y & [<- | Hy] & ->) | H].
        -- right. left. reflexivity.
        -- left. exists y. split; [exact Hy | reflexivity].
        -- right. right. exact H.
Qed.

Lemma fold_languages (langs : list (str * list str)) (acc : list str) :
  let chars :=
    fold_left
      (fun chars '(_lang, lang_chars) =>
         fold_left (fun chars c => set_add c chars) lang_chars chars)
      langs acc in
  (StronglySorted str_lt acc -> StronglySorted str_lt chars)
  /\ forall c, In c chars
               <-> (exists lang cs, In (lang, cs) langs /\ In c cs) \/ In c acc.
Proof.
  revert acc. induction langs as [|[lang cs] langs IH]; intros acc;
    cbn [fold_left].
  - split; [auto|]. intros c. split; [auto|].
    intros [(l & cs & [] & _) | H]. exact H.
  - destruct (IH (fold_left (fun chars c => set_add c chars) cs acc)) as [H1 H2].
    destruct (fold_set_add (fun c => c) cs acc) as [G1 G2].
    cbv zeta in *. split.
    + intros Hs. apply H1, G1, Hs.
    + intros c. rewrite H2, G2. split.
      * intros [(l & cs' & Hl & Hc) | [(x & Hx & ->) | H]].
        -- left. exists l, cs'. split; [right; exact Hl | exact Hc].
        -- left. exists lang, cs. split; [left; reflexivity | exact Hx].
        -- right. exact H.
      * intros [(l & cs' & [[= <- <-] | Hl] & Hc) | H].
        -- right. left. exists c. split; [exact Hc | reflexivity].
        -- left. exists l, cs'. split; assumption.
        -- right. right. exact H.
Qed.

Lemma dict_set_new (k : str) (v : Z) (d : list (str * Z)) :
  ~ In k (map fst d) -> dict_set k v d = d ++ [(k, v)].
Proof.
  induction d as [|[k' v'] d IH]; intros H; [reflexivity|].
  cbn [dict_set]. destruct (str_eqb k k') eqn:E.
  - apply str_eqb_eq in E. subst k'. exfalso. apply H. left. reflexivity.
  - cbn [app]. f_equal. apply IH. intros Hin. apply H. right. exact Hin.
Qed.

Lemma widths_loop_inv (self : FaceProcessor) (chars : list str) :
  forall (acc : list (str * Z)) out widths,
    NoDup (map fst acc ++ chars) ->
    io_for_each chars
      (fun c widths =>
         (glyph <- from_face (face self c) c (shaveX self) false ;;
          ret (dict_set c (advance glyph) widths))%io)
      acc
    = (out, Ok widths) ->
    exists ws,
      widths = acc ++ combine chars ws
      /\ Forall2 (fun c w =>
                    exists o g,
                      from_face (face self c) c (shaveX self) false = (o, Ok g)
                      /\ w = advance g)
                 chars ws.
Proof.
  induction chars as [|c chars IH]; intros acc out widths Hnd H.
  - apply ret_inj in H. subst widths. exists []. rewrite app_nil_r.
    split; [reflexivity | constructor].
  - cbn [io_for_each] in H.
    apply bind_ok_inv in H. destruct H as (o1 & acc' & o2 & Hbody & H & ->).
    apply bind_ok_inv in Hbody. destruct Hbody as (o3 & g & o4 & Hg & Hret & ->).
    apply ret_inj in Hret. subst acc'.
    rewrite dict_set_new in H.
    + apply IH in H.
      * destruct H as (ws & -> & Hws). exists (advance g :: ws). split.
        -- cbn [combine]. rewrite <- app_assoc. reflexivity.
        -- constructor; [|exact Hws]. exists o3, g. split; [exact Hg | reflexivity].
      * rewrite map_app, <- app_assoc. exact Hnd.
    + apply NoDup_remove_2 in Hnd. intros Hin. apply Hnd.
      apply in_or_app. left. exact Hin.
Qed.

(** X23: what [write_char_widths_files] returns.  The keys of [widths]
    are in increasing order, without repetition; they are the characters of
    the printable range, a lowercase letter replaced by its capital when the
    normal variant is not generated, and the characters of every language;
    every key is one code point, and its value is the advance of the glyph
    extracted for it, within 0..255.  So a foreign character that is not a
    single code point makes it raise. *)
Theorem X23_char_widths (self : FaceProcessor)
    (all_languages : list (str * list str)) (out : list line)
    (widths : list (str * Z)) :
  write_char_widths_files self all_languages = (out, Ok widths) ->
  StronglySorted str_lt (map fst widths)
  /\ (forall c, In c (map fst widths)
                <-> (exists i, MIN_GLYPH <= i <= MAX_GLYPH /\ c = width_char self i)
                    \/ (exists lang cs, In (lang, cs) all_languages /\ In c cs))
  /\ (forall c w, In (c, w) widths ->
        len c = 1 /\ 0 <= w <= 255
        /\ exists o g,
             from_face (face self c) c (shaveX self) false = (o, Ok g)
             /\ w = advance g).
Proof.
  unfold write_char_widths_files. cbv zeta.
  set (f := fun i => if islower i && negb (gen_normal self) then [upper i] else [i]).
  destruct (fold_set_add f (range MIN_GLYPH (MAX_GLYPH + 1) 1) []) as [A1 A2].
  cbv zeta in A1, A2.
  set (ascii := fold_left _ (range MIN_GLYPH (MAX_GLYPH + 1) 1) []) in *.
  destruct (fold_languages all_languages ascii) as [L1 L2]. cbv zeta in L1, L2.
  set (chars := fold_left _ all_languages ascii) in *.
  assert (Hsorted : StronglySorted str_lt chars) by (apply L1, A1; constructor).
  intros H. apply widths_loop_inv in H;
    [|cbn [map app]; apply sorted_NoDup, Hsorted].
  destruct H as (ws & -> & Hws). cbn [app].
  assert (Hkeys : map fst (combine chars ws) = chars)
    by (apply map_fst_combine, (Forall2_length Hws)).
  rewrite Hkeys. split; [exact Hsorted|]. split.
  - intros c. rewrite L2, A2. split.
    + intros [H | [(i & Hi & ->) | []]]; [right; exact H | left].
      apply in_range_by_1 in Hi. exists i. split; [lia|].
      unfold f, width_char, upper. destruct (_ && _); reflexivity.
    + intros [(i & Hi & ->) | H]; [right; left | left; exact H].
      exists i. split; [apply in_range_by_1; lia|].
      unfold f, width_char, upper. destruct (_ && _); reflexivity.
  - intros c w Hin.
    assert (Hg : exists o g,
               from_face (face self c) c (shaveX self) false = (o, Ok g)
               /\ w = advance g).
    { clear - Hws Hin. revert ws Hws Hin.
      induction chars as [|d chars IH]; intros ws Hws Hin;
        inversion Hws as [|? v ? ws' Hd Hrest]; subst; [destruct Hin|].
      destruct Hin as [[= <- <-] | Hin]; [exact Hd | apply (IH _ Hrest Hin)]. }
    destruct Hg as (o & g & Hg & ->).
    destruct (from_face_well_formed _ _ _ _ _ _ Hg) as (_ & Ha & _).
    pose proof Hg as Hc. apply from_face_ok_consistent in Hc.
    destruct Hc as [Hc _]. apply rasterizer_consistent_buffer in Hc.
    unfold is_byte in Ha.
    split; [apply Hc|]. split; [lia|]. exists o, g. split; [exact Hg | reflexivity].
Qed.

Lemma X23_char_widths_witness :
  StronglySorted str_lt (map fst demo_widths)
  /\ (forall c, In c (map fst demo_widths)
                <-> (exists i, MIN_GLYPH <= i <= MAX_GLYPH
                               /\ c = width_char demo_processor i)
                    \/ (exists lang cs,
                          In (lang, cs) [([99; 115], [[225]; [269]; [225]])]
                          /\ In c cs))
  /\ (forall c w, In (c, w) demo_widths ->
        len c = 1 /\ 0 <= w <= 255
        /\ exists o g,
             from_face (face demo_processor c) c (shaveX demo_processor) false
             = (o, Ok g)
             /\ w = advance g).
Proof.
  apply (X23_char_widths demo_processor [([99; 115], [[225]; [269]; [225]])]
           (fst (write_char_widths_files demo_processor
                   [([99; 115], [[225]; [269]; [225]])]))).
  vm_compute. reflexivity.
Defined.

(** * Glyphs that keep their pixels *)

(** X24: when [shaveX] is not positive, or the bitmap has no column, a
    glyph that [from_face] returns keeps the bitmap as it is: the same
    width and the same buffer.  Without shaving, a negative bearingX is
    folded into the advance; with shaving of a bitmap without columns (the
    space), advance and bearingX give up what they can of [shaveX] and
    nothing more is taken. *)
Theorem X24_pixels_untouched (glyph : GlyphSlot) (c : str) (shaveX : Z)
    (inv : bool) (out : list line) (g : Glyph) :
  from_face glyph c shaveX inv = (out, Ok g) ->
  shaveX <= 0 \/ Bitmap.width (bitmap glyph) <= 0 ->
  let adv0 := Metrics.horiAdvance (metrics glyph) / 64 in
  let bx0 := Metrics.horiBearingX (metrics glyph) / 64 in
  width g = Bitmap.width (bitmap glyph)
  /\ buf g = Bitmap.buffer (bitmap glyph)
  /\ (shaveX <= 0 ->
      advance g = adv0 + Z.max 0 (- bx0) /\ bearingX g = Z.max 0 bx0)
  /\ (0 < shaveX ->
      let diff := Z.min adv0 (Z.min bx0 shaveX) in
      advance g = adv0 - diff /\ bearingX g = bx0 - diff).
Proof.
  intros H Hno adv0 bx0.
  apply from_face_ok_consistent in H. destruct H as [_ H].
  apply normalize_ok_inv in H. cbv zeta in H.
  destruct H as (adv & bx & rl & adv' & o1 & Hdls & Hfold & _ & _ & _
                 & _ & _ & _ & _ & _ & Hcol).
  fold adv0 bx0 in Hdls.
  unfold discard_left_space in Hdls. unfold fold_negative_bearingX in Hfold.
  destruct (Z.gtb_spec shaveX 0) as [Hs | Hs].
  - injection Hdls as <- <- <-.
    destruct (Z.ltb_spec (bx0 - Z.min adv0 (Z.min bx0 shaveX)) 0) as [Hn | Hn];
      [lia|].
    injection Hfold as _ <- Hbx.
    destruct Hno as [Hno | Hno]; [lia|].
    replace (Bitmap.width (bitmap glyph) >? 0) with false in Hcol
      by (symmetry; rewrite Z.gtb_ltb; apply Z.ltb_ge; exact Hno).
    rewrite andb_false_r in Hcol. destruct Hcol as (Hw & Ha & Hb).
    repeat split; try assumption; try lia.
  - injection Hdls as <- <- <-.
    replace (shaveX >? 0) with false in Hcol
      by (symmetry; rewrite Z.gtb_ltb; apply Z.ltb_ge; exact Hs).
    cbn [andb] in Hcol. destruct Hcol as (Hw & Ha & Hb).
    destruct (Z.ltb_spec bx0 0) as [Hn | Hn].
    + destruct (str_in c MODIFY_BEARING_X); [|discriminate Hfold].
      injection Hfold as _ <- Hbx.
      repeat split; try assumption; try lia.
    + injection Hfold as _ <- Hbx.
      repeat split; try assumption; try lia.
Qed.

Lemma X24_pixels_untouched_witness :
  let glyph := blank_slot 0 0 4 1 0 in
  let g := mkGlyph [32] 0 0 3 0 0 [] 256 false in
  let adv0 := Metrics.horiAdvance (metrics glyph) / 64 in
  let bx0 := Metrics.horiBearingX (metrics glyph) / 64 in
  width g = Bitmap.width (bitmap glyph)
  /\ buf g = Bitmap.buffer (bitmap glyph)
  /\ (2 <= 0 ->
      advance g = adv0 + Z.max 0 (- bx0) /\ bearingX g = Z.max 0 bx0)
  /\ (0 < 2 ->
      let diff := Z.min adv0 (Z.min bx0 2) in
      advance g = adv0 - diff /\ bearingX g = bx0 - diff).
Proof.
  apply (X24_pixels_untouched (blank_slot 0 0 4 1 0) [32] 2 false []
           (mkGlyph [32] 0 0 3 0 0 [] 256 false)).
  - reflexivity.
  - right. cbn. lia.
Defined.

(** * The line box of a font *)

Lemma Forall2_in_left {A B} (R : A -> B -> Prop) (xs : list A) (ys : list B) :
  Forall2 R xs ys -> forall x, In x xs -> exists y, In y ys /\ R x y.
Proof.
  induction 1 as [|x y xs ys Hxy _ IH]; intros a Hin; [destruct Hin|].
  destruct Hin as [<- | Hin].
  - exists y. split; [left; reflexivity | exact Hxy].
  - destruct (IH a Hin) as (b & Hb & Hab). exists b. split; [right|]; assumption.
Qed.

(** X25: every glyph of a generated font fits the line box that the font
    info describes.  When [write_rust_file] returns, for every code point of
    the variant the glyph that [from_face] returns lies between the bottom
    [-baseline] and the top [max_height - baseline], and is not taller than
    [max_height]. *)
Theorem X25_glyphs_fit_line_box (self : FaceProcessor) (out : list line)
    (self' : FaceProcessor) (data : RustData) :
  write_rust_file self = (out, Ok (self', data)) ->
  forall i o g fi,
    In i (variant_codes (gen_normal self)) ->
    from_face (face self [i]) [i] (shaveX self) false = (o, Ok g) ->
    font_info data = Some fi \/ font_info_upper data = Some fi ->
    - baseline fi <= bearingY g - rows g
    /\ bearingY g <= max_height fi - baseline fi
    /\ rows g <= max_height fi.
Proof.
  intros H i o g fi Hi Hg Hfi. apply write_rust_file_inv in H.
  destruct H as (gs & bss & gnp & Hgs & _ & _ & _ & _ & H).
  cbv zeta in H. destruct H as (_ & Efi & Efiu & _).
  destruct (Forall2_in_left _ _ _ Hgs i Hi) as (g' & Hin & Hg').
  rewrite Hg in Hg'. injection Hg' as <-.
  destruct (fold_min_spec (fun g => bearingY g - rows g) gs 0) as (_ & Hmin & _).
  destruct (fold_max_spec bearingY gs 0) as (_ & Hmax & _).
  cbv zeta in Hmin, Hmax. specialize (Hmin g Hin). specialize (Hmax g Hin).
  set (fontYMin := fold_left (fun m g => Z.min m (bearingY g - rows g)) gs 0) in *.
  set (fontYMax := fold_left (fun m g => Z.max m (bearingY g)) gs 0) in *.
  assert (E : baseline fi = - fontYMin /\ max_height fi = fontYMax - fontYMin).
  { destruct Hfi as [Hfi | Hfi]; [rewrite Efi in Hfi | rewrite Efiu in Hfi];
      [destruct (gen_normal self) | destruct (gen_upper self)];
      try discriminate Hfi; injection Hfi as <-; split; reflexivity. }
  destruct E as [-> ->]. lia.
Qed.

Lemma X25_glyphs_fit_line_box_witness :
  - baseline (mkFontInfo false (Some 1) 8 7 2)
  <= bearingY (demo_glyph [103] false) - rows (demo_glyph [103] false)
  /\ bearingY (demo_glyph [103] false)
     <= max_height (mkFontInfo false (Some 1) 8 7 2)
        - baseline (mkFontInfo false (Some 1) 8 7 2)
  /\ rows (demo_glyph [103] false) <= max_height (mkFontInfo false (Some 1) 8 7 2).
Proof.
  apply (X25_glyphs_fit_line_box demo_processor
           (fst (write_rust_file demo_processor)) (fst demo_rust) (snd demo_rust)
           ltac:(vm_compute; reflexivity) 103 [] (demo_glyph [103] false)
           (mkFontInfo false (Some 1) 8 7 2)).
  - vm_compute. do 71 right. left. reflexivity.
  - vm_compute. reflexivity.
  - left. vm_compute. reflexivity.
Defined.

(** * Table entries describe themselves *)

Lemma packed_depth (buf : list Z) (bpp w h : Z) (packed : list Z) :
  process_bitmap_buffer buf bpp w h = Ok packed ->
  bpp = 1 \/ bpp = 2 \/ bpp = 4 \/ bpp = 8.
Proof.
  unfold process_bitmap_buffer.
  destruct (Z.eqb_spec bpp 1); [auto|].
  destruct (Z.eqb_spec bpp 2); [auto|].
  destruct (Z.eqb_spec bpp 4); [auto|].
  destruct (Z.eqb_spec bpp 8); [auto|].
  discriminate.
Qed.

(** What [to_bytes] returns for a glyph whose buffer holds [width * rows]
    pixels. *)
Lemma serialized_length (g : Glyph) (bpp : Z) (bs : list Z) :
  len (buf g) = width g * rows g ->
  to_bytes g bpp = Ok bs ->
  Forall is_byte bs
  /\ firstn 5 bs = header g
  /\ len bs = 5 + packed_length bpp (width g) (rows g).
Proof.
  intros Hlen H. rewrite to_bytes_unfold in H.
  assert (Hh : forall l, bytes (header g ++ l) = Ok bs ->
                         0 <= width g /\ 0 <= rows g).
  { intros l Hl. apply bytes_inv in Hl. destruct Hl as [_ Hl].
    unfold header in Hl. inversion Hl as [|? ? H1 Hl']; subst.
    inversion Hl' as [|? ? H2 _]; subst. unfold is_byte in *. lia. }
  destruct (buf g) as [|p ps] eqn:E.
  - destruct (Hh [] ltac:(rewrite app_nil_r; exact H)) as [Hw Hr].
    apply bytes_inv in H. destruct H as [-> Hb].
    split; [exact Hb|]. split; [reflexivity|].
    rewrite packed_length_empty; [reflexivity | lia | lia |].
    unfold len in Hlen. cbn in Hlen. lia.
  - rewrite <- E in *.
    destruct (process_bitmap_buffer _ _ _ _) as [packed|e] eqn:Ep;
      [|discriminate H].
    destruct (Hh _ H) as [Hw Hr].
    apply bytes_inv in H. destruct H as [-> Hb].
    split; [exact Hb|]. split; [reflexivity|].
    unfold len. rewrite length_app, length_map, Nat2Z.inj_add.
    fold (len packed).
    rewrite (pack_length (buf g) bpp (width g) (rows g)
               (packed_depth _ _ _ _ _ Ep) Hw Hr Hlen packed Ep).
    reflexivity.
Qed.

(** X26: the entries of the generated table describe themselves.  When
    [write_rust_file] returns, every glyph entry, and the nonprintable
    glyph, is a list of bytes whose first two give the width [w] and the
    number of rows [r] of the glyph, and whose length is 5 plus the number
    of bytes that [w * r] pixels pack into at the font's depth. *)
Theorem X26_entries_describe_themselves (self : FaceProcessor)
    (out : list line) (self' : FaceProcessor) (data : RustData) :
  write_rust_file self = (out, Ok (self', data)) ->
  forall bs,
    In bs (map snd (glyphs data)) \/ bs = nonprintable data ->
    Forall is_byte bs
    /\ len bs = 5 + packed_length (bpp self) (nth 0 bs 0) (nth 1 bs 0).
Proof.
  intros H bs Hbs. apply write_rust_file_inv in H.
  destruct H as (gs & bss & gnp & Hgs & Hbss & Hnp & Hbnp & Eg & _).
  assert (Hg : exists o c inv g,
             from_face (face self c) c (shaveX self) inv = (o, Ok g)
             /\ to_bytes g (bpp self) = Ok bs).
  { destruct Hbs as [Hin | ->].
    - apply in_map_iff in Hin. destruct Hin as ([i bs'] & <- & Hin).
      rewrite Eg in Hin.
      destruct (in_combine_chain _ _ _ _ _ Hgs Hbss i bs' Hin) as (g & Hg & Hb).
      apply io_ok_of_snd in Hg. destruct Hg as [o Hg].
      exists o, [i], false, g. split; assumption.
    - apply io_ok_of_snd in Hnp. destruct Hnp as [o Hnp].
      exists o, question_mark, true, gnp. split; assumption. }
  destruct Hg as (o & c & inv & g & Hg & Hb).
  destruct (from_face_well_formed _ _ _ _ _ _ Hg) as (Hlen & _).
  destruct (serialized_length g (bpp self) bs Hlen Hb) as (Hbytes & Hhd & Hl).
  split; [exact Hbytes|].
  assert (E : nth 0 bs 0 = width g /\ nth 1 bs 0 = rows g).
  { rewrite <- (firstn_skipn 5 bs), Hhd. split; reflexivity. }
  destruct E as [-> ->]. exact Hl.
Qed.

Lemma X26_entries_describe_themselves_witness :
  Forall is_byte (nonprintable (snd demo_rust))
  /\ len (nonprintable (snd demo_rust))
     = 5 + packed_length (bpp demo_processor)
             (nth 0 (nonprintable (snd demo_rust)) 0)
             (nth 1 (nonprintable (snd demo_rust)) 0).
Proof.
  apply (X26_entries_describe_themselves demo_processor
           (fst (write_rust_file demo_processor)) (fst demo_rust) (snd demo_rust)
           ltac:(vm_compute; reflexivity)).
  right. reflexivity.
Defined.
